(** * BoatManagement.c: a shallow embedding and its properties

    The marina inventory program keeps an array of at most [MAX_BOATS]
    boats, loaded from a CSV file, edited through an interactive menu and
    written back on exit.  This file embeds the program function by
    function (same names as in [src/BoatManagement.c]) and proves the
    properties of the record codec, the inventory store and the billing
    rules.

    Conventions of the embedding.
    - A C string is a [string] (a list of 8-bit characters) without the
      terminating NUL; where the C code sees raw bytes that may contain a
      NUL (the buffer filled by [fgets]) the cut at the first NUL is
      written out ([cstring]).
    - [float] is IEEE-754 binary32 and [double] binary64, both carried by
      [spec_float] with the rounding functions of [SpecFloat]
      (round to nearest, ties to even; expressions are evaluated in the
      type the C code gives them, as on x86-64).
    - [spec_float] has a single NaN, without a sign, while [printf]
      prints the sign of a NaN: the functions that print a record take the
      sign bits of its two numbers as an argument ([NanSigns]), and what
      is proved of them holds for every value of these bits.
    - [int] is a [Z] wrapped to 32 bits where the code can overflow.
    - The array [Boat* boats[MAX_BOATS]] together with [boatCount] is the
      list of its first [boatCount] records.  [malloc] is assumed to
      succeed.
    - What a function prints is returned as a list of [Output] events, one
      constructor per message.
    - Of [main], the loading and the [do ... while] loop are embedded
      ([initial], [menu_step], [menu_loop]); standard input is the string
      of the characters still to be read.  [saveBoatData] is the text
      written to the file. *)

From Stdlib Require Import ZArith NArith List String Ascii Bool Lia.
From Stdlib Require Import Sorted Permutation.
From Stdlib Require Import Decimal DecimalFacts DecimalPos DecimalN DecimalString.
From Stdlib Require Import Floats.SpecFloat.
Import ListNotations.

Local Open Scope string_scope.
Local Open Scope Z_scope.

(** ** Constants *)

Definition MAX_BOATS : nat := 120.
Definition MAX_NAME_LENGTH : nat := 128.

(** ** Characters and C strings *)

Module CString.

Definition NUL : ascii := "000"%char.
Definition NL : ascii := "010"%char.
Definition COMMA : ascii := ","%char.

Definition code (c : ascii) : Z := Z.of_N (N_of_ascii c).

(** [tolower] and [toupper] in the "C" locale (the program never calls
    [setlocale]). *)
Definition tolower (c : ascii) : ascii :=
  if (65 <=? code c) && (code c <=? 90)
  then ascii_of_N (N_of_ascii c + 32) else c.

Definition toupper (c : ascii) : ascii :=
  if (97 <=? code c) && (code c <=? 122)
  then ascii_of_N (N_of_ascii c - 32) else c.

(** [isspace] in the "C" locale: space, \t \n \v \f \r. *)
Definition isspace (c : ascii) : bool :=
  (code c =? 32) || ((9 <=? code c) && (code c <=? 13)).

Definition isdigit (c : ascii) : bool :=
  (48 <=? code c) && (code c <=? 57).

(** The C string held by a byte buffer: everything before the first NUL. *)
Fixpoint cstring (s : string) : string :=
  match s with
  | EmptyString => EmptyString
  | String c s' => if Ascii.eqb c NUL then EmptyString else String c (cstring s')
  end.

Fixpoint take (n : nat) (s : string) : string :=
  match n, s with
  | S n', String c s' => String c (take n' s')
  | _, _ => EmptyString
  end.

(** [strncpy(dst, src, n); dst[n] = 0]: the first [n] characters of the
    C string [src]. *)
Definition strncpy (n : nat) (src : string) : string := take n (cstring src).

(** [strcmp]: difference of the first pair of differing characters, read
    as [unsigned char].  The comparison stops at the terminator, so a NUL
    inside either argument ends it as the end of the string does. *)
Fixpoint strcmp (a b : string) : Z :=
  match a, b with
  | EmptyString, EmptyString => 0
  | EmptyString, String y _ => 0 - code y
  | String x _, EmptyString => code x
  | String x a', String y b' =>
      if code x =? code y
      then (if code x =? 0 then 0 else strcmp a' b')
      else code x - code y
  end.

(** [strcasecmp]: as [strcmp] on the lower-cased characters. *)
Fixpoint strcasecmp (a b : string) : Z :=
  match a, b with
  | EmptyString, EmptyString => 0
  | EmptyString, String y _ => 0 - code (tolower y)
  | String x _, EmptyString => code (tolower x)
  | String x a', String y b' =>
      if code (tolower x) =? code (tolower y)
      then (if code (tolower x) =? 0 then 0 else strcasecmp a' b')
      else code (tolower x) - code (tolower y)
  end.

(** [buffer[strcspn(buffer, "\n")] = '\0']: the C string in [buffer] cut
    at its first newline. *)
Fixpoint chomp (buffer : string) : string :=
  match buffer with
  | EmptyString => EmptyString
  | String c s' =>
      if Ascii.eqb c NUL || Ascii.eqb c NL then EmptyString
      else String c (chomp s')
  end.

(** [fgets(buf, size, stream)] with [n = size - 1]: at most [n]
    characters, stopping after a newline; the pair is what was read and
    what is left in the stream. *)
Fixpoint fgets_chars (n : nat) (stream : string) : string * string :=
  match n, stream with
  | S n', String c s' =>
      if Ascii.eqb c NL then (String c EmptyString, s')
      else let '(l, r) := fgets_chars n' s' in (String c l, r)
  | _, _ => (EmptyString, stream)
  end.

(** [fgets] returns NULL at end of file, when nothing could be read. *)
Definition fgets (size : nat) (stream : string) : option (string * string) :=
  match stream with
  | EmptyString => None
  | _ => Some (fgets_chars (size - 1) stream)
  end.

(** [strtok_r(s, ",", &s)]: skip leading commas; NULL if nothing is left;
    otherwise the token runs to the next comma (overwritten by NUL) and
    the saved pointer is placed after it. *)
Fixpoint skip_commas (s : string) : string :=
  match s with
  | String c s' => if Ascii.eqb c COMMA then skip_commas s' else s
  | EmptyString => EmptyString
  end.

Fixpoint span_token (s : string) : string * string :=
  match s with
  | EmptyString => (EmptyString, EmptyString)
  | String c s' =>
      if Ascii.eqb c COMMA then (EmptyString, s')
      else let '(t, r) := span_token s' in (String c t, r)
  end.

Definition strtok_r (s : string) : option (string * string) :=
  match skip_commas s with
  | EmptyString => None
  | s1 => Some (span_token s1)
  end.

End CString.
Import CString.

(** ** The C library's numeric conversions

    [atoi], [atof] and the [printf] conversions [%d], [%.0f], [%.2f] are
    library functions; they are modelled from the C standard as glibc
    implements it. *)

Module Num.

Definition float := spec_float.   (* binary32 *)
Definition double := spec_float.  (* binary64 *)

Definition prec32 : Z := 24.
Definition emax32 : Z := 128.
Definition prec64 : Z := 53.
Definition emax64 : Z := 1024.

(** Conversion of a [double] to [float] (assignment to a [float] object)
    and promotion of a [float] to [double] (exact). *)
Definition to_float (d : double) : float :=
  match d with
  | S754_finite s m e => binary_round prec32 emax32 s m e
  | _ => d
  end.

Definition to_double (f : float) : double :=
  match f with
  | S754_finite s m e => binary_round prec64 emax64 s m e
  | _ => f
  end.

Definition float_of_Z (z : Z) : float := binary_normalize prec32 emax32 z 0 false.

Definition fadd (x y : float) : float := SFadd prec32 emax32 x y.
Definition fsub (x y : float) : float := SFsub prec32 emax32 x y.
Definition dmul (x y : double) : double := SFmul prec64 emax64 x y.
(** The C comparison [x > y]. *)
Definition fgt (x y : float) : bool := SFltb y x.

Definition is_finite (x : spec_float) : bool :=
  match x with
  | S754_zero _ | S754_finite _ _ _ => true
  | _ => false
  end.

(** *** Reading numbers *)

Fixpoint skip_space (s : string) : string :=
  match s with
  | String c s' => if isspace c then skip_space s' else s
  | EmptyString => EmptyString
  end.

Fixpoint span (p : ascii -> bool) (s : string) : string * string :=
  match s with
  | String c s' =>
      if p c then let '(l, r) := span p s' in (String c l, r) else (EmptyString, s)
  | EmptyString => (EmptyString, EmptyString)
  end.

Definition parse_sign (s : string) : bool * string :=
  match s with
  | String "-" r => (true, r)
  | String "+" r => (false, r)
  | _ => (false, s)
  end.

Definition digit_val (c : ascii) : N := (N_of_ascii c - 48)%N.

(** Value of the leading run of decimal digits of [s], continuing [acc]. *)
Fixpoint digits_val (acc : N) (s : string) : N :=
  match s with
  | String c s' =>
      if isdigit c then digits_val (10 * acc + digit_val c)%N s' else acc
  | EmptyString => acc
  end.

(** [strtol(s, NULL, 10)] on a 64-bit [long]: saturates on overflow. *)
Definition strtol (s : string) : Z :=
  let '(neg, s2) := parse_sign (skip_space s) in
  let v := Z.of_N (digits_val 0 s2) in
  if neg then Z.max (- 2 ^ 63) (- v) else Z.min (2 ^ 63 - 1) v.

(** Conversion of a [long] to [int]: keeps the low 32 bits. *)
Definition int_wrap (z : Z) : Z := (z + 2 ^ 31) mod 2 ^ 32 - 2 ^ 31.

(** [atoi(s)] is [(int) strtol(s, NULL, 10)]. *)
Definition atoi (s : string) : Z := int_wrap (strtol s).

Definition isxdigit (c : ascii) : bool :=
  isdigit c || ((97 <=? code (tolower c)) && (code (tolower c) <=? 102)).

Definition xdigit_val (c : ascii) : N :=
  if isdigit c then digit_val c else (N_of_ascii (tolower c) - 87)%N.

Fixpoint xdigits_val (acc : N) (s : string) : N :=
  match s with
  | String c s' =>
      if isxdigit c then xdigits_val (16 * acc + xdigit_val c)%N s' else acc
  | EmptyString => acc
  end.

(** [prefix_ci p s]: [s] starts with the lower-case word [p], in any
    letter case. *)
Fixpoint prefix_ci (p s : string) : bool :=
  match p, s with
  | EmptyString, _ => true
  | String a p', String b s' => Ascii.eqb a (tolower b) && prefix_ci p' s'
  | _, EmptyString => false
  end.

(** Optional exponent part: the letter [mark] (either case), an optional
    sign and at least one digit; 0 when it is absent or incomplete. *)
Definition parse_exp (mark : ascii) (s : string) : Z :=
  match s with
  | String c r =>
      if Ascii.eqb (tolower c) mark then
        let '(neg, r') := parse_sign r in
        match r' with
        | String d _ =>
            if isdigit d then
              let v := Z.of_N (digits_val 0 r') in if neg then - v else v
            else 0
        | EmptyString => 0
        end
      else 0
  | EmptyString => 0
  end.

(** The double nearest to [(-1)^neg * D * 10^E]. *)
Definition decimal_to_double (neg : bool) (D : N) (E : Z) : double :=
  match D with
  | N0 => S754_zero neg
  | Npos d =>
      if 0 <=? E
      then binary_round prec64 emax64 neg (d * Z.to_pos (10 ^ E)) 0
      else SFdiv prec64 emax64 (S754_finite neg d 0)
                               (S754_finite false (Z.to_pos (10 ^ (- E))) 0)
  end.

Definition fraction_part (p : ascii -> bool) (s : string) : string * string :=
  match s with
  | String "." r => span p r
  | _ => (EmptyString, s)
  end.

(** A hexadecimal constant starts with 0x and at least one hex digit,
    possibly after the radix point. *)
Definition hex_start (s : string) : bool :=
  match s with
  | String z (String x r) =>
      Ascii.eqb z "0" && Ascii.eqb (tolower x) "x" &&
      match r with
      | String "." (String d _) => isxdigit d
      | String d _ => isxdigit d
      | EmptyString => false
      end
  | _ => false
  end.

(** [strtod(s, NULL)]: leading white space, optional sign, then
    "inf"/"infinity", "nan", a hexadecimal or a decimal constant; the
    longest valid prefix is converted, correctly rounded; when there is
    none the result is (positive) zero. *)
Definition strtod (s : string) : double :=
  let '(neg, s2) := parse_sign (skip_space s) in
  if prefix_ci "inf" s2 then S754_infinity neg
  else if prefix_ci "nan" s2 then S754_nan
  else if hex_start s2 then
    match s2 with
    | String _ (String _ body) =>
        let '(ip, r1) := span isxdigit body in
        let '(fp, r2) := fraction_part isxdigit r1 in
        let m := Z.of_N (xdigits_val 0 (ip ++ fp)) in
        let e := parse_exp "p" r2 - 4 * Z.of_nat (String.length fp) in
        binary_normalize prec64 emax64 (if neg then - m else m) e neg
    | _ => S754_zero false
    end
  else
    let '(ip, r1) := span isdigit s2 in
    let '(fp, r2) := fraction_part isdigit r1 in
    match ip ++ fp with
    | EmptyString => S754_zero false
    | ds =>
        decimal_to_double neg (digits_val 0 ds)
          (parse_exp "e" r2 - Z.of_nat (String.length fp))
    end.

(** [atof(s)] is [strtod(s, NULL)]. *)
Definition atof (s : string) : double := strtod s.

(** *** Writing numbers *)

Definition N_to_string (n : N) : string := NilZero.string_of_uint (N.to_uint n).

Fixpoint zeros (k : nat) : string :=
  match k with
  | O => EmptyString
  | S k' => String "0" (zeros k')
  end.

Fixpoint drop (n : nat) (s : string) : string :=
  match n, s with
  | S n', String _ s' => drop n' s'
  | _, _ => s
  end.

(** [printf("%d", z)]. *)
Definition fmt_d (z : Z) : string :=
  if z <? 0 then String "-" (N_to_string (Z.to_N (- z)))
  else N_to_string (Z.to_N z).

(** [m * 2^e * 10^p] rounded to the nearest integer, ties to even. *)
Definition scaled_round (m : positive) (e : Z) (p : nat) : N :=
  let num := (Z.pos m * 10 ^ Z.of_nat p)%Z in
  if 0 <=? e then Z.to_N (num * 2 ^ e)
  else
    let den := 2 ^ (- e) in
    let q := num / den in
    let r := num mod den in
    Z.to_N (if (den <? 2 * r) || ((den =? 2 * r) && Z.odd q) then q + 1 else q).

(** The digits of [n] with a radix point before the last [p] of them. *)
Definition fixed_digits (n : N) (p : nat) : string :=
  let ds := N_to_string n in
  let ds' := zeros (S p - String.length ds) ++ ds in
  let k := (String.length ds' - p)%nat in
  match p with
  | O => ds'
  | _ => take k ds' ++ String "." (drop k ds')
  end.

(** [printf("%.pf", x)] for a [float] or [double] argument [x].  A NaN
    is printed as "nan", or as "-nan" when its sign bit is set;
    [spec_float] has a single NaN and keeps no sign for it, so that bit is
    given apart as [nan_sign] (it plays no part for any other value). *)
Definition fmt_f (nan_sign : bool) (p : nat) (x : spec_float) : string :=
  match x with
  | S754_nan => if nan_sign then "-nan" else "nan"
  | S754_infinity s => if s then "-inf" else "inf"
  | S754_zero s =>
      (if s then "-" else "") ++ fixed_digits 0 p
  | S754_finite s m e =>
      (if s then "-" else "") ++ fixed_digits (scaled_round m e p) p
  end.

End Num.
Import Num.

(** ** The record model *)

Inductive LocationType := SLIP | LAND | TRAILOR | STORAGE.

(** The union [LocationInfo].  The C code only ever reads the member it
    wrote for the boat's [locationType], so the union and its tag are one
    tagged value and [locationType] is read off the constructor. *)
Inductive LocationInfo :=
| slipNumber (n : Z)
| bayLetter (c : ascii)
| trailorTag (t : string)
| storageSpace (n : Z).

Record Boat := mkBoat {
  name : string;
  length : float;
  locationInfo : LocationInfo;
  amountOwed : float
}.

(** The sign bits of the two [float] members of a record, which matter
    only where a member is a NaN (see [fmt_f]).  The functions that print
    a record take them as an argument; what is proved of these functions
    holds for every value of these bits. *)
Record NanSigns := mkNanSigns {
  lengthSign : bool;
  owedSign : bool
}.

Definition locationType (b : Boat) : LocationType :=
  match locationInfo b with
  | slipNumber _ => SLIP
  | bayLetter _ => LAND
  | trailorTag _ => TRAILOR
  | storageSpace _ => STORAGE
  end.

Definition locationTypeToString (t : LocationType) : string :=
  match t with
  | SLIP => "slip"
  | LAND => "land"
  | TRAILOR => "trailor"
  | STORAGE => "storage"
  end.

(** Rates per foot per month: the [double] constants of the source. *)
Definition SLIP_RATE : double := Eval vm_compute in strtod "12.50".
Definition LAND_RATE : double := Eval vm_compute in strtod "14.00".
Definition TRAILOR_RATE : double := Eval vm_compute in strtod "25.00".
Definition STORAGE_RATE : double := Eval vm_compute in strtod "11.20".

Definition rate (t : LocationType) : double :=
  match t with
  | SLIP => SLIP_RATE
  | LAND => LAND_RATE
  | TRAILOR => TRAILOR_RATE
  | STORAGE => STORAGE_RATE
  end.

(** What the program prints while it loads and runs its menu, one
    constructor per message. *)
Inductive Output :=
| Welcome
| Menu
| PromptCsv
| PromptName
| PromptAmount
| InvalidOption (c : ascii)
| WarnOpenRead
| ErrMaximum
| ErrFormat
| ErrLocationType
| NoBoat
| MoreThanOwed (owed : float)
| Inventory (boats : list Boat)
| BlankLine.

(** ** The CSV codec *)

Inductive ParseError := BadFormat | BadLocationType.

Definition parsed (A : Type) : Type := (ParseError + A)%type.

Definition bind {A B} (m : parsed A) (k : A -> parsed B) : parsed B :=
  match m with
  | inl e => inl e
  | inr a => k a
  end.

Notation "' p <- m ;; k" := (bind m (fun p => k))
  (at level 61, p pattern, m at next level, right associativity).

(** [token = strtok_r(rest, ",", &rest); if (token == NULL) <reject>]. *)
Definition next_token (rest : string) : parsed (string * string) :=
  match strtok_r rest with
  | None => inl BadFormat
  | Some p => inr p
  end.

(** The line parser that [loadBoatData] (lines 184-269) and [addBoat]
    (lines 384-477) both contain.  The two copies differ in the function
    that compares the location keyword ([strcmp] in [loadBoatData],
    [strcasecmp] in [addBoat]), which is the parameter [cmp]. *)
Definition parseBoat (cmp : string -> string -> Z) (buffer : string) : parsed Boat :=
  '(token, rest) <- next_token buffer ;;
  let nm := strncpy (MAX_NAME_LENGTH - 1) token in
  '(token, rest) <- next_token rest ;;
  let len := to_float (atof token) in
  '(token, rest) <- next_token rest ;;
  '(info, rest) <-
     (if cmp token "slip" =? 0 then
        '(token, rest) <- next_token rest ;;
        inr (slipNumber (atoi token), rest)
      else if cmp token "land" =? 0 then
        '(token, rest) <- next_token rest ;;
        match token with
        | EmptyString => inl BadFormat
        | String c _ => inr (bayLetter c, rest)
        end
      else if cmp token "trailor" =? 0 then
        '(token, rest) <- next_token rest ;;
        inr (trailorTag (strncpy 9 token), rest)
      else if cmp token "storage" =? 0 then
        '(token, rest) <- next_token rest ;;
        inr (storageSpace (atoi token), rest)
      else inl BadLocationType) ;;
  '(token, rest) <- next_token rest ;;
  inr {| name := nm; length := len; locationInfo := info;
         amountOwed := to_float (atof token) |}.

(** The line [saveBoatData] writes for one boat, without its newline. *)
Definition encodeBoat (sg : NanSigns) (boat : Boat) : string :=
  name boat ++ "," ++ fmt_f (lengthSign sg) 0 (length boat) ++ "," ++
  locationTypeToString (locationType boat) ++ "," ++
  match locationInfo boat with
  | slipNumber n => fmt_d n
  | bayLetter c => String c EmptyString
  | trailorTag t => t
  | storageSpace n => fmt_d n
  end ++ "," ++ fmt_f (owedSign sg) 2 (amountOwed boat).

(** ** The listing *)

Fixpoint spaces (k : nat) : string :=
  match k with
  | O => EmptyString
  | S k' => String " " (spaces k')
  end.

(** A [printf] field of minimum width [w], right-justified ([%ws],
    [%wd], [%w.pf]) and left-justified ([%-ws]). *)
Definition pad_left (w : nat) (s : string) : string :=
  spaces (w - String.length s) ++ s.

Definition pad_right (w : nat) (s : string) : string :=
  s ++ spaces (w - String.length s).

(** The line [displayInventory] prints for one boat:
    ["%-20s %3.0f' "], the location with one of ["%8s   # %2d"],
    ["%8s      %c"], ["%8s %6s"], then ["   Owes $%7.2f\n"]. *)
Definition inventoryLine (sg : NanSigns) (boat : Boat) : string :=
  pad_right 20 (name boat) ++ " " ++
  pad_left 3 (fmt_f (lengthSign sg) 0 (length boat)) ++ "' " ++
  match locationInfo boat with
  | slipNumber n => pad_left 8 "slip" ++ "   # " ++ pad_left 2 (fmt_d n)
  | bayLetter c => pad_left 8 "land" ++ "      " ++ String c EmptyString
  | trailorTag t => pad_left 8 "trailor" ++ " " ++ pad_left 6 t
  | storageSpace n => pad_left 8 "storage" ++ "   # " ++ pad_left 2 (fmt_d n)
  end ++ "   Owes $" ++ pad_left 7 (fmt_f (owedSign sg) 2 (amountOwed boat)) ++
  String NL EmptyString.

(** [displayInventory]: the text printed, one line per boat in the order
    of the array and an empty line at the end; [sg i] gives the sign bits
    of the record at index [i]. *)
Fixpoint displayInventory (sg : nat -> NanSigns) (boats : list Boat) : string :=
  match boats with
  | [] => String NL EmptyString
  | boat :: boats' =>
      inventoryLine (sg O) boat ++ displayInventory (fun i => sg (S i)) boats'
  end.

(** ** The inventory store *)

Definition compareBoats (a b : Boat) : Z := strcasecmp (name a) (name b).

(** [qsort]: the C library only promises a permutation ordered by the
    comparison; the model is an insertion sort, and the properties below
    use nothing of it but that promise ([qsort_perm], [qsort_sorted]). *)
Fixpoint insert_by {A} (cmp : A -> A -> Z) (x : A) (l : list A) : list A :=
  match l with
  | [] => [x]
  | y :: l' => if cmp x y <=? 0 then x :: l else y :: insert_by cmp x l'
  end.

Fixpoint qsort {A} (cmp : A -> A -> Z) (l : list A) : list A :=
  match l with
  | [] => []
  | x :: l' => insert_by cmp x (qsort cmp l')
  end.

(** The reading loop of [loadBoatData]; each turn consumes at least one
    character of the file, so [fuel] = length of the file is enough. *)
Fixpoint load_loop (fuel : nat) (file : string) (boats : list Boat) : list Boat :=
  match fuel with
  | O => boats
  | S fuel' =>
      match fgets 256 file with
      | None => boats
      | Some (buffer, file') =>
          if (List.length boats <? MAX_BOATS)%nat then
            match parseBoat strcmp (chomp buffer) with
            | inr newBoat => load_loop fuel' file' (boats ++ [newBoat])
            | inl _ => load_loop fuel' file' boats
            end
          else boats
      end
  end.

(** [loadBoatData]: [file] is the content of the file, [None] when it
    cannot be opened (then [boats] and [boatCount] are left as they
    were). *)
Definition loadBoatData (file : option string) (boats : list Boat)
  : list Boat * list Output :=
  match file with
  | None => (boats, [WarnOpenRead])
  | Some content =>
      (qsort compareBoats (load_loop (String.length content) content []), [])
  end.

(** [saveBoatData]: the text written to the file; [sg i] gives the sign
    bits of the record at index [i]. *)
Fixpoint saveBoatData (sg : nat -> NanSigns) (boats : list Boat) : string :=
  match boats with
  | [] => EmptyString
  | boat :: boats' =>
      encodeBoat (sg O) boat ++ String NL (saveBoatData (fun i => sg (S i)) boats')
  end.

(** [addBoat]: the capacity test, the line parser on a copy of at most
    255 characters of [boatData], then append and sort. *)
Definition addBoat (boats : list Boat) (boatData : string)
  : list Boat * list Output :=
  if (MAX_BOATS <=? List.length boats)%nat then (boats, [ErrMaximum])
  else
    match parseBoat strcasecmp (strncpy 255 boatData) with
    | inl BadFormat => (boats, [ErrFormat])
    | inl BadLocationType => (boats, [ErrLocationType])
    | inr newBoat => (qsort compareBoats (boats ++ [newBoat]), [])
    end.

(** [findBoatByName]: index of the first boat whose name matches, [None]
    for the C result -1. *)
Fixpoint findBoatByName (boats : list Boat) (nm : string) : option nat :=
  match boats with
  | [] => None
  | b :: boats' =>
      if strcasecmp (name b) nm =? 0 then Some O
      else option_map S (findBoatByName boats' nm)
  end.

(** The shifting loop of [removeBoat] followed by [boatCount--]. *)
Fixpoint remove_at {A} (index : nat) (l : list A) : list A :=
  match index, l with
  | _, [] => []
  | O, _ :: l' => l'
  | S i, x :: l' => x :: remove_at i l'
  end.

(** [removeBoat]: prompt, one line of input for the name, lookup, shift.
    The result carries what is left of the input. *)
Definition removeBoat (boats : list Boat) (stdin : string)
  : list Boat * string * list Output :=
  match fgets MAX_NAME_LENGTH stdin with
  | None => (boats, stdin, [PromptName])
  | Some (buffer, stdin') =>
      match findBoatByName boats (chomp buffer) with
      | None => (boats, stdin', [PromptName; NoBoat])
      | Some index => (remove_at index boats, stdin', [PromptName])
      end
  end.

Fixpoint update_at {A} (index : nat) (f : A -> A) (l : list A) : list A :=
  match index, l with
  | _, [] => []
  | O, x :: l' => f x :: l'
  | S i, x :: l' => x :: update_at i f l'
  end.

Definition setAmountOwed (v : float) (b : Boat) : Boat :=
  {| name := name b; length := length b; locationInfo := locationInfo b;
     amountOwed := v |}.

(** ** The billing engine *)

(** [acceptPayment]: prompt and name as in [removeBoat], then a line of at
    most 49 characters for the amount.  [findBoatByName] returns an index
    below [boatCount], so [boats[index]] exists and the [None] branch of
    [nth_error] is never taken. *)
Definition acceptPayment (boats : list Boat) (stdin : string)
  : list Boat * string * list Output :=
  match fgets MAX_NAME_LENGTH stdin with
  | None => (boats, stdin, [PromptName])
  | Some (nameBuffer, stdin1) =>
      match findBoatByName boats (chomp nameBuffer) with
      | None => (boats, stdin1, [PromptName; NoBoat])
      | Some index =>
          match fgets 50 stdin1 with
          | None => (boats, stdin1, [PromptName; PromptAmount])
          | Some (buffer, stdin2) =>
              let payment := to_float (atof (cstring buffer)) in
              match nth_error boats index with
              | None => (boats, stdin2, [PromptName; PromptAmount])
              | Some boat =>
                  if fgt payment (amountOwed boat) then
                    (boats, stdin2,
                     [PromptName; PromptAmount; MoreThanOwed (amountOwed boat)])
                  else
                    (update_at index
                       (fun b => setAmountOwed (fsub (amountOwed b) payment) b)
                       boats,
                     stdin2, [PromptName; PromptAmount])
              end
          end
      end
  end.

(** [monthlyCharge = boat->length * RATE]: the [float] length is promoted,
    the product is a [double] and is converted back to [float]. *)
Definition monthlyCharge (boat : Boat) : float :=
  to_float (dmul (to_double (length boat)) (rate (locationType boat))).

(** [boat->amountOwed += monthlyCharge]. *)
Definition chargeBoat (boat : Boat) : Boat :=
  setAmountOwed (fadd (amountOwed boat) (monthlyCharge boat)) boat.

Definition updateMonthlyCharges (boats : list Boat) : list Boat * list Output :=
  (map chargeBoat boats, [BlankLine]).

(** ** The interactive loop of [main] *)

Local Open Scope list_scope.

Record State := mkState {
  boats : list Boat;
  stdin : string;
  choice : ascii;
  stdout : list Output
}.

Definition first_char (buffer : string) : ascii :=
  match buffer with
  | String c _ => c
  | EmptyString => NUL
  end.

(** One turn of the [do ... while] body: the menu, one line of input and
    the [switch].  At end of input [fgets] fails and [choice] keeps its
    value. *)
Definition menu_step (st : State) : State :=
  match fgets 256 (stdin st) with
  | None =>
      mkState (boats st) (stdin st) (choice st) (stdout st ++ [Menu])
  | Some (inputBuffer, stdin1) =>
      let c := toupper (first_char inputBuffer) in
      let pre := stdout st ++ [Menu] in
      if Ascii.eqb c "I" then
        mkState (boats st) stdin1 c (pre ++ [Inventory (boats st); BlankLine])
      else if Ascii.eqb c "A" then
        match fgets 256 stdin1 with
        | None => mkState (boats st) stdin1 c (pre ++ [PromptCsv])
        | Some (inputBuffer2, stdin2) =>
            let '(bs, o) := addBoat (boats st) (chomp inputBuffer2) in
            mkState bs stdin2 c (pre ++ PromptCsv :: o)
        end
      else if Ascii.eqb c "R" then
        let '(bs, stdin2, o) := removeBoat (boats st) stdin1 in
        mkState bs stdin2 c (pre ++ o)
      else if Ascii.eqb c "P" then
        let '(bs, stdin2, o) := acceptPayment (boats st) stdin1 in
        mkState bs stdin2 c (pre ++ o)
      else if Ascii.eqb c "M" then
        let '(bs, o) := updateMonthlyCharges (boats st) in
        mkState bs stdin1 c (pre ++ o)
      else if Ascii.eqb c "X" then
        mkState (boats st) stdin1 c pre
      else
        mkState (boats st) stdin1 c (pre ++ [InvalidOption c])
  end.

(** The state after [n] turns of the loop (the loop stops at the first
    turn that leaves [choice = 'X']). *)
Fixpoint menu_loop (n : nat) (st : State) : State :=
  match n with
  | O => st
  | S n' =>
      let st' := menu_step st in
      if Ascii.eqb (choice st') "X" then st' else menu_loop n' st'
  end.

(** The state in which [main] enters its loop: [boats] is empty,
    [boatCount] is 0 and [choice] is not initialised ([choice0]). *)
Definition initial (file : option string) (input : string) (choice0 : ascii) : State :=
  let '(bs, o) := loadBoatData file [] in
  mkState bs input choice0 (o ++ [Welcome]).

(** A state the program can be in at the end of some turn of its loop. *)
Definition reachable (st : State) : Prop :=
  exists file input choice0 n, st = menu_loop n (initial file input choice0).

(** * Vocabulary of the properties

    The predicates the statements below are written with, and the sample
    data they are tried on. *)

(** ** Order and size of the store *)

(** [a] does not come after [b] in the order of [compareBoats]. *)
Definition name_le (a b : Boat) : Prop := compareBoats a b <= 0.

(** Sorted by case-insensitive name: every boat is in order with every
    later one. *)
Definition sorted_by_name (l : list Boat) : Prop := StronglySorted name_le l.

(** The invariant of the interactive loop. *)
Definition store_ok (bs : list Boat) : Prop :=
  sorted_by_name bs /\ (List.length bs <= MAX_BOATS)%nat.

(** No boat of [bs] has the name [nm], letter case ignored. *)
Definition no_match (nm : string) (bs : list Boat) : Prop :=
  Forall (fun b => strcasecmp (name b) nm <> 0) bs.

(** ** Lines, fields and tokens *)

(** The fields of a line: the pieces between its commas, empty ones
    included. *)
Fixpoint csv_fields (s : string) : list string :=
  match s with
  | EmptyString => [EmptyString]
  | String c s' =>
      if Ascii.eqb c COMMA then EmptyString :: csv_fields s'
      else match csv_fields s' with
           | f :: fs => String c f :: fs
           | [] => [String c EmptyString]
           end
  end.

Definition nonempty (f : string) : bool :=
  match f with
  | EmptyString => false
  | String _ _ => true
  end.

(** The non-empty fields of a line. *)
Definition tokens (s : string) : list string := filter nonempty (csv_fields s).

(** No comma and no NUL. *)
Fixpoint plain (s : string) : bool :=
  match s with
  | EmptyString => true
  | String c s' => negb (Ascii.eqb c COMMA) && negb (Ascii.eqb c NUL) && plain s'
  end.

(** A field [strtok_r] returns whole: not empty, no comma, no NUL. *)
Definition field_ok (s : string) : bool := nonempty s && plain s.

(** No NUL. *)
Fixpoint nonul (s : string) : bool :=
  match s with
  | EmptyString => true
  | String c s' => negb (Ascii.eqb c NUL) && nonul s'
  end.

(** Every character of [s] satisfies [p]. *)
Fixpoint all_chars (p : ascii -> bool) (s : string) : bool :=
  match s with
  | EmptyString => true
  | String c s' => p c && all_chars p s'
  end.

Definition digit_or_point (c : ascii) : bool := isdigit c || Ascii.eqb c ".".

(** ** Records and numbers *)

(** The values of the C type [int]. *)
Definition int_range (z : Z) : Prop := - 2 ^ 31 <= z < 2 ^ 31.

(** The location branch of [parseBoat] on the keyword token [kw] and the
    token [v] that follows it. *)
Definition location_of (cmp : string -> string -> Z) (kw v : string)
  : parsed LocationInfo :=
  if cmp kw "slip" =? 0 then inr (slipNumber (atoi v))
  else if cmp kw "land" =? 0 then
    match v with
    | EmptyString => inl BadFormat
    | String c _ => inr (bayLetter c)
    end
  else if cmp kw "trailor" =? 0 then inr (trailorTag (strncpy 9 v))
  else if cmp kw "storage" =? 0 then inr (storageSpace (atoi v))
  else inl BadLocationType.

(** The text [s] followed by a newline. *)
Definition line (s : string) : string := (s ++ String NL EmptyString)%string.

(** A line [fgets] reads in one piece and [chomp] leaves whole: no
    newline, no NUL, at most 254 characters. *)
Definition line_ok (l : string) : bool :=
  all_chars (fun c => negb (Ascii.eqb c NUL) && negb (Ascii.eqb c NL)) l &&
  (String.length l <? 255)%nat.

(** The file made of the lines [ls], each ended by a newline. *)
Fixpoint unlines (ls : list string) : string :=
  match ls with
  | [] => EmptyString
  | l :: ls' => (line l ++ unlines ls')%string
  end.

(** What [parseBoat] guarantees of the location value it stores. *)
Definition info_ok (i : LocationInfo) : Prop :=
  match i with
  | slipNumber n => int_range n
  | bayLetter c => field_ok (String c EmptyString) = true
  | trailorTag t => field_ok t = true /\ take 9 t = t
  | storageSpace n => int_range n
  end.

(** A record as [parseBoat] builds them from a line without NUL. *)
Definition wf_boat (b : Boat) : Prop :=
  field_ok (name b) = true /\ take 127 (name b) = name b /\ info_ok (locationInfo b).

(** [x] printed with [%.pf] and read back with [atof] into a [float] (a
    NaN is read back as a NaN whichever way it was printed). *)
Definition reprint (p : nat) (x : float) : float :=
  to_float (atof (fmt_f false p x)).

(** The record with its two [float] fields printed and read back. *)
Definition reread (b : Boat) : Boat :=
  {| name := name b;
     length := reprint 0 (length b);
     locationInfo := locationInfo b;
     amountOwed := reprint 2 (amountOwed b) |}.

(** The two [float] fields of the record are well-formed binary32
    values. *)
Definition valid_boat (b : Boat) : Prop :=
  valid_binary prec32 emax32 (length b) = true /\
  valid_binary prec32 emax32 (amountOwed b) = true.

(** [x] is +0 or -0. *)
Definition is_zero (x : spec_float) : bool :=
  match x with
  | S754_zero _ => true
  | _ => false
  end.




(** ** Vocabulary of the further properties *)

(** The string in lower case. *)
Fixpoint lowercase (s : string) : string :=
  match s with
  | EmptyString => EmptyString
  | String c s' => String (tolower c) (lowercase s')
  end.

(** The line parser read on the list of the tokens of a line. *)
Definition parse_tokens (cmp : string -> string -> Z) (ts : list string)
  : parsed Boat :=
  match ts with
  | t1 :: t2 :: t3 :: more =>
      if (cmp t3 "slip" =? 0) || (cmp t3 "land" =? 0) ||
         (cmp t3 "trailor" =? 0) || (cmp t3 "storage" =? 0)
      then
        match more with
        | t4 :: t5 :: _ =>
            match location_of cmp t3 t4 with
            | inl e => inl e
            | inr info =>
                inr {| name := strncpy (MAX_NAME_LENGTH - 1) t1;
                       length := to_float (atof t2);
                       locationInfo := info;
                       amountOwed := to_float (atof t5) |}
            end
        | _ => inl BadFormat
        end
      else inl BadLocationType
  | _ => inl BadFormat
  end.

(** The records of the lines [loadBoatData] accepts, in the order of the
    lines. *)
Fixpoint accepted (ls : list string) : list Boat :=
  match ls with
  | [] => []
  | l :: ls' =>
      match parseBoat strcmp l with
      | inr b => b :: accepted ls'
      | inl _ => accepted ls'
      end
  end.

(** A character that is none of NUL, newline and comma. *)
Definition okchar (c : ascii) : bool :=
  negb (Ascii.eqb c NUL) && negb (Ascii.eqb c NL) && negb (Ascii.eqb c COMMA).

(** A text field as the program stores it: not empty, at most [n]
    characters, none of them NUL, newline or comma. *)
Definition text_ok (n : nat) (s : string) : Prop :=
  nonempty s = true /\ all_chars okchar s = true /\ (String.length s <= n)%nat.

(** A record as the program stores it: the name fits [name[128]], the tag
    fits [trailorTag[10]], the numbers are values of [int] and of
    [float]. *)
Definition stored_ok (b : Boat) : Prop :=
  text_ok 127 (name b) /\
  match locationInfo b with
  | slipNumber n => int_range n
  | bayLetter c => okchar c = true
  | trailorTag t => text_ok 9 t
  | storageSpace n => int_range n
  end /\
  valid_boat b.

(** A character of a line as [chomp] leaves it: neither NUL nor newline. *)
Definition linechar (c : ascii) : bool :=
  negb (Ascii.eqb c NUL) && negb (Ascii.eqb c NL).

(** Every field of the record fits the column [displayInventory] prints
    it in. *)
Definition fits_columns (sg : NanSigns) (b : Boat) : Prop :=
  (String.length (name b) <= 20)%nat /\
  (String.length (fmt_f (lengthSign sg) 0 (length b)) <= 3)%nat /\
  match locationInfo b with
  | slipNumber n => (String.length (fmt_d n) <= 2)%nat
  | bayLetter _ => True
  | trailorTag t => (String.length t <= 6)%nat
  | storageSpace n => (String.length (fmt_d n) <= 2)%nat
  end /\
  (String.length (fmt_f (owedSign sg) 2 (amountOwed b)) <= 7)%nat.

(** ** Rounding, decimal constants and exact values *)

(** Where the remainder of [a / b] stands in its interval: the
    [location] the rounding functions of [SpecFloat] work with. *)
Definition loc_ratio (a b : Z) : location :=
  if a mod b =? 0 then loc_Exact else loc_Inexact (2 * (a mod b) ?= b).

(** [a / b] rounded to the nearest integer, ties to even. *)
Definition round_ratio (a b : Z) : Z :=
  round_nearest_even (a / b) (loc_ratio a b).

Definition ratio_rec (a b : Z) : shr_record :=
  shr_record_of_loc (a / b) (loc_ratio a b).

(** The last steps of [binary_round_aux]: the rounded mantissa is
    renormalised and the overflow test is made. *)
Definition normalize_rounded (prec emax : Z) (s : bool) (m e : Z) : spec_float :=
  let '(mrs, e') := shr_fexp prec emax m e loc_Exact in
  match shr_m mrs with
  | Z0 => S754_zero s
  | Zpos m' =>
      if e' <=? emax - prec then S754_finite s m' e' else S754_infinity s
  | Zneg _ => S754_nan
  end.

(** The fractional part of a decimal text: nothing, or a point and digits. *)
Definition frac (fp : string) : string :=
  match fp with
  | EmptyString => EmptyString
  | _ => String "." fp
  end.

Definition sign_text (s : bool) : string := if s then "-" else "".

Definition minus_sign (t : string) : bool * string :=
  match t with
  | String "-" r => (true, r)
  | _ => (false, t)
  end.

(** [t] is an optional minus sign, one or more digits and, when [k] is not
    zero, a point and exactly [k] digits. *)
Definition decimal_text (k : nat) (t : string) : bool :=
  let '(ip, r) := span isdigit (snd (minus_sign t)) in
  nonempty ip &&
  match r with
  | EmptyString => (k =? 0)%nat
  | String c fp =>
      Ascii.eqb c "." && nonempty fp && all_chars isdigit fp &&
      (String.length fp =? k)%nat
  end.

(** The [float] nearest to the double nearest to [(-1)^s * T / 10^p], that
    is what [atof] and the assignment to a [float] make of a decimal
    constant with [p] decimals. *)
Definition decimal_value (s : bool) (T : N) (p : nat) : float :=
  to_float (decimal_to_double s T (- Z.of_nat p)).

(** [x] is an infinity, a NaN or the value of a decimal constant with [p]
    decimals. *)
Definition has_decimals (p : nat) (x : float) : Prop :=
  match x with
  | S754_infinity _ | S754_nan => True
  | _ => exists s T, x = decimal_value s T p
  end.


(** ** Sample data *)

Definition alice : Boat :=
  {| name := "Alice"; length := float_of_Z 20; locationInfo := slipNumber 5;
     amountOwed := float_of_Z 100 |}.

Definition bob : Boat :=
  {| name := "Bob"; length := float_of_Z 15; locationInfo := bayLetter "B";
     amountOwed := float_of_Z 50 |}.

Definition sample_file : string :=
  (line "Bob,15,land,B,50.00" ++ line "Alice,20,slip,5,100.00")%string.

(** A boat whose balance, read from "1e39", is infinite. *)
Definition rich : Boat :=
  {| name := "Alice"; length := float_of_Z 20; locationInfo := slipNumber 5;
     amountOwed := S754_infinity false |}.

(** A boat whose balance is so large that the next [float] is 8 away. *)
Definition tanker : Boat :=
  {| name := "Tanker"; length := float_of_Z 90; locationInfo := storageSpace 1;
     amountOwed := float_of_Z 100000000 |}.

(** * Properties *)

(** ** The numeric conversions on examples *)

Example atof_tenth :
  atof "0.1" = S754_finite false 7205759403792794 (-56).
Proof. vm_compute. reflexivity. Qed.

Example atof_examples :
  to_float (atof "30") = float_of_Z 30 /\
  to_float (atof " -2.5e1xyz") = float_of_Z (-25) /\
  to_float (atof "0x1p4") = float_of_Z 16 /\
  to_float (atof "abc") = S754_zero false /\
  to_float (atof "1e39") = S754_infinity false /\
  to_float (atof "16777217") = float_of_Z 16777216.
Proof. vm_compute. repeat split. Qed.

Example fmt_examples :
  fmt_f false 2 (to_float (atof "100.999")) = "101.00" /\
  fmt_f false 0 (to_float (atof "20.5")) = "20" /\
  fmt_f false 0 (to_float (atof "21.5")) = "22" /\
  fmt_f false 2 (to_float (atof "0.1")) = "0.10" /\
  fmt_f false 2 (to_float (atof "-0.001")) = "-0.00" /\
  fmt_f false 2 (float_of_Z 1000) = "1000.00" /\
  fmt_f true 2 (to_float (atof "-nan")) = "-nan" /\
  fmt_f false 2 (to_float (atof "nan")) = "nan" /\
  fmt_d (atoi "-17") = "-17" /\
  atoi "4294967297" = 1 /\
  atoi "99999999999999999999" = -1.
Proof. vm_compute. repeat split. Qed.

(** ** The name order *)

Section NameOrder.

Lemma code_nonneg (c : ascii) : 0 <= code c.
Proof. unfold code. lia. Qed.

Lemma strcasecmp_antisym (a b : string) : strcasecmp b a = - strcasecmp a b.
Proof.
  revert b. induction a as [|x a IH]; destruct b as [|y b]; simpl; try lia.
  rewrite (Z.eqb_sym (code (tolower y))).
  destruct (Z.eqb_spec (code (tolower x)) (code (tolower y))) as [E|E].
  - rewrite <- E. destruct (code (tolower x) =? 0); [reflexivity | apply IH].
  - lia.
Qed.

Lemma strcasecmp_refl (a : string) : strcasecmp a a = 0.
Proof. pose proof (strcasecmp_antisym a a). lia. Qed.

Lemma strcasecmp_le_trans (a b c : string) :
  strcasecmp a b <= 0 -> strcasecmp b c <= 0 -> strcasecmp a c <= 0.
Proof.
  revert b c. induction a as [|x a IH]; destruct b as [|y b]; destruct c as [|z c];
    simpl; intros Hab Hbc;
    try (pose proof (code_nonneg (tolower x)));
    try (pose proof (code_nonneg (tolower y)));
    try (pose proof (code_nonneg (tolower z)));
    repeat match goal with
           | H : context [?u =? ?v] |- _ => destruct (Z.eqb_spec u v)
           | |- context [?u =? ?v] => destruct (Z.eqb_spec u v)
           end; try lia.
  eapply IH; eassumption.
Qed.

Lemma strcasecmp_eq_trans (a b c : string) :
  strcasecmp a b = 0 -> strcasecmp b c = 0 -> strcasecmp a c = 0.
Proof.
  intros Hab Hbc.
  assert (strcasecmp a c <= 0) by (apply (strcasecmp_le_trans a b c); lia).
  assert (strcasecmp c a <= 0).
  { apply (strcasecmp_le_trans c b a); rewrite strcasecmp_antisym; lia. }
  rewrite (strcasecmp_antisym a c) in *. lia.
Qed.

End NameOrder.

(** ** Sorting *)

Section Sorting.

Lemma name_le_trans (a b c : Boat) : name_le a b -> name_le b c -> name_le a c.
Proof. unfold name_le, compareBoats. apply strcasecmp_le_trans. Qed.

Lemma name_le_total (a b : Boat) : ~ name_le a b -> name_le b a.
Proof.
  unfold name_le, compareBoats. rewrite (strcasecmp_antisym (name a) (name b)). lia.
Qed.

Lemma insert_by_perm (x : Boat) (l : list Boat) :
  Permutation (x :: l) (insert_by compareBoats x l).
Proof.
  induction l as [|y l IH]; simpl; [reflexivity|].
  destruct (compareBoats x y <=? 0); [reflexivity|].
  rewrite perm_swap. now apply perm_skip.
Qed.

Lemma qsort_perm (l : list Boat) : Permutation l (qsort compareBoats l).
Proof.
  induction l as [|x l IH]; simpl; [constructor|].
  rewrite <- insert_by_perm. now apply perm_skip.
Qed.

Lemma qsort_length (l : list Boat) :
  List.length (qsort compareBoats l) = List.length l.
Proof. symmetry. apply Permutation_length, qsort_perm. Qed.

Lemma insert_by_sorted (x : Boat) (l : list Boat) :
  sorted_by_name l -> sorted_by_name (insert_by compareBoats x l).
Proof.
  unfold sorted_by_name.
  induction l as [|y l IH]; simpl; intros Hs.
  - repeat constructor.
  - destruct (Z.leb_spec (compareBoats x y) 0) as [Hle|Hgt].
    + constructor; [assumption|].
      inversion Hs as [|? ? _ Hall]; subst.
      constructor; [exact Hle|].
      eapply Forall_impl; [|exact Hall].
      intros z Hz. eapply name_le_trans; [exact Hle | exact Hz].
    + inversion Hs as [|? ? Hs' Hall]; subst.
      constructor; [now apply IH|].
      eapply Permutation_Forall; [apply insert_by_perm|].
      constructor; [|assumption].
      apply name_le_total. unfold name_le. lia.
Qed.

Lemma qsort_sorted (l : list Boat) : sorted_by_name (qsort compareBoats l).
Proof.
  induction l as [|x l IH]; simpl; [constructor | now apply insert_by_sorted].
Qed.

Lemma remove_at_sorted (i : nat) (l : list Boat) :
  sorted_by_name l -> sorted_by_name (remove_at i l).
Proof.
  unfold sorted_by_name. revert i.
  induction l as [|x l IH]; intros i Hs; destruct i; simpl; try constructor;
    inversion Hs as [|? ? Hs' Hall]; subst; auto.
  clear - Hall. revert i. induction l as [|y l IHl]; intros i; destruct i; simpl;
    try constructor; inversion Hall; subst; auto.
Qed.

Lemma update_at_names (i : nat) (f : Boat -> Boat) (l : list Boat) :
  (forall b, name (f b) = name b) ->
  map name (update_at i f l) = map name l.
Proof.
  intros Hf. revert i. induction l as [|x l IH]; intros i; destruct i; simpl;
    try reflexivity; try (now rewrite Hf); now rewrite IH.
Qed.

Lemma sorted_by_name_names (l l' : list Boat) :
  map name l' = map name l -> sorted_by_name l -> sorted_by_name l'.
Proof.
  unfold sorted_by_name. revert l'.
  induction l as [|x l IH]; intros [|x' l'] Hm Hs; simpl in Hm; try discriminate;
    [constructor|].
  injection Hm as Hx Hl. inversion Hs as [|? ? Hs' Hall]; subst.
  constructor; [now apply IH|].
  clear - Hall Hx Hl. revert l' Hl.
  induction l as [|y l IHl]; intros [|y' l'] Hl; simpl in Hl; try discriminate;
    constructor; injection Hl as Hy Hl; inversion Hall; subst.
  - unfold name_le, compareBoats in *. now rewrite Hx, Hy.
  - now apply IHl.
Qed.

End Sorting.

(** ** What each operation does to the collection *)

Section Operations.

Lemma load_loop_length (fuel : nat) (file : string) (bs : list Boat) :
  (List.length bs <= MAX_BOATS)%nat ->
  (List.length (load_loop fuel file bs) <= MAX_BOATS)%nat.
Proof.
  revert file bs. induction fuel as [|fuel IH]; intros file bs Hb; simpl; [exact Hb|].
  destruct (fgets 256 file) as [[buffer file']|]; [|exact Hb].
  destruct (Nat.ltb_spec (List.length bs) MAX_BOATS) as [Hlt|Hge]; [|exact Hb].
  destruct (parseBoat strcmp (chomp buffer)) as [e|b]; apply IH; [exact Hb|].
  rewrite length_app. simpl. lia.
Qed.

Lemma loadBoatData_length (file : option string) (bs : list Boat) :
  (List.length bs <= MAX_BOATS)%nat ->
  (List.length (fst (loadBoatData file bs)) <= MAX_BOATS)%nat.
Proof.
  intros Hb. destruct file as [content|]; simpl; [|exact Hb].
  rewrite qsort_length. apply load_loop_length. unfold MAX_BOATS. simpl. lia.
Qed.

Lemma loadBoatData_sorted (content : string) (bs : list Boat) :
  sorted_by_name (fst (loadBoatData (Some content) bs)).
Proof. simpl. apply qsort_sorted. Qed.

(** [addBoat] either leaves the array alone and prints an error, or
    appends the parsed boat and sorts. *)
Lemma addBoat_cases (bs : list Boat) (data : string) :
  (exists o, o <> [] /\ addBoat bs data = (bs, o)) \/
  (exists b, (List.length bs < MAX_BOATS)%nat /\
             parseBoat strcasecmp (strncpy 255 data) = inr b /\
             addBoat bs data = (qsort compareBoats (bs ++ [b]), [])).
Proof.
  unfold addBoat.
  destruct (Nat.leb_spec MAX_BOATS (List.length bs)) as [Hge|Hlt].
  - left. eexists. split; [|reflexivity]. discriminate.
  - destruct (parseBoat strcasecmp (strncpy 255 data)) as [[|]|b].
    + left. eexists. split; [|reflexivity]. discriminate.
    + left. eexists. split; [|reflexivity]. discriminate.
    + right. exists b. auto.
Qed.

Lemma addBoat_sorted (bs : list Boat) (data : string) :
  sorted_by_name bs -> sorted_by_name (fst (addBoat bs data)).
Proof.
  intros Hs. destruct (addBoat_cases bs data) as [(o & _ & E)|(b & _ & _ & E)];
    rewrite E; simpl; [exact Hs | apply qsort_sorted].
Qed.

Lemma addBoat_length (bs : list Boat) (data : string) :
  (List.length bs <= MAX_BOATS)%nat ->
  (List.length (fst (addBoat bs data)) <= MAX_BOATS)%nat.
Proof.
  intros Hb. destruct (addBoat_cases bs data) as [(o & _ & E)|(b & Hlt & _ & E)];
    rewrite E; simpl; [exact Hb|].
  rewrite qsort_length, length_app. simpl. lia.
Qed.

Lemma remove_at_length {A} (i : nat) (l : list A) :
  (List.length (remove_at i l) <= List.length l)%nat.
Proof.
  revert i. induction l as [|x l IH]; intros [|i]; simpl; try lia.
  specialize (IH i). lia.
Qed.

Lemma update_at_length {A} (i : nat) (f : A -> A) (l : list A) :
  List.length (update_at i f l) = List.length l.
Proof.
  revert i. induction l as [|x l IH]; intros [|i]; simpl; try reflexivity.
  now rewrite IH.
Qed.

(** [removeBoat] leaves the array alone or deletes one slot. *)
Lemma removeBoat_cases (bs : list Boat) (input : string) :
  fst (fst (removeBoat bs input)) = bs \/
  exists i, fst (fst (removeBoat bs input)) = remove_at i bs.
Proof.
  unfold removeBoat. destruct (fgets MAX_NAME_LENGTH input) as [[buffer rest]|];
    [|now left].
  destruct (findBoatByName bs (chomp buffer)) as [i|]; [right; now exists i | now left].
Qed.

(** [acceptPayment] leaves the array alone or rewrites one balance. *)
Lemma acceptPayment_cases (bs : list Boat) (input : string) :
  fst (fst (acceptPayment bs input)) = bs \/
  exists i v, fst (fst (acceptPayment bs input)) =
              update_at i (fun b => setAmountOwed (fsub (amountOwed b) v) b) bs.
Proof.
  unfold acceptPayment. destruct (fgets MAX_NAME_LENGTH input) as [[nb s1]|];
    [|now left].
  destruct (findBoatByName bs (chomp nb)) as [i|]; [|now left].
  destruct (fgets 50 s1) as [[buffer s2]|]; [|now left].
  destruct (nth_error bs i) as [boat|]; [|now left].
  destruct (fgt _ _); [now left|]. right. eexists. eexists. reflexivity.
Qed.

Lemma updateMonthlyCharges_names (bs : list Boat) :
  map name (fst (updateMonthlyCharges bs)) = map name bs.
Proof. simpl. rewrite map_map. reflexivity. Qed.

Lemma removeBoat_ok (bs : list Boat) (input : string) :
  store_ok bs -> store_ok (fst (fst (removeBoat bs input))).
Proof.
  intros [Hs Hl]. destruct (removeBoat_cases bs input) as [E|[i E]]; rewrite E.
  - now split.
  - split; [now apply remove_at_sorted|].
    pose proof (remove_at_length i bs). lia.
Qed.

Lemma acceptPayment_ok (bs : list Boat) (input : string) :
  store_ok bs -> store_ok (fst (fst (acceptPayment bs input))).
Proof.
  intros [Hs Hl]. destruct (acceptPayment_cases bs input) as [E|(i & v & E)]; rewrite E.
  - now split.
  - split; [|now rewrite update_at_length].
    eapply sorted_by_name_names; [|exact Hs]. now apply update_at_names.
Qed.

Lemma updateMonthlyCharges_ok (bs : list Boat) :
  store_ok bs -> store_ok (fst (updateMonthlyCharges bs)).
Proof.
  intros [Hs Hl]. split.
  - eapply sorted_by_name_names; [apply updateMonthlyCharges_names | exact Hs].
  - simpl. now rewrite length_map.
Qed.

Lemma addBoat_ok (bs : list Boat) (data : string) :
  store_ok bs -> store_ok (fst (addBoat bs data)).
Proof. intros [Hs Hl]. split; [now apply addBoat_sorted | now apply addBoat_length]. Qed.

Lemma menu_step_ok (st : State) : store_ok (boats st) -> store_ok (boats (menu_step st)).
Proof.
  intros Hok. unfold menu_step.
  destruct (fgets 256 (stdin st)) as [[inputBuffer stdin1]|]; [|exact Hok].
  set (c := toupper (first_char inputBuffer)).
  destruct (Ascii.eqb c "I"); [exact Hok|].
  destruct (Ascii.eqb c "A").
  { destruct (fgets 256 stdin1) as [[b2 stdin2]|]; [|exact Hok].
    pose proof (addBoat_ok (boats st) (chomp b2) Hok) as H.
    destruct (addBoat (boats st) (chomp b2)) as [bs o]. exact H. }
  destruct (Ascii.eqb c "R").
  { pose proof (removeBoat_ok (boats st) stdin1 Hok) as H.
    destruct (removeBoat (boats st) stdin1) as [[bs s2] o]. exact H. }
  destruct (Ascii.eqb c "P").
  { pose proof (acceptPayment_ok (boats st) stdin1 Hok) as H.
    destruct (acceptPayment (boats st) stdin1) as [[bs s2] o]. exact H. }
  destruct (Ascii.eqb c "M").
  { pose proof (updateMonthlyCharges_ok (boats st) Hok) as H.
    destruct (updateMonthlyCharges (boats st)) as [bs o]. exact H. }
  destruct (Ascii.eqb c "X"); exact Hok.
Qed.

Lemma menu_loop_ok (n : nat) (st : State) :
  store_ok (boats st) -> store_ok (boats (menu_loop n st)).
Proof.
  revert st. induction n as [|n IH]; intros st Hok; simpl; [exact Hok|].
  pose proof (menu_step_ok st Hok) as Hstep.
  destruct (Ascii.eqb (choice (menu_step st)) "X"); [exact Hstep | now apply IH].
Qed.

Lemma initial_ok (file : option string) (input : string) (c0 : ascii) :
  store_ok (boats (initial file input c0)).
Proof.
  unfold initial. destruct file as [content|]; simpl.
  - split; [apply qsort_sorted|].
    rewrite qsort_length. apply load_loop_length. unfold MAX_BOATS. simpl. lia.
  - split; [constructor | unfold MAX_BOATS; simpl; lia].
Qed.

Lemma reachable_ok (st : State) : reachable st -> store_ok (boats st).
Proof.
  intros (file & input & c0 & n & ->). apply menu_loop_ok, initial_ok.
Qed.

End Operations.

(** ** Fields and tokens of a line *)

Section Tokens.

Lemma tokens_skip_commas (s : string) : tokens (skip_commas s) = tokens s.
Proof.
  induction s as [|c s IH]; simpl; [reflexivity|].
  destruct (Ascii.eqb c COMMA) eqn:E; [|reflexivity].
  rewrite IH. unfold tokens. cbn [csv_fields]. rewrite E. reflexivity.
Qed.

Lemma span_token_fields (s : string) :
  exists fs, csv_fields s = fst (span_token s) :: fs /\
             filter nonempty fs = tokens (snd (span_token s)).
Proof.
  induction s as [|c s (fs & E1 & E2)]; simpl.
  - exists []. split; reflexivity.
  - destruct (Ascii.eqb c COMMA); simpl.
    + exists (csv_fields s). split; reflexivity.
    + destruct (span_token s) as [t r]. simpl in *. rewrite E1.
      exists fs. split; [reflexivity | exact E2].
Qed.

Lemma skip_commas_head (s : string) (c : ascii) (s' : string) :
  skip_commas s = String c s' -> Ascii.eqb c COMMA = false.
Proof.
  induction s as [|x s IH]; simpl; [discriminate|].
  destruct (Ascii.eqb x COMMA) eqn:E; [exact IH|]. intros [= <- <-]. exact E.
Qed.

Lemma strtok_r_tokens (s : string) :
  match strtok_r s with
  | None => tokens s = []
  | Some (t, r) => tokens s = t :: tokens r
  end.
Proof.
  unfold strtok_r. rewrite <- (tokens_skip_commas s).
  destruct (skip_commas s) as [|c s1] eqn:E; [reflexivity|].
  apply skip_commas_head in E.
  destruct (span_token_fields (String c s1)) as (fs & E1 & E2).
  destruct (span_token (String c s1)) as [t r] eqn:Es.
  cbn [fst snd] in E1, E2.
  unfold tokens at 1. rewrite E1. cbn [filter].
  cbn [span_token] in Es. rewrite E in Es. destruct (span_token s1) as [t' r'].
  injection Es as <- <-. cbn [nonempty]. now rewrite E2.
Qed.

Lemma plain_cstring (s : string) : plain s = true -> cstring s = s.
Proof.
  induction s as [|c s IH]; simpl; [reflexivity|].
  intros H. apply andb_prop in H as [H Hs]. apply andb_prop in H as [_ Hn].
  apply negb_true_iff in Hn. rewrite Hn. now rewrite IH.
Qed.

Lemma plain_take (n : nat) (s : string) : plain s = true -> plain (take n s) = true.
Proof.
  revert s. induction n as [|n IH]; intros [|c s]; simpl; try reflexivity.
  intros H. apply andb_prop in H as [H Hs]. rewrite H. now apply IH.
Qed.

Lemma field_ok_take (n : nat) (s : string) :
  field_ok s = true -> field_ok (take (S n) s) = true.
Proof.
  unfold field_ok. destruct s as [|c s]; [discriminate|].
  intros H. apply andb_prop in H as [_ H].
  change (take (S n) (String c s)) with (String c (take n s)).
  simpl in *. apply andb_prop in H as [H Hs]. rewrite H. now apply plain_take.
Qed.

Lemma take_take (n : nat) (s : string) : take n (take n s) = take n s.
Proof.
  revert s. induction n as [|n IH]; intros [|c s]; simpl; try reflexivity.
  now rewrite IH.
Qed.

Lemma span_token_plain (f rest : string) :
  plain f = true ->
  span_token f = (f, EmptyString) /\
  span_token (f ++ String COMMA rest) = (f, rest).
Proof.
  induction f as [|c f IH]; simpl; intros H; [split; reflexivity|].
  apply andb_prop in H as [H Hs]. apply andb_prop in H as [Hc _].
  apply negb_true_iff in Hc. rewrite Hc.
  destruct (IH Hs) as [E1 E2]. rewrite E1, E2. split; reflexivity.
Qed.

(** A good field at the front of a line is the next token. *)
Lemma strtok_r_field (f rest : string) :
  field_ok f = true ->
  strtok_r f = Some (f, EmptyString) /\
  strtok_r (f ++ String COMMA rest) = Some (f, rest).
Proof.
  unfold field_ok. destruct f as [|c f]; [discriminate|]. simpl nonempty.
  intros H. simpl in H.
  destruct (span_token_plain (String c f) rest H) as [E1 E2].
  apply andb_prop in H as [H _]. apply andb_prop in H as [Hc _].
  apply negb_true_iff in Hc.
  unfold strtok_r. simpl skip_commas. rewrite Hc.
  rewrite E1. simpl append in *. rewrite E2. split; reflexivity.
Qed.

Lemma span_token_nonul (s : string) :
  nonul s = true ->
  plain (fst (span_token s)) = true /\ nonul (snd (span_token s)) = true.
Proof.
  induction s as [|c s IH]; simpl; intros H; [split; reflexivity|].
  apply andb_prop in H as [Hn Hs].
  destruct (Ascii.eqb c COMMA) eqn:E; simpl; [split; [reflexivity | exact Hs]|].
  destruct (IH Hs) as [H1 H2]. destruct (span_token s) as [t r]. simpl in *.
  rewrite E, Hn, H1. split; [reflexivity | exact H2].
Qed.

Lemma skip_commas_nonul (s : string) : nonul s = true -> nonul (skip_commas s) = true.
Proof.
  induction s as [|c s IH]; simpl; [reflexivity|]. intros H.
  destruct (Ascii.eqb c COMMA); [|exact H].
  apply andb_prop in H as [_ H]. now apply IH.
Qed.

(** Every token of a NUL-free line is a good field. *)
Lemma strtok_r_nonul (s t r : string) :
  nonul s = true -> strtok_r s = Some (t, r) ->
  field_ok t = true /\ nonul r = true.
Proof.
  intros Hs. unfold strtok_r. apply skip_commas_nonul in Hs.
  destruct (skip_commas s) as [|c s1] eqn:E; [discriminate|].
  apply skip_commas_head in E.
  destruct (span_token_nonul _ Hs) as [H1 H2].
  destruct (span_token (String c s1)) as [t0 r0] eqn:Es.
  intros [= <- <-]. cbn [fst snd] in H1, H2. split; [|exact H2].
  unfold field_ok. rewrite H1. cbn [span_token] in Es. rewrite E in Es.
  destruct (span_token s1). injection Es as <- _. reflexivity.
Qed.

Lemma chomp_nonul (buffer : string) : nonul (chomp buffer) = true.
Proof.
  induction buffer as [|c s IH]; simpl; [reflexivity|].
  destruct (Ascii.eqb c NUL) eqn:E; simpl; [reflexivity|].
  destruct (Ascii.eqb c NL); simpl; [reflexivity|]. now rewrite E.
Qed.

End Tokens.

(** ** The numeric conversions *)

Section Numbers.

Lemma all_chars_app (p : ascii -> bool) (a b : string) :
  all_chars p (a ++ b) = all_chars p a && all_chars p b.
Proof.
  induction a as [|c a IH]; simpl; [reflexivity|]. now rewrite IH, andb_assoc.
Qed.

Lemma all_chars_take (p : ascii -> bool) (n : nat) (s : string) :
  all_chars p s = true -> all_chars p (take n s) = true.
Proof.
  revert s. induction n as [|n IH]; intros [|c s]; simpl; try reflexivity.
  intros H. apply andb_prop in H as [H Hs]. rewrite H. now apply IH.
Qed.

Lemma all_chars_drop (p : ascii -> bool) (n : nat) (s : string) :
  all_chars p s = true -> all_chars p (drop n s) = true.
Proof.
  revert s. induction n as [|n IH]; intros [|c s]; simpl; try reflexivity;
    try (intros H; exact H).
  intros H. apply andb_prop in H as [H Hs]. now apply IH.
Qed.

Lemma all_chars_impl (p q : ascii -> bool) (s : string) :
  (forall c, p c = true -> q c = true) ->
  all_chars p s = true -> all_chars q s = true.
Proof.
  intros Hpq. induction s as [|c s IH]; simpl; [reflexivity|].
  intros H. apply andb_prop in H as [H Hs]. now rewrite (Hpq c H), IH.
Qed.

Lemma all_chars_zeros (k : nat) : all_chars isdigit (zeros k) = true.
Proof. induction k as [|k IH]; simpl; [reflexivity | exact IH]. Qed.

Lemma all_chars_plain (s : string) :
  all_chars (fun c => negb (Ascii.eqb c COMMA) && negb (Ascii.eqb c NUL)) s = plain s.
Proof. induction s as [|c s IH]; simpl; [reflexivity | now rewrite IH]. Qed.

Lemma plain_app (a b : string) : plain (a ++ b) = plain a && plain b.
Proof. rewrite <- !all_chars_plain. apply all_chars_app. Qed.

Lemma digit_or_point_plain (c : ascii) :
  digit_or_point c = true ->
  negb (Ascii.eqb c COMMA) && negb (Ascii.eqb c NUL) = true.
Proof. destruct c as [[] [] [] [] [] [] [] []]; vm_compute; congruence. Qed.

Lemma isdigit_facts (c : ascii) :
  isdigit c = true ->
  isspace c = false /\ parse_sign (String c EmptyString) = (false, String c EmptyString).
Proof.
  destruct c as [[] [] [] [] [] [] [] []]; vm_compute; intros H;
    try discriminate; split; reflexivity.
Qed.

Lemma string_of_uint_digits (d : uint) :
  all_chars isdigit (NilEmpty.string_of_uint d) = true.
Proof. induction d; simpl; try reflexivity; exact IHd. Qed.

Lemma N_to_string_digits (n : N) : all_chars isdigit (N_to_string n) = true.
Proof.
  unfold N_to_string, NilZero.string_of_uint.
  destruct (N.to_uint n); try reflexivity; apply string_of_uint_digits.
Qed.

Lemma N_to_string_nonempty (n : N) : nonempty (N_to_string n) = true.
Proof.
  unfold N_to_string, NilZero.string_of_uint.
  destruct (N.to_uint n); reflexivity.
Qed.

Lemma digits_val_string_of_uint (d : uint) (acc : N) :
  digits_val acc (NilEmpty.string_of_uint d) =
  (DecimalPos.Unsigned.of_lu (rev d) + acc * 10 ^ DecimalPos.Unsigned.usize d)%N.
Proof.
  revert acc.
  induction d; intros acc;
    [ simpl; lia | .. ];
    unfold rev; cbn [revapp];
    rewrite DecimalPos.Unsigned.of_lu_revapp; fold (rev d);
    cbn [NilEmpty.string_of_uint digits_val];
    match goal with
    | |- context [isdigit ?c] => change (isdigit c) with true; cbv iota
    end;
    rewrite IHd;
    cbn [DecimalPos.Unsigned.usize DecimalPos.Unsigned.of_lu];
    rewrite N.pow_succ_r';
    match goal with
    | |- context [digit_val ?c] =>
        let v := eval vm_compute in (digit_val c) in change (digit_val c) with v
    end; ring.
Qed.

Lemma digits_val_N_to_string (n : N) : digits_val 0 (N_to_string n) = n.
Proof.
  unfold N_to_string, NilZero.string_of_uint.
  rewrite <- (DecimalN.Unsigned.of_to n) at 2.
  unfold N.of_uint. rewrite DecimalPos.Unsigned.of_uint_alt.
  destruct (N.to_uint n) eqn:E; try reflexivity;
    rewrite digits_val_string_of_uint; lia.
Qed.

End Numbers.

Section NumberFields.

Lemma int_wrap_range (z : Z) : int_range (int_wrap z).
Proof.
  unfold int_range, int_wrap.
  pose proof (Z.mod_pos_bound (z + 2 ^ 31) (2 ^ 32) ltac:(lia)). lia.
Qed.

Lemma atoi_range (s : string) : int_range (atoi s).
Proof. apply int_wrap_range. Qed.

Lemma int_wrap_small (z : Z) : int_range z -> int_wrap z = z.
Proof.
  unfold int_range, int_wrap. intros H.
  rewrite Z.mod_small by lia. lia.
Qed.

Lemma strtol_digits (s : string) :
  nonempty s = true -> all_chars isdigit s = true ->
  strtol s = Z.min (2 ^ 63 - 1) (Z.of_N (digits_val 0 s)) /\
  strtol (String "-" s) = Z.max (- 2 ^ 63) (- Z.of_N (digits_val 0 s)).
Proof.
  destruct s as [|c s]; [discriminate|]. intros _ H. simpl in H.
  apply andb_prop in H as [Hc _].
  destruct (isdigit_facts c Hc) as [Hsp Hsg].
  unfold strtol. split.
  - cbn [skip_space]. rewrite Hsp.
    assert (E : parse_sign (String c s) = (false, String c s)).
    { revert Hsg. unfold parse_sign.
      destruct c as [[] [] [] [] [] [] [] []]; try reflexivity; discriminate. }
    rewrite E. reflexivity.
  - reflexivity.
Qed.

(** [%d] followed by [atoi] gives the [int] back. *)
Lemma atoi_fmt_d (n : Z) : int_range n -> atoi (fmt_d n) = n.
Proof.
  unfold int_range. intros Hn. unfold atoi, fmt_d.
  destruct (Z.ltb_spec n 0) as [Hneg|Hpos].
  - destruct (strtol_digits (N_to_string (Z.to_N (- n)))
                (N_to_string_nonempty _) (N_to_string_digits _)) as [_ E].
    rewrite E, digits_val_N_to_string, Z2N.id by lia.
    rewrite Z.max_r by lia. rewrite Z.opp_involutive.
    apply int_wrap_small. unfold int_range. lia.
  - destruct (strtol_digits (N_to_string (Z.to_N n))
                (N_to_string_nonempty _) (N_to_string_digits _)) as [E _].
    rewrite E, digits_val_N_to_string, Z2N.id by lia.
    rewrite Z.min_r by lia. apply int_wrap_small. unfold int_range. lia.
Qed.

Lemma digits_plain (s : string) : all_chars digit_or_point s = true -> plain s = true.
Proof.
  intros H. rewrite <- all_chars_plain.
  eapply all_chars_impl; [apply digit_or_point_plain | exact H].
Qed.

Lemma isdigit_digit_or_point (c : ascii) : isdigit c = true -> digit_or_point c = true.
Proof. unfold digit_or_point. intros ->. reflexivity. Qed.

Lemma N_to_string_field (n : N) : field_ok (N_to_string n) = true.
Proof.
  unfold field_ok. rewrite N_to_string_nonempty. apply digits_plain.
  eapply all_chars_impl; [apply isdigit_digit_or_point | apply N_to_string_digits].
Qed.

Lemma field_ok_minus (s : string) : field_ok s = true -> field_ok (String "-" s) = true.
Proof. unfold field_ok. intros H. apply andb_prop in H as [_ H]. simpl. exact H. Qed.

Lemma field_ok_fmt_d (n : Z) : field_ok (fmt_d n) = true.
Proof.
  unfold fmt_d. destruct (n <? 0); [apply field_ok_minus|]; apply N_to_string_field.
Qed.

Lemma nonempty_app_l (a b : string) : nonempty a = true -> nonempty (a ++ b) = true.
Proof. destruct a; [discriminate | reflexivity]. Qed.

Lemma fixed_digits_field (n : N) (p : nat) : field_ok (fixed_digits n p) = true.
Proof.
  unfold fixed_digits.
  set (ds := N_to_string n).
  set (ds' := (zeros (S p - String.length ds) ++ ds)%string).
  assert (Hd : all_chars digit_or_point ds' = true).
  { unfold ds'. rewrite all_chars_app. apply andb_true_intro. split;
      (eapply all_chars_impl; [apply isdigit_digit_or_point|]);
      [apply all_chars_zeros | apply N_to_string_digits]. }
  assert (Hn : nonempty ds' = true).
  { unfold ds'. destruct (zeros _); [apply N_to_string_nonempty | reflexivity]. }
  unfold field_ok. destruct p as [|p].
  - rewrite Hn. now apply digits_plain.
  - apply andb_true_intro. split.
    + destruct (take _ ds'); reflexivity.
    + rewrite plain_app. apply andb_true_intro. split.
      * apply digits_plain. now apply all_chars_take.
      * simpl. apply digits_plain. now apply all_chars_drop.
Qed.

(** What [%.pf] prints is never empty and has no comma. *)
Lemma field_ok_fmt_f (sg : bool) (p : nat) (x : spec_float) :
  field_ok (fmt_f sg p x) = true.
Proof.
  destruct x as [s|s| |s m e]; simpl; try (now destruct sg);
    destruct s; simpl; try reflexivity;
    try apply field_ok_minus; apply fixed_digits_field.
Qed.

End NumberFields.

(** ** Rounding to [float]

    [SpecFloat] gives the operations; the two facts needed of them are
    proved here: what [binary_round] returns is a well-formed binary32
    value, and subtracting a negative value from a non-negative one does
    not go below it. *)

Section Float32.

Local Notation "'bits' m" := (Z.pos (digits2_pos m))
  (at level 9, m at level 9, only parsing).

Lemma digits2_bounds (m : positive) : 2 ^ (bits m - 1) <= Z.pos m < 2 ^ bits m.
Proof.
  induction m as [m IH|m IH|]; cbn [digits2_pos].
  - rewrite Pos2Z.inj_succ, Pos2Z.inj_xI.
    replace (Z.succ (bits m) - 1) with (Z.succ (bits m - 1)) by lia.
    rewrite !Z.pow_succ_r by lia.
    revert IH. generalize (2 ^ (bits m - 1)) (2 ^ bits m). intros; lia.
  - rewrite Pos2Z.inj_succ. change (Z.pos m~0) with (2 * Z.pos m).
    replace (Z.succ (bits m) - 1) with (Z.succ (bits m - 1)) by lia.
    rewrite !Z.pow_succ_r by lia.
    revert IH. generalize (2 ^ (bits m - 1)) (2 ^ bits m). intros; lia.
  - simpl. lia.
Qed.

Lemma digits2_le (m k : positive) : Z.pos m <= Z.pos k -> bits m <= bits k.
Proof.
  intros H. pose proof (digits2_bounds m) as [Hm _].
  pose proof (digits2_bounds k) as [_ Hk].
  assert (2 ^ (bits m - 1) < 2 ^ bits k) by lia.
  apply Z.pow_lt_mono_r_iff in H0; lia.
Qed.

Lemma digits2_ge_pow (m : positive) (k : Z) :
  0 <= k -> 2 ^ k <= Z.pos m -> k < bits m.
Proof.
  intros Hk H. pose proof (digits2_bounds m) as [_ Hm].
  assert (2 ^ k < 2 ^ bits m) by lia.
  apply Z.pow_lt_mono_r_iff in H0; lia.
Qed.

Lemma iter_xO (m d : positive) : Z.pos (Pos.iter xO m d) = Z.pos m * 2 ^ Z.pos d.
Proof.
  induction d as [|d IH] using Pos.peano_ind.
  - simpl. lia.
  - rewrite Pos.iter_succ.
    change (Z.pos (Pos.iter xO m d)~0) with (2 * Z.pos (Pos.iter xO m d)).
    rewrite IH, Pos2Z.inj_succ, Z.pow_succ_r by lia. lia.
Qed.

Lemma shl_align_value (m : positive) (e e' : Z) :
  e' <= e -> Z.pos (fst (shl_align m e e')) = Z.pos m * 2 ^ (e - e').
Proof.
  intros H. unfold shl_align.
  destruct (e' - e) as [|d|d] eqn:E; cbn [fst]; try lia.
  - replace (e - e') with 0 by lia. lia.
  - rewrite iter_xO. f_equal. f_equal. lia.
Qed.

Lemma shr_1_m (mrs : shr_record) :
  0 <= shr_m mrs -> shr_m (shr_1 mrs) = shr_m mrs / 2.
Proof.
  destruct mrs as [m r s]. cbn [shr_m shr_1]. intros H.
  destruct m as [|[p|p|]|p]; cbn [shr_m]; try lia.
  - reflexivity.
  - change (Z.pos p~1) with (2 * Z.pos p + 1).
    apply Z.div_unique with 1; lia.
  - change (Z.pos p~0) with (2 * Z.pos p).
    apply Z.div_unique with 0; lia.
  - reflexivity.
Qed.

Lemma iter_shr_1_m (p : positive) (mrs : shr_record) :
  0 <= shr_m mrs ->
  shr_m (iter_pos shr_1 p mrs) = shr_m mrs / 2 ^ Z.pos p.
Proof.
  revert mrs. induction p as [p IH|p IH|]; intros mrs H; cbn [iter_pos].
  - assert (H1 : 0 <= shr_m (shr_1 mrs)).
    { rewrite shr_1_m by exact H. apply Z.div_pos; lia. }
    assert (H2 : 0 <= shr_m (iter_pos shr_1 p (shr_1 mrs))).
    { rewrite IH by exact H1. apply Z.div_pos; lia. }
    rewrite IH by exact H2. rewrite IH by exact H1. rewrite shr_1_m by exact H.
    rewrite !Z.div_div by lia. f_equal.
    change (Z.pos p~1) with (2 * Z.pos p + 1).
    rewrite <- (Z.pow_1_r 2) at 1. rewrite <- !Z.pow_add_r by lia. f_equal. lia.
  - assert (H2 : 0 <= shr_m (iter_pos shr_1 p mrs)).
    { rewrite IH by exact H. apply Z.div_pos; lia. }
    rewrite IH by exact H2. rewrite IH by exact H.
    rewrite !Z.div_div by lia. f_equal.
    change (Z.pos p~0) with (2 * Z.pos p).
    rewrite <- Z.pow_add_r by lia. f_equal. lia.
  - rewrite shr_1_m by exact H. reflexivity.
Qed.

Lemma shr_fexp_pos (m : positive) (e : Z) (l : location) :
  let n := Z.max 0 (fexp prec32 emax32 (bits m + e) - e) in
  snd (shr_fexp prec32 emax32 (Z.pos m) e l) = e + n /\
  shr_m (fst (shr_fexp prec32 emax32 (Z.pos m) e l)) = Z.pos m / 2 ^ n.
Proof.
  unfold shr_fexp, shr. cbn [Zdigits2].
  assert (Hm : shr_m (shr_record_of_loc (Z.pos m) l) = Z.pos m).
  { destruct l as [|[]]; reflexivity. }
  destruct (fexp prec32 emax32 (bits m + e) - e) as [|p|p] eqn:E; cbn [fst snd].
  - rewrite Hm. simpl. rewrite Z.div_1_r. split; lia.
  - rewrite iter_shr_1_m by (rewrite Hm; lia). rewrite Hm.
    rewrite Z.max_r by lia. split; reflexivity.
  - rewrite Hm. rewrite Z.max_l by lia. simpl. rewrite Z.div_1_r. split; lia.
Qed.

Lemma round_nearest_even_ge (m : Z) (l : location) : m <= round_nearest_even m l.
Proof.
  destruct l as [|[]]; cbn [round_nearest_even]; try lia.
  destruct (Z.even m); lia.
Qed.


Lemma fexp_mono (a b : Z) : a <= b -> fexp prec32 emax32 a <= fexp prec32 emax32 b.
Proof. unfold fexp, emin, prec32, emax32. lia. Qed.

Lemma fexp_ge_emin (a : Z) : -149 <= fexp prec32 emax32 a.
Proof. unfold fexp, emin, prec32, emax32. lia. Qed.

Lemma shift_le_digits (m : positive) (e : Z) :
  -149 <= e ->
  2 ^ Z.max 0 (fexp prec32 emax32 (bits m + e) - e) <= Z.pos m.
Proof.
  intros He. pose proof (digits2_bounds m) as [Hm _].
  eapply Z.le_trans; [|exact Hm].
  apply Z.pow_le_mono_r; [lia|].
  unfold fexp, emin, prec32, emax32. lia.
Qed.

Lemma binary_round_aux_ge (Mp mx : positive) (E ex : Z) :
  fexp prec32 emax32 (bits mx + ex) = ex ->
  -149 <= E -> E <= ex -> Z.pos mx * 2 ^ (ex - E) <= Z.pos Mp ->
  match binary_round_aux prec32 emax32 false (Z.pos Mp) E loc_Exact with
  | S754_infinity false => True
  | S754_finite false m e => ex < e \/ (e = ex /\ Z.pos mx <= Z.pos m)
  | _ => False
  end.
Proof.
  intros Hcan HE HEx Hle. unfold binary_round_aux.
  pose proof (shr_fexp_pos Mp E loc_Exact) as [He1 Hm1].
  pose proof (shift_le_digits Mp E HE) as Hn1.
  destruct (shr_fexp prec32 emax32 (Z.pos Mp) E loc_Exact) as [mrs1 e1].
  cbn [fst snd] in He1, Hm1.
  assert (F1 : bits mx + (ex - E) <= bits Mp).
  { pose proof (digits2_bounds mx) as [Hx _].
    assert (2 ^ (bits mx - 1 + (ex - E)) <= Z.pos Mp).
    { rewrite Z.pow_add_r by lia. eapply Z.le_trans; [|exact Hle].
      apply Z.mul_le_mono_nonneg_r; [apply Z.pow_nonneg; lia | exact Hx]. }
    apply digits2_ge_pow in H; lia. }
  assert (F2 : ex <= fexp prec32 emax32 (bits Mp + E)).
  { rewrite <- Hcan at 1. apply fexp_mono. lia. }
  set (n := Z.max 0 (fexp prec32 emax32 (bits Mp + E) - E)) in *.
  assert (Hn : n = fexp prec32 emax32 (bits Mp + E) - E) by lia.
  assert (F3 : 1 <= shr_m mrs1).
  { rewrite Hm1. apply Z.div_le_lower_bound; [apply Z.pow_pos_nonneg; lia | lia]. }
  assert (F4 : e1 = ex -> Z.pos mx <= shr_m mrs1).
  { intros E1. rewrite Hm1. assert (n = ex - E) by lia.
    apply Z.div_le_lower_bound; [apply Z.pow_pos_nonneg; lia|].
    rewrite H, Z.mul_comm. exact Hle. }
  pose proof (round_nearest_even_ge (shr_m mrs1) (loc_of_shr_record mrs1)) as Hr.
  destruct (round_nearest_even (shr_m mrs1) (loc_of_shr_record mrs1)) as [|mr|mr];
    try lia.
  assert (He1' : -149 <= e1) by (pose proof (fexp_ge_emin (bits Mp + E)); lia).
  pose proof (shr_fexp_pos mr e1 loc_Exact) as [He2 Hm2].
  pose proof (shift_le_digits mr e1 He1') as Hn2.
  destruct (shr_fexp prec32 emax32 (Z.pos mr) e1 loc_Exact) as [mrs2 e2].
  cbn [fst snd] in He2, Hm2.
  set (n2 := Z.max 0 (fexp prec32 emax32 (bits mr + e1) - e1)) in *.
  assert (F5 : 1 <= shr_m mrs2).
  { rewrite Hm2. apply Z.div_le_lower_bound; [apply Z.pow_pos_nonneg; lia | lia]. }
  destruct (shr_m mrs2) as [|m2|m2] eqn:Em2; try lia.
  destruct (e2 <=? emax32 - prec32); [|exact I].
  destruct (Z.eq_dec e2 ex) as [Ee|Ee]; [right | left; lia].
  split; [exact Ee|].
  assert (n2 = 0) by lia. assert (e1 = ex) by lia.
  rewrite H in Hm2. simpl in Hm2. rewrite Z.div_1_r in Hm2.
  specialize (F4 H0). lia.
Qed.

Lemma SFsub_nonneg_negative (x p : spec_float) :
  valid_binary prec32 emax32 x = true -> valid_binary prec32 emax32 p = true ->
  SFleb (S754_zero false) x = true -> SFltb p (S754_zero false) = true ->
  SFleb x (fsub x p) = true.
Proof.
  intros Vx Vp Hx Hp.
  destruct x as [sx|sx| |sx mx ex]; try discriminate;
    destruct p as [sp|sp| |sp mp ep]; try discriminate;
    try (destruct sx; try discriminate); try (destruct sp; try discriminate);
    try reflexivity.
  cbn [valid_binary] in Vx, Vp. unfold bounded, canonical_mantissa in Vx, Vp.
  apply andb_prop in Vx as [Cx _]. apply andb_prop in Vp as [Cp _].
  apply Z.eqb_eq in Cx, Cp.
  unfold fsub, SFsub. set (ez := Z.min ex ep).
  assert (Hzx : ez <= ex) by lia. assert (Hzp : ez <= ep) by lia.
  pose proof (shl_align_value mx ex ez Hzx) as Vmx.
  pose proof (shl_align_value mp ep ez Hzp) as Vmp.
  destruct (shl_align mx ex ez) as [mx' ex'], (shl_align mp ep ez) as [mp' ep'].
  cbn [fst] in *. cbn [cond_Zopp Z.opp Z.sub Z.add Z.pos_sub binary_normalize].
  change (Z.pos mx' + Z.pos mp') with (Z.pos (mx' + mp')).
  set (M := (mx' + mp')%positive).
  assert (HM : Z.pos mx * 2 ^ (ex - ez) <= Z.pos M) by (unfold M; lia).
  assert (Hez : -149 <= ez).
  { pose proof (fexp_ge_emin (bits mx + ex)). pose proof (fexp_ge_emin (bits mp + ep)). lia. }
  assert (F1 : bits mx + (ex - ez) <= bits M).
  { pose proof (digits2_bounds mx) as [Hx' _].
    assert (2 ^ (bits mx - 1 + (ex - ez)) <= Z.pos M).
    { rewrite Z.pow_add_r by lia. eapply Z.le_trans; [|exact HM].
      apply Z.mul_le_mono_nonneg_r; [apply Z.pow_nonneg; lia | exact Hx']. }
    apply digits2_ge_pow in H; lia. }
  assert (F2 : ez <= fexp prec32 emax32 (bits M + ez)).
  { eapply Z.le_trans; [exact Hzx|]. rewrite <- Cx at 1. apply fexp_mono. lia. }
  unfold binary_round, shl_align.
  destruct (fexp prec32 emax32 (bits M + ez) - ez) as [|d|d] eqn:Ed; try lia;
    pose proof (binary_round_aux_ge M mx ez ex Cx Hez Hzx HM) as R;
    destruct (binary_round_aux prec32 emax32 false (Z.pos M) ez loc_Exact)
      as [s|s| |s m e]; try contradiction; destruct s; try contradiction;
    try reflexivity;
    unfold SFleb; cbn [SFcompare];
    (destruct R as [R|[-> R]];
     [ apply Z.compare_lt_iff in R; now rewrite R
     | rewrite Z.compare_refl;
       change (Pos.compare_cont Eq mx m) with (Pos.compare mx m);
       destruct (Pos.compare_spec mx m); try reflexivity; lia ]).
Qed.


Lemma digits2_unique (q : positive) (k : Z) :
  2 ^ (k - 1) <= Z.pos q < 2 ^ k -> bits q = k.
Proof.
  intros [Hl Hu]. pose proof (digits2_bounds q) as [Ql Qu].
  assert (0 < k).
  { destruct (Z.lt_ge_cases 0 k); [assumption|].
    assert (2 ^ k <= 2 ^ 0) by (apply Z.pow_le_mono_r; lia). simpl in H0. lia. }
  assert (A : 2 ^ (bits q - 1) < 2 ^ k) by lia.
  assert (B : 2 ^ (k - 1) < 2 ^ bits q) by lia.
  apply Z.pow_lt_mono_r_iff in A; [|lia|lia].
  apply Z.pow_lt_mono_r_iff in B; lia.
Qed.

Lemma digits2_shr (m q : positive) (n : Z) :
  0 <= n -> Z.pos m / 2 ^ n = Z.pos q -> bits q = bits m - n.
Proof.
  intros Hn Hq. pose proof (digits2_bounds m) as [Ml Mu].
  assert (Hp : 0 < 2 ^ n) by (apply Z.pow_pos_nonneg; lia).
  assert (Hlt : n < bits m).
  { destruct (Z.lt_ge_cases n (bits m)); [assumption|].
    assert (2 ^ bits m <= 2 ^ n) by (apply Z.pow_le_mono_r; lia).
    rewrite Z.div_small in Hq by lia. lia. }
  apply digits2_unique. rewrite <- Hq. split.
  - apply Z.div_le_lower_bound; [exact Hp|].
    rewrite <- Z.pow_add_r by lia. replace (n + (bits m - n - 1)) with (bits m - 1) by lia.
    exact Ml.
  - apply Z.div_lt_upper_bound; [exact Hp|].
    rewrite <- Z.pow_add_r by lia. replace (n + (bits m - n)) with (bits m) by lia.
    exact Mu.
Qed.

Lemma digits2_iter_xO (m d : positive) : bits (Pos.iter xO m d) = bits m + Z.pos d.
Proof.
  induction d as [|d IH] using Pos.peano_ind.
  - simpl. lia.
  - rewrite Pos.iter_succ. cbn [digits2_pos]. rewrite Pos2Z.inj_succ, IH. lia.
Qed.

Lemma round_nearest_even_le (m : Z) (l : location) : round_nearest_even m l <= m + 1.
Proof.
  destruct l as [|[]]; cbn [round_nearest_even]; try lia.
  destruct (Z.even m); lia.
Qed.

Lemma binary_round_aux_valid (s : bool) (Mp : positive) (E : Z) :
  E <= fexp prec32 emax32 (bits Mp + E) ->
  valid_binary prec32 emax32
    (binary_round_aux prec32 emax32 s (Z.pos Mp) E loc_Exact) = true.
Proof.
  intros HE. unfold binary_round_aux.
  pose proof (shr_fexp_pos Mp E loc_Exact) as [He1 Hm1].
  destruct (shr_fexp prec32 emax32 (Z.pos Mp) E loc_Exact) as [mrs1 e1].
  cbn [fst snd] in He1, Hm1.
  set (n := Z.max 0 (fexp prec32 emax32 (bits Mp + E) - E)) in *.
  assert (Hn : n = fexp prec32 emax32 (bits Mp + E) - E) by lia.
  assert (Hp : 0 < 2 ^ n) by (apply Z.pow_pos_nonneg; lia).
  assert (H0 : 0 <= shr_m mrs1) by (rewrite Hm1; apply Z.div_pos; lia).
  pose proof (round_nearest_even_ge (shr_m mrs1) (loc_of_shr_record mrs1)) as Hge.
  pose proof (round_nearest_even_le (shr_m mrs1) (loc_of_shr_record mrs1)) as Hle.
  pose proof (fexp_ge_emin (bits Mp + E)) as Hemin.
  destruct (round_nearest_even (shr_m mrs1) (loc_of_shr_record mrs1)) as [|mr|mr];
    try lia.
  - (* rounded to zero *)
    unfold shr_fexp, shr. cbn [Zdigits2 shr_record_of_loc].
    destruct (fexp prec32 emax32 (0 + e1) - e1) as [|p|p]; cbn [fst shr_m];
      try reflexivity.
    rewrite iter_shr_1_m by (cbn [shr_m]; lia). cbn [shr_m].
    rewrite Z.div_0_l by (apply Z.pow_nonzero; lia). reflexivity.
  - assert (Hi : e1 <= fexp prec32 emax32 (bits mr + e1)).
    { destruct (shr_m mrs1) as [|q|q] eqn:Eq; try lia.
      - (* the quotient is 0 and the mantissa was rounded up to 1 *)
        pose proof (digits2_bounds Mp) as [Ml _].
        assert (Z.pos Mp < 2 ^ n).
        { destruct (Z.lt_ge_cases (Z.pos Mp) (2 ^ n)); [assumption|].
          assert (1 <= Z.pos Mp / 2 ^ n)
            by (apply Z.div_le_lower_bound; lia). lia. }
        assert (2 ^ (bits Mp - 1) < 2 ^ n) by lia.
        apply Z.pow_lt_mono_r_iff in H1; [|lia|lia].
        assert (e1 = -149).
        { revert Hn H1 He1. unfold fexp, emin, prec32, emax32. lia. }
        pose proof (fexp_ge_emin (bits mr + e1)). lia.
      - symmetry in Hm1. pose proof (digits2_shr Mp q n ltac:(lia) Hm1) as Dq.
        assert (bits q <= bits mr) by (apply digits2_le; lia).
        replace e1 with (fexp prec32 emax32 (bits Mp + E)) at 1 by lia.
        apply fexp_mono. lia. }
    pose proof (shr_fexp_pos mr e1 loc_Exact) as [He2 Hm2].
    pose proof (shift_le_digits mr e1 ltac:(lia)) as Hn2.
    destruct (shr_fexp prec32 emax32 (Z.pos mr) e1 loc_Exact) as [mrs2 e2].
    cbn [fst snd] in He2, Hm2.
    set (n2 := Z.max 0 (fexp prec32 emax32 (bits mr + e1) - e1)) in *.
    assert (F5 : 1 <= shr_m mrs2).
    { rewrite Hm2. apply Z.div_le_lower_bound; [apply Z.pow_pos_nonneg; lia | lia]. }
    destruct (shr_m mrs2) as [|m2|m2] eqn:Em2; try lia.
    destruct (Z.leb_spec e2 (emax32 - prec32)) as [Hb|Hb]; [|reflexivity].
    cbn [valid_binary]. unfold bounded, canonical_mantissa.
    apply andb_true_intro. split; [|now apply Z.leb_le].
    apply Z.eqb_eq. symmetry in Hm2.
    pose proof (digits2_shr mr m2 n2 ltac:(lia) Hm2) as D2.
    rewrite D2. replace (bits mr - n2 + e2) with (bits mr + e1) by lia. lia.
Qed.

Lemma binary_round_valid (s : bool) (m : positive) (e : Z) :
  valid_binary prec32 emax32 (binary_round prec32 emax32 s m e) = true.
Proof.
  unfold binary_round, shl_align.
  destruct (fexp prec32 emax32 (bits m + e) - e) as [|d|d] eqn:Ed;
    apply binary_round_aux_valid; try lia.
  rewrite digits2_iter_xO.
  replace (bits m + Z.pos d + fexp prec32 emax32 (bits m + e)) with (bits m + e) by lia.
  lia.
Qed.


Lemma to_float_valid (d : double) : valid_binary prec32 emax32 (to_float d) = true.
Proof. destruct d; try reflexivity. apply binary_round_valid. Qed.

Lemma binary_normalize_valid (m e : Z) (s : bool) :
  valid_binary prec32 emax32 (binary_normalize prec32 emax32 m e s) = true.
Proof. destruct m; try reflexivity; apply binary_round_valid. Qed.

Lemma fadd_valid (x y : float) :
  valid_binary prec32 emax32 x = true -> valid_binary prec32 emax32 y = true ->
  valid_binary prec32 emax32 (fadd x y) = true.
Proof.
  intros Hx Hy. unfold fadd, SFadd.
  destruct x as [sx|sx| |sx mx ex], y as [sy|sy| |sy my ey];
    try reflexivity; try assumption;
    try (destruct sx, sy; reflexivity).
  apply binary_normalize_valid.
Qed.

Lemma fsub_valid (x y : float) :
  valid_binary prec32 emax32 x = true -> valid_binary prec32 emax32 y = true ->
  valid_binary prec32 emax32 (fsub x y) = true.
Proof.
  intros Hx Hy. unfold fsub, SFsub.
  destruct x as [sx|sx| |sx mx ex], y as [sy|sy| |sy my ey];
    try reflexivity; try assumption;
    try (destruct sx, sy; reflexivity).
  apply binary_normalize_valid.
Qed.

End Float32.

(** ** The line parser in terms of tokens *)

Section Parser.

Variable cmp : string -> string -> Z.

(** A line [parseBoat] accepts has at least five tokens, and the record
    is read off the first five. *)
Lemma parseBoat_inv (s : string) (b : Boat) :
  parseBoat cmp s = inr b ->
  exists t1 t2 t3 t4 t5 more,
    tokens s = t1 :: t2 :: t3 :: t4 :: t5 :: more /\
    (nonul s = true -> field_ok t1 = true /\ field_ok t4 = true) /\
    name b = strncpy 127 t1 /\
    length b = to_float (atof t2) /\
    location_of cmp t3 t4 = inr (locationInfo b) /\
    amountOwed b = to_float (atof t5).
Proof.
  unfold parseBoat, next_token, location_of.
  pose proof (strtok_r_tokens s) as T1.
  pose proof (strtok_r_nonul s) as N1.
  destruct (strtok_r s) as [[t1 r1]|]; cbn [bind]; [|discriminate].
  pose proof (strtok_r_tokens r1) as T2.
  pose proof (strtok_r_nonul r1) as N2.
  destruct (strtok_r r1) as [[t2 r2]|]; cbn [bind]; [|discriminate].
  pose proof (strtok_r_tokens r2) as T3.
  pose proof (strtok_r_nonul r2) as N3.
  destruct (strtok_r r2) as [[t3 r3]|]; cbn [bind]; [|discriminate].
  pose proof (strtok_r_tokens r3) as T4.
  pose proof (strtok_r_nonul r3) as N4.
  assert (Hnul : nonul s = true -> field_ok t1 = true /\ nonul r3 = true).
  { intros H. destruct (N1 _ _ H eq_refl) as [F1 H1].
    destruct (N2 _ _ H1 eq_refl) as [_ H2].
    destruct (N3 _ _ H2 eq_refl) as [_ H3]. now split. }
  clear N1 N2 N3.
  destruct (cmp t3 "slip" =? 0) eqn:K1;
    [|destruct (cmp t3 "land" =? 0) eqn:K2;
      [|destruct (cmp t3 "trailor" =? 0) eqn:K3;
        [|destruct (cmp t3 "storage" =? 0) eqn:K4; [|cbn [bind]; discriminate]]]];
    (destruct (strtok_r r3) as [[t4 r4]|]; cbn [bind]; [|discriminate]);
    try (destruct t4 as [|c t4]; cbn [bind]; [discriminate|]);
    pose proof (strtok_r_tokens r4) as T5;
    (destruct (strtok_r r4) as [[t5 r5]|]; cbn [bind]; [|discriminate]);
    intros [= <-];
    match type of T4 with
    | _ = ?t :: _ => exists t1, t2, t3, t, t5, (tokens r5)
    end;
    (split; [now rewrite T1, T2, T3, T4, T5|]);
    (split; [intros H; destruct (Hnul H) as [F1 H3]; split; [exact F1|];
             now destruct (N4 _ _ H3 eq_refl)|]);
    cbn [name length locationInfo amountOwed];
    rewrite ?K1, ?K2, ?K3, ?K4; repeat split.
Qed.

(** A line with fewer than five non-empty fields is rejected. *)
Lemma parseBoat_few_tokens (s : string) :
  (List.length (tokens s) < 5)%nat -> exists e, parseBoat cmp s = inl e.
Proof.
  intros Hlen. destruct (parseBoat cmp s) as [e|b] eqn:E; [now exists e|].
  apply parseBoat_inv in E as (t1 & t2 & t3 & t4 & t5 & more & T & _).
  rewrite T in Hlen. simpl in Hlen. lia.
Qed.

(** Five good fields joined by commas parse to the record they spell. *)
Lemma parseBoat_fields (f1 f2 f3 f4 f5 : string) :
  field_ok f1 = true -> field_ok f2 = true -> field_ok f3 = true ->
  field_ok f4 = true -> field_ok f5 = true ->
  parseBoat cmp
    (f1 ++ String COMMA (f2 ++ String COMMA (f3 ++ String COMMA
       (f4 ++ String COMMA f5)))) =
  match location_of cmp f3 f4 with
  | inl e => inl e
  | inr info =>
      inr {| name := take 127 f1; length := to_float (atof f2);
             locationInfo := info; amountOwed := to_float (atof f5) |}
  end.
Proof.
  intros H1 H2 H3 H4 H5.
  unfold parseBoat, next_token, location_of.
  rewrite (proj2 (strtok_r_field f1 _ H1)). cbn [bind].
  rewrite (proj2 (strtok_r_field f2 _ H2)). cbn [bind].
  rewrite (proj2 (strtok_r_field f3 _ H3)). cbn [bind].
  rewrite (proj2 (strtok_r_field f4 _ H4)).
  assert (E1 : strncpy (MAX_NAME_LENGTH - 1) f1 = take 127 f1).
  { unfold strncpy. rewrite plain_cstring; [reflexivity|].
    unfold field_ok in H1. now apply andb_prop in H1. }
  rewrite E1.
  pose proof (proj1 (strtok_r_field f5 EmptyString H5)) as E5.
  destruct (cmp f3 "slip" =? 0); [cbn [bind]; now rewrite E5|].
  destruct (cmp f3 "land" =? 0).
  { destruct f4; [discriminate|]. cbn [bind]. now rewrite E5. }
  destruct (cmp f3 "trailor" =? 0); [cbn [bind]; now rewrite E5|].
  destruct (cmp f3 "storage" =? 0); cbn [bind]; [now rewrite E5 | reflexivity].
Qed.

End Parser.

(** ** The balances are well-formed floats *)

Section ValidFloats.

Lemma parseBoat_valid (cmp : string -> string -> Z) (s : string) (b : Boat) :
  parseBoat cmp s = inr b -> valid_boat b.
Proof.
  intros H.
  apply parseBoat_inv in H as (t1 & t2 & t3 & t4 & t5 & more & _ & _ & _ & Hl & _ & Ha).
  unfold valid_boat. rewrite Hl, Ha. split; apply to_float_valid.
Qed.

Lemma load_loop_valid (fuel : nat) (file : string) (bs : list Boat) :
  Forall valid_boat bs -> Forall valid_boat (load_loop fuel file bs).
Proof.
  revert file bs. induction fuel as [|fuel IH]; intros file bs Hb; simpl; [exact Hb|].
  destruct (fgets 256 file) as [[buffer file']|]; [|exact Hb].
  destruct (List.length bs <? MAX_BOATS)%nat; [|exact Hb].
  destruct (parseBoat strcmp (chomp buffer)) as [e|b] eqn:E; apply IH; [exact Hb|].
  apply Forall_app. split; [exact Hb|]. constructor; [|constructor].
  exact (parseBoat_valid _ _ _ E).
Qed.

Lemma qsort_valid (bs : list Boat) :
  Forall valid_boat bs -> Forall valid_boat (qsort compareBoats bs).
Proof. apply Permutation_Forall, qsort_perm. Qed.

Lemma addBoat_valid (bs : list Boat) (data : string) :
  Forall valid_boat bs -> Forall valid_boat (fst (addBoat bs data)).
Proof.
  intros Hb. destruct (addBoat_cases bs data) as [(o & _ & E)|(b & _ & Hp & E)];
    rewrite E; simpl; [exact Hb|].
  apply qsort_valid, Forall_app. split; [exact Hb|]. constructor; [|constructor].
  exact (parseBoat_valid _ _ _ Hp).
Qed.

Lemma remove_at_valid (i : nat) (bs : list Boat) :
  Forall valid_boat bs -> Forall valid_boat (remove_at i bs).
Proof.
  intros Hb. revert i. induction Hb as [|b bs Hv Hb IH]; intros [|i]; simpl;
    try constructor; auto.
Qed.

Lemma update_at_valid (i : nat) (f : Boat -> Boat) (bs : list Boat) :
  (forall b, valid_boat b -> valid_boat (f b)) ->
  Forall valid_boat bs -> Forall valid_boat (update_at i f bs).
Proof.
  intros Hf Hb. revert i. induction Hb as [|b bs Hv Hb IH]; intros [|i]; simpl;
    constructor; auto.
Qed.

Lemma acceptPayment_valid (bs : list Boat) (input : string) :
  Forall valid_boat bs -> Forall valid_boat (fst (fst (acceptPayment bs input))).
Proof.
  intros Hb. unfold acceptPayment.
  destruct (fgets MAX_NAME_LENGTH input) as [[nb s1]|]; [|exact Hb].
  destruct (findBoatByName bs (chomp nb)) as [i|]; [|exact Hb].
  destruct (fgets 50 s1) as [[buffer s2]|]; [|exact Hb].
  destruct (nth_error bs i) as [boat|]; [|exact Hb].
  destruct (fgt _ _); [exact Hb|]. cbn [fst].
  apply update_at_valid; [|exact Hb].
  intros b [Hl Ha]. split; [exact Hl|]. cbn [amountOwed setAmountOwed].
  apply fsub_valid; [exact Ha | apply to_float_valid].
Qed.

Lemma updateMonthlyCharges_valid (bs : list Boat) :
  Forall valid_boat bs -> Forall valid_boat (fst (updateMonthlyCharges bs)).
Proof.
  intros Hb. cbn [fst updateMonthlyCharges]. apply Forall_map.
  eapply Forall_impl; [|exact Hb]. intros b [Hl Ha]. split; [exact Hl|].
  cbn [amountOwed chargeBoat setAmountOwed].
  apply fadd_valid; [exact Ha | apply to_float_valid].
Qed.

Lemma menu_step_valid (st : State) :
  Forall valid_boat (boats st) -> Forall valid_boat (boats (menu_step st)).
Proof.
  intros Hok. unfold menu_step.
  destruct (fgets 256 (stdin st)) as [[inputBuffer stdin1]|]; [|exact Hok].
  set (c := toupper (first_char inputBuffer)).
  destruct (Ascii.eqb c "I"); [exact Hok|].
  destruct (Ascii.eqb c "A").
  { destruct (fgets 256 stdin1) as [[b2 stdin2]|]; [|exact Hok].
    pose proof (addBoat_valid (boats st) (chomp b2) Hok) as H.
    destruct (addBoat (boats st) (chomp b2)) as [bs o]. exact H. }
  destruct (Ascii.eqb c "R").
  { pose proof (removeBoat_cases (boats st) stdin1) as H.
    destruct (removeBoat (boats st) stdin1) as [[bs s2] o]. cbn [fst boats] in *.
    destruct H as [->|[i ->]]; [exact Hok | now apply remove_at_valid]. }
  destruct (Ascii.eqb c "P").
  { pose proof (acceptPayment_valid (boats st) stdin1 Hok) as H.
    destruct (acceptPayment (boats st) stdin1) as [[bs s2] o]. exact H. }
  destruct (Ascii.eqb c "M").
  { exact (updateMonthlyCharges_valid (boats st) Hok). }
  destruct (Ascii.eqb c "X"); exact Hok.
Qed.

(** In every state the program reaches, the lengths and balances are
    well-formed binary32 values. *)
Lemma reachable_valid (st : State) : reachable st -> Forall valid_boat (boats st).
Proof.
  intros (file & input & c0 & n & ->).
  assert (H0 : Forall valid_boat (boats (initial file input c0))).
  { unfold initial. destruct file as [content|]; simpl; [|constructor].
    apply qsort_valid, load_loop_valid. constructor. }
  revert H0. generalize (initial file input c0).
  induction n as [|n IH]; intros st H0; simpl; [exact H0|].
  pose proof (menu_step_valid st H0) as H1.
  destruct (Ascii.eqb (choice (menu_step st)) "X"); [exact H1 | now apply IH].
Qed.

End ValidFloats.

(** ** Lookup by name *)

Section Lookup.

Lemma findBoatByName_none (nm : string) (bs : list Boat) :
  no_match nm bs -> findBoatByName bs nm = None.
Proof.
  induction 1 as [|b bs Hb _ IH]; simpl; [reflexivity|].
  destruct (Z.eqb_spec (strcasecmp (name b) nm) 0); [contradiction|].
  now rewrite IH.
Qed.

Lemma findBoatByName_first (nm : string) (before : list Boat) (b : Boat)
      (after : list Boat) :
  no_match nm before -> strcasecmp (name b) nm = 0 ->
  findBoatByName (before ++ b :: after) nm = Some (List.length before).
Proof.
  intros Hno Hb. induction Hno as [|x before Hx _ IH]; simpl.
  - now rewrite Hb.
  - destruct (Z.eqb_spec (strcasecmp (name x) nm) 0); [contradiction|].
    now rewrite IH.
Qed.

(** Every list either has no match or splits at its first match. *)
Lemma first_match_split (nm : string) (bs : list Boat) :
  no_match nm bs \/
  exists before b after,
    bs = before ++ b :: after /\ no_match nm before /\ strcasecmp (name b) nm = 0.
Proof.
  induction bs as [|x bs IH]; [left; constructor|].
  destruct (Z.eq_dec (strcasecmp (name x) nm) 0) as [E|E].
  - right. exists [], x, bs. repeat split; [constructor | exact E].
  - destruct IH as [Hno|(before & b & after & -> & Hno & Hb)].
    + left. now constructor.
    + right. exists (x :: before), b, after. repeat split; [now constructor | exact Hb].
Qed.

Lemma remove_at_middle {A} (before : list A) (x : A) (after : list A) :
  remove_at (List.length before) (before ++ x :: after) = before ++ after.
Proof. induction before as [|y before IH]; simpl; [reflexivity | now rewrite IH]. Qed.

Lemma update_at_middle {A} (f : A -> A) (before : list A) (x : A) (after : list A) :
  update_at (List.length before) f (before ++ x :: after) = before ++ f x :: after.
Proof. induction before as [|y before IH]; simpl; [reflexivity | now rewrite IH]. Qed.

Lemma nth_error_middle {A} (before : list A) (x : A) (after : list A) :
  nth_error (before ++ x :: after) (List.length before) = Some x.
Proof. induction before as [|y before IH]; simpl; [reflexivity | exact IH]. Qed.

End Lookup.

(** ** The program on the sample data *)

Example sample_file_loads :
  loadBoatData (Some sample_file) [] = ([alice; bob], []).
Proof. vm_compute. reflexivity. Qed.

(** The scenario of the specification: pay Alice's balance, then bill a
    month. *)
Example scenario_pay_then_bill :
  let st := menu_loop 5 (initial (Some sample_file)
              (line "I" ++ line "P" ++ line "Alice" ++ line "100.00" ++
               line "M" ++ line "I" ++ line "X")%string NUL) in
  (forall sg, saveBoatData sg (boats st) =
    (line "Alice,20,slip,5,250.00" ++ line "Bob,15,land,B,260.00")%string) /\
  choice st = "X"%char.
Proof. vm_compute. split; reflexivity. Qed.

(** ** Reading a file line by line *)

Section Reading.

Lemma append_assoc (a b c : string) : ((a ++ b) ++ c = a ++ (b ++ c))%string.
Proof. induction a as [|x a IH]; simpl; [reflexivity | now rewrite IH]. Qed.

Lemma length_append (a b : string) :
  String.length (a ++ b) = (String.length a + String.length b)%nat.
Proof. induction a as [|x a IH]; simpl; [reflexivity | now rewrite IH]. Qed.

Lemma fgets_chars_line (n : nat) (l rest : string) :
  all_chars (fun c => negb (Ascii.eqb c NUL) && negb (Ascii.eqb c NL)) l = true ->
  (String.length l < n)%nat ->
  fgets_chars n (l ++ String NL rest) = (line l, rest).
Proof.
  revert n. induction l as [|c l IH]; intros [|n] Hc Hn; simpl in *; try lia.
  - reflexivity.
  - apply andb_prop in Hc as [Hc Hl]. apply andb_prop in Hc as [_ Hc].
    apply negb_true_iff in Hc. rewrite Hc.
    unfold line in IH. rewrite IH by (auto; lia). reflexivity.
Qed.

Lemma chomp_line_ok (l : string) :
  all_chars (fun c => negb (Ascii.eqb c NUL) && negb (Ascii.eqb c NL)) l = true ->
  chomp (line l) = l.
Proof.
  induction l as [|c l IH]; simpl; [reflexivity|]. intros Hc.
  apply andb_prop in Hc as [Hc Hl].
  apply andb_prop in Hc as [H0 H1]. apply negb_true_iff in H0, H1.
  rewrite H0, H1. simpl. unfold line in IH. now rewrite IH.
Qed.

Lemma fgets_line (l rest : string) :
  line_ok l = true ->
  fgets 256 (line l ++ rest) = Some (line l, rest) /\ chomp (line l) = l.
Proof.
  unfold line_ok. intros H. apply andb_prop in H as [Hc Hn].
  apply Nat.ltb_lt in Hn. split; [|now apply chomp_line_ok].
  unfold line. rewrite append_assoc. simpl append.
  unfold fgets. rewrite (fgets_chars_line (256 - 1) l rest Hc) by (simpl; lia).
  destruct l; reflexivity.
Qed.

Lemma fgets_chars_consumes (n : nat) (c : ascii) (s : string) :
  (String.length (snd (fgets_chars (S n) (String c s))) <= String.length s)%nat.
Proof.
  revert c s. induction n as [|n IH]; intros c s; simpl.
  - destruct (Ascii.eqb c NL); simpl; [lia|]. destruct s; simpl; lia.
  - destruct (Ascii.eqb c NL); simpl; [lia|].
    destruct s as [|d s]; simpl; [lia|].
    specialize (IH d s). simpl in IH.
    destruct (Ascii.eqb d NL); simpl in *; [lia|].
    destruct (fgets_chars n s) as [l r]. simpl in *. lia.
Qed.

(** Any fuel not less than the length of the file gives the same result:
    the loop of [loadBoatData] ends at end of file or at capacity. *)
Lemma load_loop_fuel (f1 f2 : nat) (file : string) (bs : list Boat) :
  (String.length file <= f1)%nat -> (String.length file <= f2)%nat ->
  load_loop f1 file bs = load_loop f2 file bs.
Proof.
  revert f2 file bs. induction f1 as [|f1 IH]; intros [|f2] file bs H1 H2;
    try (destruct file; simpl in *; [reflexivity | lia]).
  destruct file as [|c s]; [reflexivity|].
  cbn [load_loop]. unfold fgets.
  pose proof (fgets_chars_consumes (256 - 2) c s) as Hlen.
  change (256 - 1)%nat with (S (256 - 2)).
  destruct (fgets_chars (S (256 - 2)) (String c s)) as [buffer file'].
  cbn [snd String.length] in Hlen, H1, H2.
  destruct (List.length bs <? MAX_BOATS)%nat; [|reflexivity].
  destruct (parseBoat strcmp (chomp buffer)); apply IH; lia.
Qed.

(** One line at the front of the file is one turn of the loop. *)
Lemma load_loop_line (l rest : string) (bs : list Boat) :
  line_ok l = true ->
  load_loop (String.length (line l ++ rest)) (line l ++ rest) bs =
  if (List.length bs <? MAX_BOATS)%nat then
    match parseBoat strcmp l with
    | inr b => load_loop (String.length rest) rest (bs ++ [b])
    | inl _ => load_loop (String.length rest) rest bs
    end
  else bs.
Proof.
  intros Hl. destruct (fgets_line l rest Hl) as [Hf Hc].
  assert (Hlen : String.length (line l ++ rest) = S (String.length l + String.length rest)).
  { unfold line. rewrite !length_append. simpl. lia. }
  rewrite Hlen. cbn [load_loop]. rewrite Hf, Hc.
  destruct (List.length bs <? MAX_BOATS)%nat; [|reflexivity].
  destruct (parseBoat strcmp l); apply load_loop_fuel; lia.
Qed.

(** A rejected line anywhere among whole lines leaves no trace. *)
Lemma load_loop_skip (pre : list string) (bad rest : string) (bs : list Boat) :
  Forall (fun l => line_ok l = true) pre -> line_ok bad = true ->
  (exists e, parseBoat strcmp bad = inl e) ->
  load_loop (String.length (unlines pre ++ line bad ++ rest))
            (unlines pre ++ line bad ++ rest) bs =
  load_loop (String.length (unlines pre ++ rest)) (unlines pre ++ rest) bs.
Proof.
  intros Hpre Hbad [e He]. revert bs.
  induction Hpre as [|l pre Hl _ IH]; intros bs; cbn [unlines].
  - simpl append. rewrite (load_loop_line bad rest bs Hbad), He.
    destruct (List.length bs <? MAX_BOATS)%nat eqn:E; [reflexivity|].
    destruct rest as [|c r]; [reflexivity|].
    cbn [String.length load_loop]. unfold fgets.
    destruct (fgets_chars (256 - 1) (String c r)). now rewrite E.
  - rewrite !append_assoc. rewrite !(load_loop_line l _ bs Hl).
    destruct (List.length bs <? MAX_BOATS)%nat; [|reflexivity].
    destruct (parseBoat strcmp l); apply IH.
Qed.

End Reading.

(** ** The location keyword in the two parsers *)

Section Keyword.

Lemma code_zero (c : ascii) : code c = 0 -> Ascii.eqb c NUL = true.
Proof. destruct c as [[] [] [] [] [] [] [] []]; vm_compute; congruence. Qed.

(** On strings without NUL, [strcmp] is 0 only between equal strings. *)
Lemma strcmp_eq (a b : string) :
  nonul a = true -> nonul b = true -> strcmp a b = 0 -> a = b.
Proof.
  revert b. induction a as [|x a IH]; destruct b as [|y b]; simpl; intros Ha Hb H.
  - reflexivity.
  - apply andb_prop in Hb as [Hy _].
    pose proof (code_nonneg y). rewrite code_zero in Hy by lia. discriminate.
  - apply andb_prop in Ha as [Hx _]. rewrite code_zero in Hx by lia. discriminate.
  - apply andb_prop in Ha as [Hx Ha]. apply andb_prop in Hb as [_ Hb].
    destruct (Z.eqb_spec (code x) (code y)) as [E|E]; [|lia].
    assert (x = y).
    { unfold code in E. apply N2Z.inj in E.
      rewrite <- (ascii_N_embedding x), <- (ascii_N_embedding y). now rewrite E. }
    subst y. destruct (Z.eqb_spec (code x) 0) as [E0|E0].
    + rewrite code_zero in Hx by exact E0. discriminate.
    + f_equal. now apply IH.
Qed.

(** A keyword that matches one of the four words only up to letter case
    is taken by the parser of [addBoat] and refused by the parser of
    [loadBoatData]. *)
Lemma keyword_case_add_vs_load (kw K v : string) :
  In K ["slip"; "land"; "trailor"; "storage"] ->
  strcasecmp kw K = 0 -> kw <> K -> nonul kw = true -> nonempty v = true ->
  (exists info, location_of strcasecmp kw v = inr info) /\
  location_of strcmp kw v = inl BadLocationType.
Proof.
  intros HK Hci Hne Hn Hv.
  assert (Hother : forall K', In K' ["slip"; "land"; "trailor"; "storage"] ->
                              K' <> K -> strcasecmp kw K' <> 0 /\ strcmp kw K' <> 0).
  { intros K' HK' Hd. split.
    - intros H. assert (E : strcasecmp K K' = 0).
      { apply (strcasecmp_eq_trans K kw K'); [|exact H].
        rewrite strcasecmp_antisym. lia. }
      revert E. clear - HK HK' Hd. simpl in HK, HK'.
      repeat (destruct HK as [<-|HK]; [|]); try contradiction;
        repeat (destruct HK' as [<-|HK']; [|]); try contradiction;
        try (now destruct Hd); vm_compute; discriminate.
    - intros H. apply strcmp_eq in H; [|exact Hn|]; cycle 1.
      { clear - HK'. simpl in HK'.
        repeat (destruct HK' as [<-|HK']; [reflexivity|]). contradiction. }
      subst kw.
      revert Hci. clear - HK HK' Hd. simpl in HK, HK'.
      repeat (destruct HK as [<-|HK]; [|]); try contradiction;
        repeat (destruct HK' as [<-|HK']; [|]); try contradiction;
        try (now destruct Hd); vm_compute; discriminate. }
  assert (Hself : strcmp kw K <> 0).
  { intros H. apply Hne. apply strcmp_eq; [exact Hn| |exact H].
    clear - HK. simpl in HK.
    repeat (destruct HK as [<-|HK]; [reflexivity|]). contradiction. }
  unfold location_of. simpl in HK.
  destruct HK as [<-|[<-|[<-|[<-|[]]]]].
  - rewrite Hci. cbn [Z.eqb]. split; [eexists; reflexivity|].
    destruct (Z.eqb_spec (strcmp kw "slip") 0); [contradiction|].
    destruct (Hother "land") as [_ H1]; [simpl; auto | discriminate|].
    destruct (Hother "trailor") as [_ H2]; [simpl; auto | discriminate|].
    destruct (Hother "storage") as [_ H3]; [simpl; auto | discriminate|].
    destruct (Z.eqb_spec (strcmp kw "land") 0); [contradiction|].
    destruct (Z.eqb_spec (strcmp kw "trailor") 0); [contradiction|].
    destruct (Z.eqb_spec (strcmp kw "storage") 0); [contradiction|]. reflexivity.
  - destruct (Hother "slip") as [C0 H0]; [simpl; auto | discriminate|].
    destruct (Hother "trailor") as [_ H2]; [simpl; auto | discriminate|].
    destruct (Hother "storage") as [_ H3]; [simpl; auto | discriminate|].
    destruct (Z.eqb_spec (strcasecmp kw "slip") 0); [contradiction|].
    rewrite Hci. cbn [Z.eqb]. split.
    + destruct v; [discriminate | eexists; reflexivity].
    + destruct (Z.eqb_spec (strcmp kw "slip") 0); [contradiction|].
      destruct (Z.eqb_spec (strcmp kw "land") 0); [contradiction|].
      destruct (Z.eqb_spec (strcmp kw "trailor") 0); [contradiction|].
      destruct (Z.eqb_spec (strcmp kw "storage") 0); [contradiction|]. reflexivity.
  - destruct (Hother "slip") as [C0 H0]; [simpl; auto | discriminate|].
    destruct (Hother "land") as [C1 H1]; [simpl; auto | discriminate|].
    destruct (Hother "storage") as [_ H3]; [simpl; auto | discriminate|].
    destruct (Z.eqb_spec (strcasecmp kw "slip") 0); [contradiction|].
    destruct (Z.eqb_spec (strcasecmp kw "land") 0); [contradiction|].
    rewrite Hci. cbn [Z.eqb]. split; [eexists; reflexivity|].
    destruct (Z.eqb_spec (strcmp kw "slip") 0); [contradiction|].
    destruct (Z.eqb_spec (strcmp kw "land") 0); [contradiction|].
    destruct (Z.eqb_spec (strcmp kw "trailor") 0); [contradiction|].
    destruct (Z.eqb_spec (strcmp kw "storage") 0); [contradiction|]. reflexivity.
  - destruct (Hother "slip") as [C0 H0]; [simpl; auto | discriminate|].
    destruct (Hother "land") as [C1 H1]; [simpl; auto | discriminate|].
    destruct (Hother "trailor") as [C2 H2]; [simpl; auto | discriminate|].
    destruct (Z.eqb_spec (strcasecmp kw "slip") 0); [contradiction|].
    destruct (Z.eqb_spec (strcasecmp kw "land") 0); [contradiction|].
    destruct (Z.eqb_spec (strcasecmp kw "trailor") 0); [contradiction|].
    rewrite Hci. cbn [Z.eqb]. split; [eexists; reflexivity|].
    destruct (Z.eqb_spec (strcmp kw "slip") 0); [contradiction|].
    destruct (Z.eqb_spec (strcmp kw "land") 0); [contradiction|].
    destruct (Z.eqb_spec (strcmp kw "trailor") 0); [contradiction|].
    destruct (Z.eqb_spec (strcmp kw "storage") 0); [contradiction|]. reflexivity.
Qed.

End Keyword.

(** ** Encoding and decoding a record *)

Section RoundTrip.

Lemma strncpy_field (n : nat) (t : string) :
  field_ok t = true ->
  strncpy (S n) t = take (S n) t /\ field_ok (take (S n) t) = true /\
  take (S n) (take (S n) t) = take (S n) t.
Proof.
  intros H. unfold strncpy. rewrite plain_cstring.
  - split; [reflexivity|]. split; [now apply field_ok_take | apply take_take].
  - unfold field_ok in H. now apply andb_prop in H.
Qed.

Lemma parseBoat_wf (cmp : string -> string -> Z) (s : string) (b : Boat) :
  nonul s = true -> parseBoat cmp s = inr b -> wf_boat b.
Proof.
  intros Hs Hp.
  apply parseBoat_inv in Hp as (t1 & t2 & t3 & t4 & t5 & more & _ & Hf & Hn & _ & Hl & _).
  destruct (Hf Hs) as [F1 F4].
  destruct (strncpy_field 126 t1 F1) as (E1 & G1 & I1).
  unfold wf_boat. rewrite Hn, E1. split; [exact G1|]. split; [exact I1|].
  unfold location_of in Hl.
  destruct (cmp t3 "slip" =? 0).
  { injection Hl as <-. apply atoi_range. }
  destruct (cmp t3 "land" =? 0).
  { destruct t4 as [|c t4]; [discriminate|]. injection Hl as <-.
    exact (field_ok_take 0 (String c t4) F4). }
  destruct (cmp t3 "trailor" =? 0).
  { injection Hl as <-. destruct (strncpy_field 8 t4 F4) as (E4 & G4 & I4).
    simpl. rewrite E4. now split. }
  destruct (cmp t3 "storage" =? 0); [|discriminate].
  injection Hl as <-. apply atoi_range.
Qed.

Lemma encodeBoat_fields (sg : NanSigns) (b : Boat) :
  encodeBoat sg b =
  (name b ++ String COMMA (fmt_f (lengthSign sg) 0 (length b) ++ String COMMA
     (locationTypeToString (locationType b) ++ String COMMA
        (match locationInfo b with
         | slipNumber n => fmt_d n
         | bayLetter c => String c EmptyString
         | trailorTag t => t
         | storageSpace n => fmt_d n
         end ++ String COMMA (fmt_f (owedSign sg) 2 (amountOwed b))))))%string.
Proof. reflexivity. Qed.

(** Either way of printing a NaN is read back as a NaN. *)
Lemma atof_fmt_f_sign (sg : bool) (p : nat) (x : spec_float) :
  to_float (atof (fmt_f sg p x)) = reprint p x.
Proof. unfold reprint. destruct x; try reflexivity. now destruct sg. Qed.

(** Decoding the line written for a well-formed record gives the record
    back, its two [float] fields re-read from their printed form. *)
Lemma parseBoat_encodeBoat (sg : NanSigns) (b : Boat) :
  wf_boat b -> parseBoat strcmp (encodeBoat sg b) = inr (reread b).
Proof.
  intros (Hn & Ht & Hi). rewrite encodeBoat_fields. unfold reread.
  destruct b as [nm len info owed]. cbn [name length locationInfo amountOwed] in *.
  unfold locationType. cbn [locationInfo].
  destruct info as [n|c|t|n]; cbn [locationTypeToString info_ok] in *.
  - rewrite parseBoat_fields;
      [|assumption|apply field_ok_fmt_f|reflexivity|apply field_ok_fmt_d
       |apply field_ok_fmt_f].
    change (location_of strcmp "slip" (fmt_d n)) with
      (@inr ParseError _ (slipNumber (atoi (fmt_d n)))).
    cbv iota. now rewrite Ht, atoi_fmt_d, !atof_fmt_f_sign.
  - rewrite parseBoat_fields;
      [|assumption|apply field_ok_fmt_f|reflexivity|assumption
       |apply field_ok_fmt_f].
    change (location_of strcmp "land" (String c EmptyString)) with
      (@inr ParseError _ (bayLetter c)).
    cbv iota. now rewrite Ht, !atof_fmt_f_sign.
  - destruct Hi as [Hf H9].
    rewrite parseBoat_fields;
      [|assumption|apply field_ok_fmt_f|reflexivity|assumption
       |apply field_ok_fmt_f].
    change (location_of strcmp "trailor" t) with
      (@inr ParseError _ (trailorTag (strncpy 9 t))).
    cbv iota. destruct (strncpy_field 8 t Hf) as (E & _ & _).
    now rewrite Ht, E, H9, !atof_fmt_f_sign.
  - rewrite parseBoat_fields;
      [|assumption|apply field_ok_fmt_f|reflexivity|apply field_ok_fmt_d
       |apply field_ok_fmt_f].
    change (location_of strcmp "storage" (fmt_d n)) with
      (@inr ParseError _ (storageSpace (atoi (fmt_d n)))).
    cbv iota. now rewrite Ht, atoi_fmt_d, !atof_fmt_f_sign.
Qed.

End RoundTrip.

(** ** Comparing and subtracting balances *)

Section Payments.

Lemma SFeqb_finite (x y : spec_float) :
  SFeqb x y = true -> is_finite y = true ->
  (is_zero x = true /\ is_zero y = true) \/
  (exists s m e, x = S754_finite s m e /\ y = S754_finite s m e).
Proof.
  unfold SFeqb.
  destruct x as [sx|sx| |sx mx ex], y as [sy|sy| |sy my ey]; simpl;
    try discriminate; try (destruct sx; discriminate); try (destruct sy; discriminate).
  - intros _ _. left. split; reflexivity.
  - intros H _. right.
    assert (E : ex = ey /\ mx = my /\ sx = sy).
    { destruct sx, sy; try discriminate;
        destruct (Z.compare_spec ex ey) as [Ee|Ee|Ee]; try discriminate;
        change (Pos.compare_cont Eq mx my) with (Pos.compare mx my) in H;
        destruct (Pos.compare_spec mx my) as [Em|Em|Em]; try discriminate;
        now repeat split. }
    destruct E as (-> & -> & ->). now exists sy, my, ey.
Qed.

Lemma fsub_same (s : bool) (m : positive) (e : Z) :
  fsub (S754_finite s m e) (S754_finite s m e) = S754_zero false.
Proof.
  unfold fsub, SFsub. rewrite Z.min_id. unfold shl_align.
  rewrite Z.sub_diag. cbv iota. cbn [fst]. rewrite ?Z.sub_diag. reflexivity.
Qed.

Lemma SFcompare_same (s : bool) (m : positive) (e : Z) :
  SFcompare (S754_finite s m e) (S754_finite s m e) = Some Eq.
Proof.
  simpl. rewrite Z.compare_refl.
  change (Pos.compare_cont Eq m m) with (Pos.compare m m).
  rewrite Pos.compare_refl. now destruct s.
Qed.

(** A payment equal to a finite balance is not "more than the amount
    owed", and the difference is a zero. *)
Lemma equal_payment (payment owed : float) :
  SFeqb payment owed = true -> is_finite owed = true ->
  fgt payment owed = false /\ is_zero (fsub owed payment) = true.
Proof.
  intros He Hf.
  destruct (SFeqb_finite _ _ He Hf) as [[Hp Ho]|(s & m & e & -> & ->)].
  - destruct payment as [sp| | |]; try discriminate.
    destruct owed as [so| | |]; try discriminate.
    split; [reflexivity|]. destruct so, sp; reflexivity.
  - split; [|now rewrite fsub_same].
    unfold fgt, SFltb. now rewrite SFcompare_same.
Qed.

(** A negative amount is never more than a balance that is not
    negative. *)
Lemma negative_not_more (payment owed : float) :
  SFleb (S754_zero false) owed = true -> SFltb payment (S754_zero false) = true ->
  fgt payment owed = false.
Proof.
  unfold fgt, SFleb, SFltb.
  destruct payment as [sp|sp| |sp mp ep], owed as [so|so| |so mo eo]; simpl;
    try discriminate; try reflexivity;
    try (destruct sp; try discriminate; try reflexivity);
    try (destruct so; try discriminate; reflexivity).
Qed.

(** [acceptPayment] once the name is found and an amount is read. *)
Lemma acceptPayment_found
  (before after : list Boat) (b : Boat) (input nameBuffer s1 buffer s2 : string) :
  fgets MAX_NAME_LENGTH input = Some (nameBuffer, s1) ->
  no_match (chomp nameBuffer) before ->
  strcasecmp (name b) (chomp nameBuffer) = 0 ->
  fgets 50 s1 = Some (buffer, s2) ->
  acceptPayment (before ++ b :: after) input =
  if fgt (to_float (atof (cstring buffer))) (amountOwed b)
  then (before ++ b :: after, s2,
        [PromptName; PromptAmount; MoreThanOwed (amountOwed b)])
  else (before ++
          setAmountOwed (fsub (amountOwed b) (to_float (atof (cstring buffer)))) b
          :: after,
        s2, [PromptName; PromptAmount]).
Proof.
  intros Hn Hno Hb Ha. unfold acceptPayment.
  rewrite Hn, (findBoatByName_first _ _ _ _ Hno Hb), Ha, nth_error_middle.
  destruct (fgt _ _); [reflexivity|]. now rewrite update_at_middle.
Qed.

End Payments.

(** ** Text that is not a number *)

Section Permissive.








End Permissive.

(** ** Rounding a ratio to the nearest integer *)

Section RoundRatio.

Lemma loc_ratio_cases (a b : Z) :
  0 <= a -> 0 < b ->
  (a mod b = 0 /\ loc_ratio a b = loc_Exact) \/
  (0 < a mod b /\ 2 * (a mod b) < b /\ loc_ratio a b = loc_Inexact Lt) \/
  (0 < a mod b /\ 2 * (a mod b) = b /\ loc_ratio a b = loc_Inexact Eq) \/
  (b < 2 * (a mod b) /\ loc_ratio a b = loc_Inexact Gt).
Proof.
  intros Ha Hb. unfold loc_ratio.
  pose proof (Z.mod_pos_bound a b Hb) as Hr.
  destruct (Z.eqb_spec (a mod b) 0) as [E|E]; [now left|]. right.
  destruct (Z.compare_spec (2 * (a mod b)) b) as [C|C|C].
  - right. left. repeat split; [lia | exact C].
  - left. repeat split; [lia | exact C].
  - right. right. now split.
Qed.

Lemma round_ratio_spec (a b : Z) :
  0 <= a -> 0 < b ->
  a / b <= round_ratio a b <= a / b + 1 /\
  2 * Z.abs (round_ratio a b * b - a) <= b /\
  (2 * Z.abs (round_ratio a b * b - a) = b -> Z.even (round_ratio a b) = true).
Proof.
  intros Ha Hb. unfold round_ratio.
  pose proof (Z.div_mod a b ltac:(lia)) as E.
  pose proof (Z.mod_pos_bound a b Hb) as Hr.
  destruct (loc_ratio_cases a b Ha Hb) as [[R ->]|[(R1 & R2 & ->)|[(R1 & R2 & ->)|[R ->]]]];
    cbn [round_nearest_even].
  - repeat split; try lia.
  - repeat split; try lia.
  - destruct (Z.even (a / b)) eqn:Ev.
    + repeat split; try lia. intros _. exact Ev.
    + repeat split; try lia. intros _.
      rewrite Z.even_add, Ev. reflexivity.
  - repeat split; try lia.
Qed.

Lemma round_ratio_near (a b m : Z) :
  0 <= a -> 0 < b -> 2 * Z.abs (m * b - a) < b -> round_ratio a b = m.
Proof.
  intros Ha Hb Hm. destruct (round_ratio_spec a b Ha Hb) as (_ & H & _).
  revert H. generalize (round_ratio a b). intros m' H.
  assert (Z.abs (m' - m) * b < b) by nia. nia.
Qed.

Lemma round_ratio_exact (m b : Z) : 0 <= m -> 0 < b -> round_ratio (m * b) b = m.
Proof.
  intros Hm Hb. apply round_ratio_near; nia.
Qed.

Lemma shr_1_bits (q : Z) (r s : bool) :
  0 <= q ->
  shr_1 {| shr_m := q; shr_r := r; shr_s := s |} =
  {| shr_m := q / 2; shr_r := Z.odd q; shr_s := r || s |}.
Proof.
  intros Hq. rewrite <- Z.div2_div.
  destruct q as [|[p|p|]|p]; cbn [shr_1]; try lia; reflexivity.
Qed.

Lemma shr_1_ratio (a b : Z) :
  0 <= a -> 0 < b -> shr_1 (ratio_rec a b) = ratio_rec a (2 * b).
Proof.
  intros Ha Hb. unfold ratio_rec.
  pose proof (Z.div_mod a b ltac:(lia)) as E.
  pose proof (Z.mod_pos_bound a b Hb) as Hr.
  pose proof (Z.div_pos a b Ha Hb) as Hq.
  pose proof (Z.div_mod (a / b) 2 ltac:(lia)) as E2.
  pose proof (Z.mod_pos_bound (a / b) 2 ltac:(lia)) as Hr2.
  assert (D2 : a / (2 * b) = a / b / 2).
  { rewrite Z.mul_comm. symmetry. apply Z.div_div; lia. }
  assert (M2 : a mod (2 * b) = (a / b) mod 2 * b + a mod b).
  { symmetry. apply Z.mod_unique with (a / b / 2); [nia | nia]. }
  assert (Od : Z.odd (a / b) = ((a / b) mod 2 =? 1)).
  { rewrite Zodd_mod. reflexivity. }
  destruct (loc_ratio_cases a b Ha Hb) as [[R ->]|[(R1 & R2 & ->)|[(R1 & R2 & ->)|[R ->]]]];
    cbn [shr_record_of_loc]; rewrite shr_1_bits by exact Hq; cbn [orb];
    rewrite D2, Od; unfold loc_ratio; rewrite M2;
    destruct (Z.eqb_spec ((a / b) mod 2) 1) as [P|P];
    destruct (Z.eqb_spec ((a / b) mod 2 * b + a mod b) 0) as [Z0|Z0]; try nia;
    try (destruct (Z.compare_spec (2 * ((a / b) mod 2 * b + a mod b)) (2 * b));
         try nia; reflexivity);
    reflexivity.
Qed.

Lemma iter_shr_ratio (p : positive) (a b : Z) :
  0 <= a -> 0 < b ->
  iter_pos shr_1 p (ratio_rec a b) = ratio_rec a (b * 2 ^ Z.pos p).
Proof.
  intros Ha. revert b. induction p as [p IH|p IH|]; intros b Hb; cbn [iter_pos].
  - assert (P : 0 < 2 ^ Z.pos p) by (apply Z.pow_pos_nonneg; lia).
    rewrite shr_1_ratio by assumption.
    rewrite IH by lia. rewrite IH by nia.
    f_equal. change (Z.pos p~1) with (2 * Z.pos p + 1).
    rewrite Z.pow_add_r, Z.pow_mul_r, Z.pow_1_r by lia.
    replace (2 ^ 2) with 4 by reflexivity.
    replace (4 ^ Z.pos p) with (2 ^ Z.pos p * 2 ^ Z.pos p).
    + ring.
    + rewrite <- Z.pow_mul_l. reflexivity.
  - assert (P : 0 < 2 ^ Z.pos p) by (apply Z.pow_pos_nonneg; lia).
    rewrite IH by lia. rewrite IH by nia.
    f_equal. change (Z.pos p~0) with (2 * Z.pos p).
    rewrite Z.pow_mul_r by lia. replace (2 ^ 2) with 4 by reflexivity.
    replace (4 ^ Z.pos p) with (2 ^ Z.pos p * 2 ^ Z.pos p).
    + ring.
    + rewrite <- Z.pow_mul_l. reflexivity.
  - rewrite shr_1_ratio by assumption. f_equal. rewrite Z.pow_1_r. lia.
Qed.

End RoundRatio.

(** ** What [binary_round] returns *)

Section Rounding.

Variables prec emax : Z.
Hypothesis Hprec : 0 < prec.

Local Abbreviation fexp := (SpecFloat.fexp prec emax).
Local Abbreviation canonical := (canonical_mantissa prec emax).

Lemma shr_m_of_loc (m : Z) (l : location) : shr_m (shr_record_of_loc m l) = m.
Proof. destruct l as [|[]]; reflexivity. Qed.

Lemma loc_of_rec_of_loc (m : Z) (l : location) :
  loc_of_shr_record (shr_record_of_loc m l) = l.
Proof. destruct l as [|[]]; reflexivity. Qed.

Lemma ratio_rec_1 (m : Z) : ratio_rec m 1 = shr_record_of_loc m loc_Exact.
Proof.
  unfold ratio_rec, loc_ratio. now rewrite Z.div_1_r, Z.mod_1_r.
Qed.

Lemma shr_ratio (a b e n : Z) :
  0 <= a -> 0 < b -> 0 <= n ->
  shr (ratio_rec a b) e n = (ratio_rec a (b * 2 ^ n), e + n).
Proof.
  intros Ha Hb Hn. unfold shr. destruct n as [|p|p]; try lia.
  - now rewrite Z.pow_0_r, Z.mul_1_r, Z.add_0_r.
  - now rewrite iter_shr_ratio.
Qed.

Lemma binary_round_aux_ratio (s : bool) (a b ex : Z) :
  0 <= a -> 0 < b ->
  0 <= fexp (Zdigits2 (a / b) + ex) - ex ->
  binary_round_aux prec emax s (a / b) ex (loc_ratio a b) =
  normalize_rounded prec emax s
    (round_ratio a (b * 2 ^ (fexp (Zdigits2 (a / b) + ex) - ex)))
    (fexp (Zdigits2 (a / b) + ex)).
Proof.
  intros Ha Hb Hn. unfold binary_round_aux, normalize_rounded.
  unfold shr_fexp at 1. fold (ratio_rec a b).
  rewrite (shr_ratio a b ex _ Ha Hb Hn).
  unfold ratio_rec at 1 2. rewrite shr_m_of_loc, loc_of_rec_of_loc.
  fold (round_ratio a (b * 2 ^ (fexp (Zdigits2 (a / b) + ex) - ex))).
  replace (ex + (fexp (Zdigits2 (a / b) + ex) - ex))
    with (fexp (Zdigits2 (a / b) + ex)) by lia.
  reflexivity.
Qed.

Lemma digits2_pow (k : Z) (m : positive) :
  0 <= k -> Z.pos m = 2 ^ k -> Z.pos (digits2_pos m) = k + 1.
Proof.
  intros Hk E. apply digits2_unique. rewrite E.
  replace (k + 1 - 1) with k by lia. split; [lia|].
  apply Z.pow_lt_mono_r; lia.
Qed.

Lemma digits2_mul_pow (m m' : positive) (k : Z) :
  0 <= k -> Z.pos m' = Z.pos m * 2 ^ k ->
  Z.pos (digits2_pos m') = Z.pos (digits2_pos m) + k.
Proof.
  intros Hk E. apply digits2_unique. rewrite E.
  pose proof (digits2_bounds m) as [L U].
  assert (P : 0 < 2 ^ k) by (apply Z.pow_pos_nonneg; lia).
  replace (Z.pos (digits2_pos m) + k - 1) with (Z.pos (digits2_pos m) - 1 + k) by lia.
  rewrite !Z.pow_add_r by lia. split; nia.
Qed.

Lemma canonical_unique (m m' : positive) (e e' : Z) :
  canonical m e = true -> canonical m' e' = true ->
  e' <= e -> Z.pos m' = Z.pos m * 2 ^ (e - e') ->
  e = e' /\ m = m'.
Proof.
  unfold canonical_mantissa. intros C C' He E.
  apply Z.eqb_eq in C, C'.
  pose proof (digits2_mul_pow m m' (e - e') ltac:(lia) E) as D.
  assert (Ee : e = e').
  { rewrite <- C, <- C'. f_equal. lia. }
  split; [exact Ee|]. subst e'. rewrite Z.sub_diag, Z.pow_0_r in E. lia.
Qed.

Lemma normalize_rounded_zero (s : bool) (e : Z) :
  normalize_rounded prec emax s 0 e = S754_zero s.
Proof.
  unfold normalize_rounded, shr_fexp. rewrite <- ratio_rec_1.
  destruct (Z.le_gt_cases 0 (fexp (Zdigits2 0 + e) - e)) as [H|H].
  - rewrite shr_ratio by lia. unfold ratio_rec. rewrite shr_m_of_loc.
    now rewrite Z.div_0_l by (apply Z.neq_mul_0; split;
      [lia | apply Z.pow_nonzero; lia]).
  - unfold shr. destruct (fexp (Zdigits2 0 + e) - e); try lia. reflexivity.
Qed.

Lemma normalize_rounded_spec (s : bool) (q mr e1 : Z) :
  0 <= q -> q <= mr <= q + 1 ->
  fexp (Z.max 1 (Zdigits2 q) + e1) = e1 ->
  (mr = 0 /\ normalize_rounded prec emax s mr e1 = S754_zero s) \/
  exists m e,
    mr = Z.pos m * 2 ^ (e - e1) /\ e1 <= e <= e1 + 1 /\
    canonical m e = true /\
    normalize_rounded prec emax s mr e1 =
      if e <=? emax - prec then S754_finite s m e else S754_infinity s.
Proof.
  intros Hq Hmr Hc.
  destruct mr as [|mp|mp]; [left; split; [reflexivity | apply normalize_rounded_zero]| |lia].
  right.
  set (dq := Z.max 1 (Zdigits2 q)) in *.
  assert (Hd : Z.pos (digits2_pos mp) = dq \/
               (Z.pos (digits2_pos mp) = dq + 1 /\ Z.pos mp = 2 ^ dq)).
  { destruct q as [|qp|qp]; try lia.
    - assert (mp = 1%positive) by lia. subst mp. left. reflexivity.
    - cbn [Zdigits2] in dq.
      assert (dq = Z.pos (digits2_pos qp)) by lia.
      pose proof (digits2_bounds qp) as [L U]. rewrite <- H in L, U.
      destruct (Z.eq_dec (Z.pos mp) (2 ^ dq)) as [E|E].
      + right. split; [|exact E]. apply digits2_pow; lia.
      + left. apply digits2_unique. lia. }
  unfold normalize_rounded, shr_fexp. cbn [Zdigits2].
  set (n2 := fexp (Z.pos (digits2_pos mp) + e1) - e1).
  assert (Hn2 : n2 = 0 \/ (n2 = 1 /\ Z.pos mp = 2 ^ dq /\
                           Z.pos (digits2_pos mp) = dq + 1)).
  { destruct Hd as [Hd|[Hd Hp]].
    - left. unfold n2. rewrite Hd, Hc. lia.
    - unfold n2. rewrite Hd. revert Hc. unfold SpecFloat.fexp. lia. }
  destruct Hn2 as [Hn2|(Hn2 & Hp & Hd')].
  - exists mp, e1. rewrite Z.sub_diag, Z.pow_0_r, Z.mul_1_r.
    split; [reflexivity|]. split; [lia|].
    assert (C : canonical mp e1 = true).
    { unfold canonical_mantissa. apply Z.eqb_eq. unfold n2 in Hn2. lia. }
    split; [exact C|]. rewrite Hn2. cbn [shr shr_record_of_loc shr_m]. reflexivity.
  - assert (Hdq : 1 <= dq) by lia.
    assert (Em : Z.pos mp / 2 = 2 ^ (dq - 1)).
    { rewrite Hp. replace dq with (dq - 1 + 1) at 1 by lia.
      rewrite Z.pow_add_r, Z.pow_1_r by lia. apply Z.div_mul. lia. }
    assert (Pp : 0 < 2 ^ (dq - 1)) by (apply Z.pow_pos_nonneg; lia).
    destruct (2 ^ (dq - 1)) as [|m2|m2] eqn:E2; try lia.
    exists m2, (e1 + 1). replace (e1 + 1 - e1) with 1 by lia. rewrite Z.pow_1_r.
    split.
    { rewrite Hp. replace dq with (dq - 1 + 1) at 1 by lia.
      rewrite Z.pow_add_r, Z.pow_1_r, E2 by lia. reflexivity. }
    split; [lia|].
    assert (D2 : Z.pos (digits2_pos m2) = dq).
    { replace dq with (dq - 1 + 1) by lia. apply digits2_pow; [lia|]. now rewrite E2. }
    assert (C : canonical m2 (e1 + 1) = true).
    { unfold canonical_mantissa. apply Z.eqb_eq. rewrite D2.
      unfold n2 in Hn2. rewrite Hd' in Hn2.
      replace (dq + (e1 + 1)) with (dq + 1 + e1) by lia. lia. }
    split; [exact C|].
    rewrite Hn2, <- ratio_rec_1, shr_ratio by lia.
    unfold ratio_rec. rewrite shr_m_of_loc.
    replace (1 * 2 ^ 1) with 2 by reflexivity. rewrite Em. reflexivity.
Qed.

Lemma digits_shr_z (m : positive) (n : Z) :
  0 <= n ->
  (Z.pos m / 2 ^ n = 0 /\ Z.pos (digits2_pos m) <= n) \/
  (0 < Z.pos m / 2 ^ n /\
   Zdigits2 (Z.pos m / 2 ^ n) = Z.pos (digits2_pos m) - n).
Proof.
  intros Hn. assert (P : 0 < 2 ^ n) by (apply Z.pow_pos_nonneg; lia).
  pose proof (Z.div_pos (Z.pos m) (2 ^ n) ltac:(lia) P) as Hq.
  destruct (Z.pos m / 2 ^ n) as [|q|q] eqn:E; try lia.
  - left. split; [reflexivity|].
    apply Z.div_small_iff in E; [|lia]. destruct E as [E|E]; [|lia].
    pose proof (digits2_bounds m) as [L _].
    assert (2 ^ (Z.pos (digits2_pos m) - 1) < 2 ^ n) by lia.
    apply Z.pow_lt_mono_r_iff in H; lia.
  - right. split; [lia|]. cbn [Zdigits2]. now apply (digits2_shr m q n).
Qed.

Lemma binary_round_aux_spec (s : bool) (a b ex : Z) :
  0 < b -> b <= a ->
  0 <= fexp (Zdigits2 (a / b) + ex) - ex ->
  let e1 := fexp (Zdigits2 (a / b) + ex) in
  let mr := round_ratio a (b * 2 ^ (e1 - ex)) in
  let r := binary_round_aux prec emax s (a / b) ex (loc_ratio a b) in
  (mr = 0 /\ r = S754_zero s) \/
  exists m e,
    mr = Z.pos m * 2 ^ (e - e1) /\ e1 <= e <= e1 + 1 /\
    canonical m e = true /\
    r = if e <=? emax - prec then S754_finite s m e else S754_infinity s.
Proof.
  intros Hb Hab Hn e1 mr r. unfold r.
  rewrite binary_round_aux_ratio by lia. fold e1. fold mr.
  assert (P : 0 < 2 ^ (e1 - ex)) by (apply Z.pow_pos_nonneg; unfold e1; lia).
  assert (HB : 0 < b * 2 ^ (e1 - ex)) by nia.
  destruct (round_ratio_spec a (b * 2 ^ (e1 - ex)) ltac:(lia) HB) as (Hq & _).
  fold mr in Hq.
  apply (normalize_rounded_spec s (a / (b * 2 ^ (e1 - ex))) mr e1).
  - apply Z.div_pos; lia.
  - exact Hq.
  - rewrite <- Z.div_div by lia.
    assert (Hmx : 0 < a / b) by (apply Z.div_str_pos; lia).
    destruct (a / b) as [|mx|mx] eqn:Emx; try lia.
    destruct (digits_shr_z mx (e1 - ex) ltac:(unfold e1; lia)) as [[Z0 D]|[Pq D]].
    + rewrite Z0. cbn [Zdigits2]. replace (Z.max 1 0) with 1 by lia.
      cbn [Zdigits2] in e1.
      assert (e1 = emin prec emax).
      { revert D. unfold e1, SpecFloat.fexp. lia. }
      rewrite H. unfold SpecFloat.fexp. lia.
    + rewrite D. cbn [Zdigits2] in e1.
      assert (1 <= Z.pos (digits2_pos mx) - (e1 - ex)).
      { rewrite <- D. destruct (Z.pos mx / 2 ^ (e1 - ex)) as [|q|q]; try lia.
        cbn [Zdigits2]. lia. }
      rewrite Z.max_r by lia.
      replace (Z.pos (digits2_pos mx) - (e1 - ex) + e1)
        with (Z.pos (digits2_pos mx) + ex) by lia.
      reflexivity.
Qed.

Lemma binary_round_aux_error (s s' : bool) (a b ex : Z) (m : positive) (e : Z) :
  0 < b -> b <= a ->
  0 <= fexp (Zdigits2 (a / b) + ex) - ex ->
  binary_round_aux prec emax s (a / b) ex (loc_ratio a b) = S754_finite s' m e ->
  s' = s /\ canonical m e = true /\ e <= emax - prec /\
  fexp (Zdigits2 (a / b) + ex) <= e <= fexp (Zdigits2 (a / b) + ex) + 1 /\
  2 * Z.abs (Z.pos m * 2 ^ (e - ex) * b - a) <= b * 2 ^ (e - ex).
Proof.
  intros Hb Hab Hn Hr.
  destruct (binary_round_aux_spec s a b ex Hb Hab Hn)
    as [[_ R]|(m1 & e1 & Hm & He & C & R)]; rewrite R in Hr; [discriminate|].
  destruct (Z.leb_spec e1 (emax - prec)) as [Le|Le]; [|discriminate].
  injection Hr as <- <- <-.
  split; [reflexivity|]. split; [exact C|]. split; [exact Le|]. split; [exact He|].
  set (e0 := fexp (Zdigits2 (a / b) + ex)) in *.
  assert (PY : 0 < 2 ^ (e0 - ex)) by (apply Z.pow_pos_nonneg; lia).
  assert (PX : 1 <= 2 ^ (e1 - e0)).
  { assert (0 < 2 ^ (e1 - e0)) by (apply Z.pow_pos_nonneg; lia). lia. }
  destruct (round_ratio_spec a (b * 2 ^ (e0 - ex)) ltac:(lia) ltac:(nia))
    as (_ & H & _).
  rewrite Hm in H.
  replace (e1 - ex) with ((e1 - e0) + (e0 - ex)) by lia.
  rewrite Z.pow_add_r by lia.
  revert H PX PY. generalize (2 ^ (e1 - e0)) (2 ^ (e0 - ex)). intros X Y H PX PY.
  replace (Z.pos m1 * (X * Y) * b - a) with (Z.pos m1 * X * (b * Y) - a) by ring.
  nia.
Qed.

Lemma binary_round_aux_hit (s : bool) (a b ex : Z) (m0 : positive) (e0 : Z) :
  0 < b -> canonical m0 e0 = true -> e0 <= emax - prec -> ex <= e0 ->
  2 ^ (Z.pos (digits2_pos m0) - 1) * 2 ^ (e0 - ex) * b <= a
    < 2 ^ Z.pos (digits2_pos m0) * 2 ^ (e0 - ex) * b ->
  2 * Z.abs (Z.pos m0 * 2 ^ (e0 - ex) * b - a) < b * 2 ^ (e0 - ex) ->
  binary_round_aux prec emax s (a / b) ex (loc_ratio a b) = S754_finite s m0 e0.
Proof.
  intros Hb C0 Hmax Hex [Hl Hu] Hnear.
  set (d0 := Z.pos (digits2_pos m0)) in *.
  assert (PY : 0 < 2 ^ (e0 - ex)) by (apply Z.pow_pos_nonneg; lia).
  assert (P1 : 0 < 2 ^ (d0 - 1)) by (apply Z.pow_pos_nonneg; unfold d0; lia).
  assert (Hq : 2 ^ (d0 + (e0 - ex) - 1) <= a / b < 2 ^ (d0 + (e0 - ex))).
  { split.
    - apply Z.div_le_lower_bound; [lia|].
      replace (d0 + (e0 - ex) - 1) with (d0 - 1 + (e0 - ex)) by lia.
      rewrite Z.pow_add_r by (unfold d0; lia). lia.
    - apply Z.div_lt_upper_bound; [lia|].
      rewrite Z.pow_add_r by (unfold d0; lia). lia. }
  assert (Hab : b <= a) by nia.
  assert (Hpos : 0 < a / b).
  { assert (0 < 2 ^ (d0 + (e0 - ex) - 1))
      by (apply Z.pow_pos_nonneg; unfold d0; lia). lia. }
  destruct (a / b) as [|mx|mx] eqn:Emx; try lia.
  pose proof (digits2_unique mx _ Hq) as Dx.
  assert (E1 : fexp (Zdigits2 (Z.pos mx) + ex) = e0).
  { cbn [Zdigits2]. rewrite Dx. unfold canonical_mantissa in C0.
    apply Z.eqb_eq in C0. rewrite <- C0 at 2. f_equal. unfold d0. lia. }
  rewrite <- Emx in E1 |- *.
  destruct (binary_round_aux_spec s a b ex Hb Hab ltac:(rewrite E1; lia))
    as [[Z0 _]|(m1 & e1 & Hm & He & C & R)];
    rewrite E1 in *;
    rewrite (round_ratio_near a (b * 2 ^ (e0 - ex)) (Z.pos m0)) in *
      by (try lia; try nia;
          replace (Z.pos m0 * (b * 2 ^ (e0 - ex))) with (Z.pos m0 * 2 ^ (e0 - ex) * b)
            by ring; lia);
    [lia|].
  destruct (canonical_unique m1 m0 e1 e0 C C0 ltac:(lia) Hm) as [-> ->].
  rewrite R. destruct (Z.leb_spec e0 (emax - prec)); [reflexivity | lia].
Qed.

Lemma shl_align_spec (m : positive) (e e1 : Z) :
  exists mz,
    shl_align m e e1 = (mz, Z.min e e1) /\
    Z.pos mz = Z.pos m * 2 ^ (e - Z.min e e1) /\
    Z.pos (digits2_pos mz) + Z.min e e1 = Z.pos (digits2_pos m) + e.
Proof.
  unfold shl_align. destruct (e1 - e) as [|d|d] eqn:E.
  - exists m. rewrite Z.min_l by lia. rewrite Z.sub_diag, Z.pow_0_r.
    repeat split; lia.
  - exists m. rewrite Z.min_l by lia. rewrite Z.sub_diag, Z.pow_0_r.
    repeat split; lia.
  - exists (Pos.iter xO m d). rewrite Z.min_r by lia.
    split; [reflexivity|]. rewrite iter_xO, digits2_iter_xO.
    replace (e - e1) with (Z.pos d) by lia. split; lia.
Qed.

Lemma loc_ratio_1 (a : Z) : loc_ratio a 1 = loc_Exact.
Proof. unfold loc_ratio. now rewrite Z.mod_1_r. Qed.

Lemma binary_round_error (s s' : bool) (m m' : positive) (e e' : Z) :
  binary_round prec emax s m e = S754_finite s' m' e' ->
  let e1 := fexp (Z.pos (digits2_pos m) + e) in
  let el := Z.min e e1 in
  s' = s /\ canonical m' e' = true /\ e' <= emax - prec /\
  e1 <= e' <= e1 + 1 /\
  2 * Z.abs (Z.pos m' * 2 ^ (e' - el) - Z.pos m * 2 ^ (e - el)) <= 2 ^ (e' - el).
Proof.
  intros Hr e1 el. unfold binary_round in Hr. fold e1 in Hr.
  destruct (shl_align_spec m e e1) as (mz & Es & Ez & Dz).
  rewrite Es in Hr. fold el in Ez, Dz, Hr.
  rewrite <- (Z.div_1_r (Z.pos mz)), <- (loc_ratio_1 (Z.pos mz)) in Hr.
  assert (Hn : fexp (Zdigits2 (Z.pos mz / 1) + el) = e1).
  { rewrite Z.div_1_r. cbn [Zdigits2]. rewrite Dz. reflexivity. }
  apply binary_round_aux_error in Hr; [|lia|lia|rewrite Hn; unfold el; lia].
  rewrite Hn in Hr. destruct Hr as (-> & C & Le & He & Hb).
  rewrite Z.mul_1_r, Z.mul_1_l, Ez in Hb.
  repeat split; try assumption; lia.
Qed.

Lemma binary_round_hit (s : bool) (m : positive) (e : Z) (m0 : positive) (e0 : Z) :
  canonical m0 e0 = true -> e0 <= emax - prec ->
  let el := Z.min e e0 in
  2 ^ (Z.pos (digits2_pos m0) - 1) * 2 ^ (e0 - el) <= Z.pos m * 2 ^ (e - el)
    < 2 ^ Z.pos (digits2_pos m0) * 2 ^ (e0 - el) ->
  2 * Z.abs (Z.pos m0 * 2 ^ (e0 - el) - Z.pos m * 2 ^ (e - el)) < 2 ^ (e0 - el) ->
  binary_round prec emax s m e = S754_finite s m0 e0.
Proof.
  intros C0 Hmax el Hbin Hnear.
  set (d0 := Z.pos (digits2_pos m0)) in *.
  assert (E1 : fexp (Z.pos (digits2_pos m) + e) = e0).
  { assert (Pe : 0 < 2 ^ (e - el)) by (apply Z.pow_pos_nonneg; unfold el; lia).
    destruct (Z.pos m * 2 ^ (e - el)) as [|mm|mm] eqn:Emm; try lia.
    symmetry in Emm.
    pose proof (digits2_mul_pow m mm (e - el) ltac:(unfold el; lia) Emm) as D1.
    assert (D2 : Z.pos (digits2_pos mm) = d0 + (e0 - el)).
    { apply digits2_unique.
      replace (d0 + (e0 - el) - 1) with (d0 - 1 + (e0 - el)) by lia.
      rewrite !Z.pow_add_r by (unfold d0, el; lia). lia. }
    unfold canonical_mantissa in C0. apply Z.eqb_eq in C0.
    rewrite <- C0. f_equal. fold d0. lia. }
  unfold binary_round. rewrite E1.
  destruct (shl_align_spec m e e0) as (mz & Es & Ez & Dz).
  rewrite Es. fold el in Ez, Dz |- *.
  rewrite <- (Z.div_1_r (Z.pos mz)), <- (loc_ratio_1 (Z.pos mz)).
  apply binary_round_aux_hit; try assumption; try (unfold el; lia);
    rewrite ?Z.mul_1_r, ?Z.mul_1_l, Ez; assumption.
Qed.

End Rounding.

(** ** The quotient of two integers *)

Section Division.

Variables prec emax : Z.
Hypothesis Hprec : 0 < prec.

Local Abbreviation fexp := (SpecFloat.fexp prec emax).
Local Abbreviation canonical := (canonical_mantissa prec emax).

Lemma new_location_ratio (a b : Z) :
  0 < b -> new_location b (a mod b) = loc_ratio a b.
Proof.
  intros Hb. pose proof (Z.mod_pos_bound a b Hb) as Hr.
  unfold new_location, new_location_even, new_location_odd, loc_ratio.
  destruct (Z.even b) eqn:Ev; [reflexivity|].
  destruct (Z.eqb_spec (a mod b) 0); [reflexivity|]. f_equal.
  assert (Ho : Z.odd b = true) by (rewrite <- Z.negb_even, Ev; reflexivity).
  apply Z.odd_spec in Ho as [k Hk].
  destruct (Z.compare_spec (2 * (a mod b) + 1) b);
    destruct (Z.compare_spec (2 * (a mod b)) b); try reflexivity; lia.
Qed.

Lemma Zdigits2_lt (x k : Z) : 0 < x < 2 ^ k -> Zdigits2 x <= k.
Proof.
  intros [H0 Hk]. destruct x as [|p|p]; try lia. cbn [Zdigits2].
  pose proof (digits2_bounds p) as [L _].
  destruct (Z.le_gt_cases (Z.pos (digits2_pos p)) k) as [H|H]; [exact H|].
  assert (2 ^ k <= 2 ^ (Z.pos (digits2_pos p) - 1))
    by (apply Z.pow_le_mono_r; lia).
  lia.
Qed.

Lemma Zdigits2_ge (x k : Z) : 0 <= k -> 2 ^ k <= x -> k + 1 <= Zdigits2 x.
Proof.
  intros Hk H. assert (0 < 2 ^ k) by (apply Z.pow_pos_nonneg; lia).
  destruct x as [|p|p]; try lia. cbn [Zdigits2].
  pose proof (digits2_ge_pow p k Hk H). lia.
Qed.

Lemma SFdiv_int (s1 s2 : bool) (m1 m2 : positive) :
  let e' := Z.min (fexp (Z.pos (digits2_pos m1) - Z.pos (digits2_pos m2))) 0 in
  SFdiv prec emax (S754_finite s1 m1 0) (S754_finite s2 m2 0) =
  binary_round_aux prec emax (xorb s1 s2)
    (Z.pos m1 * 2 ^ (- e') / Z.pos m2) e'
    (loc_ratio (Z.pos m1 * 2 ^ (- e')) (Z.pos m2)).
Proof.
  intros e'. unfold SFdiv, SFdiv_core_binary. cbn [Zdigits2].
  rewrite !Z.add_0_r. change (0 - 0) with 0. fold e'.
  assert (He : e' <= 0) by (unfold e'; lia).
  assert (Em : match 0 - e' with
               | 0 => Z.pos m1
               | Z.pos _ => Z.shiftl (Z.pos m1) (0 - e')
               | Z.neg _ => 0
               end = Z.pos m1 * 2 ^ (- e')).
  { destruct (0 - e') as [|p|p] eqn:E; try lia.
    - replace (- e') with 0 by lia. rewrite Z.pow_0_r. lia.
    - rewrite Z.shiftl_mul_pow2 by lia. f_equal. f_equal. lia. }
  rewrite Em.
  rewrite <- (new_location_ratio (Z.pos m1 * 2 ^ (- e')) (Z.pos m2)) by lia.
  unfold Z.div, Z.modulo.
  destruct (Z.div_eucl (Z.pos m1 * 2 ^ (- e')) (Z.pos m2)) as [q r]. reflexivity.
Qed.

Lemma SFdiv_int_pre (m1 m2 : positive) :
  SpecFloat.emin prec emax <=
    Z.pos (digits2_pos m1) - Z.pos (digits2_pos m2) - prec ->
  let e' := Z.min (fexp (Z.pos (digits2_pos m1) - Z.pos (digits2_pos m2))) 0 in
  Z.pos m2 <= Z.pos m1 * 2 ^ (- e') /\
  0 <= fexp (Zdigits2 (Z.pos m1 * 2 ^ (- e') / Z.pos m2) + e') - e' /\
  Z.pos (digits2_pos m1) - Z.pos (digits2_pos m2) <=
    Zdigits2 (Z.pos m1 * 2 ^ (- e') / Z.pos m2) + e'.
Proof.
  intros Hnu e'.
  set (d1 := Z.pos (digits2_pos m1)) in *. set (d2 := Z.pos (digits2_pos m2)) in *.
  assert (Ef : fexp (d1 - d2) = d1 - d2 - prec) by (unfold SpecFloat.fexp; lia).
  assert (He : e' <= 0) by (unfold e'; lia).
  set (k := d1 - 1 - e' - d2).
  assert (Hk : 0 <= k) by (unfold k, e'; rewrite Ef; lia).
  pose proof (digits2_bounds m1) as [L1 _]. pose proof (digits2_bounds m2) as [_ U2].
  fold d1 in L1. fold d2 in U2.
  assert (Hq : 2 ^ k * Z.pos m2 <= Z.pos m1 * 2 ^ (- e')).
  { assert (P : 0 < 2 ^ (- e')) by (apply Z.pow_pos_nonneg; lia).
    assert (Pk : 0 < 2 ^ k) by (apply Z.pow_pos_nonneg; lia).
    assert (E : 2 ^ k * 2 ^ d2 = 2 ^ (d1 - 1) * 2 ^ (- e')).
    { rewrite <- !Z.pow_add_r by (unfold d1, d2; lia). f_equal. unfold k. lia. }
    nia. }
  assert (Pk : 0 < 2 ^ k) by (apply Z.pow_pos_nonneg; lia).
  split; [nia|].
  assert (Hd : 2 ^ k <= Z.pos m1 * 2 ^ (- e') / Z.pos m2)
    by (apply Z.div_le_lower_bound; lia).
  pose proof (Zdigits2_ge _ k Hk Hd) as D.
  assert (fexp (d1 - d2) <= fexp (Zdigits2 (Z.pos m1 * 2 ^ (- e') / Z.pos m2) + e')).
  { unfold SpecFloat.fexp. unfold k in D. lia. }
  assert (He2 : e' <= fexp (d1 - d2)) by (unfold e'; lia).
  split; [lia|]. unfold k in D. lia.
Qed.

Lemma SFdiv_int_error (s1 s2 s' : bool) (m1 m2 m : positive) (e : Z) :
  SpecFloat.emin prec emax <=
    Z.pos (digits2_pos m1) - Z.pos (digits2_pos m2) - prec ->
  SFdiv prec emax (S754_finite s1 m1 0) (S754_finite s2 m2 0) = S754_finite s' m e ->
  let e' := Z.min (fexp (Z.pos (digits2_pos m1) - Z.pos (digits2_pos m2))) 0 in
  let q := Z.pos m1 * 2 ^ (- e') / Z.pos m2 in
  s' = xorb s1 s2 /\ canonical m e = true /\ e <= emax - prec /\
  fexp (Zdigits2 q + e') <= e <= fexp (Zdigits2 q + e') + 1 /\
  e' <= e /\
  2 * Z.abs (Z.pos m * 2 ^ (e - e') * Z.pos m2 - Z.pos m1 * 2 ^ (- e'))
    <= Z.pos m2 * 2 ^ (e - e').
Proof.
  intros Hnu Hr e' q. rewrite SFdiv_int in Hr. fold e' in Hr.
  destruct (SFdiv_int_pre m1 m2 Hnu) as (Hab & Hn & _). fold e' in Hab, Hn.
  apply binary_round_aux_error in Hr; try assumption; try lia.
  fold q in Hr, Hn. destruct Hr as (-> & C & Le & He & Hb).
  repeat split; try assumption; lia.
Qed.

Lemma SFdiv_int_hit (s1 s2 : bool) (m1 m2 m0 : positive) (e0 : Z) :
  canonical m0 e0 = true -> e0 <= emax - prec ->
  let e' := Z.min (fexp (Z.pos (digits2_pos m1) - Z.pos (digits2_pos m2))) 0 in
  e' <= e0 ->
  2 ^ (Z.pos (digits2_pos m0) - 1) * 2 ^ (e0 - e') * Z.pos m2
    <= Z.pos m1 * 2 ^ (- e')
    < 2 ^ Z.pos (digits2_pos m0) * 2 ^ (e0 - e') * Z.pos m2 ->
  2 * Z.abs (Z.pos m0 * 2 ^ (e0 - e') * Z.pos m2 - Z.pos m1 * 2 ^ (- e'))
    < Z.pos m2 * 2 ^ (e0 - e') ->
  SFdiv prec emax (S754_finite s1 m1 0) (S754_finite s2 m2 0) =
    S754_finite (xorb s1 s2) m0 e0.
Proof.
  intros C0 Hmax e' He Hbin Hnear. rewrite SFdiv_int. fold e'.
  apply binary_round_aux_hit; try assumption; lia.
Qed.

Lemma SFdiv_int_finite (s1 s2 : bool) (m1 m2 : positive) (K : Z) :
  SpecFloat.emin prec emax <=
    Z.pos (digits2_pos m1) - Z.pos (digits2_pos m2) - prec ->
  0 <= K -> Z.pos m1 < 2 ^ K * Z.pos m2 ->
  fexp K + 1 <= emax - prec ->
  exists m e,
    SFdiv prec emax (S754_finite s1 m1 0) (S754_finite s2 m2 0) =
      S754_finite (xorb s1 s2) m e /\ e <= fexp K + 1.
Proof.
  intros Hnu HK Hlt Hfin. rewrite SFdiv_int.
  destruct (SFdiv_int_pre m1 m2 Hnu) as (Hab & Hn & Hd).
  set (e' := Z.min (fexp (Z.pos (digits2_pos m1) - Z.pos (digits2_pos m2))) 0) in *.
  set (a := Z.pos m1 * 2 ^ (- e')) in *.
  assert (He : e' <= 0) by (unfold e'; lia).
  assert (P : 0 < 2 ^ (- e')) by (apply Z.pow_pos_nonneg; lia).
  assert (Hq0 : 0 < a / Z.pos m2) by (apply Z.div_str_pos; lia).
  assert (Hqk : a / Z.pos m2 < 2 ^ (K - e')).
  { apply Z.div_lt_upper_bound; [lia|].
    replace (K - e') with (K + - e') by lia. rewrite Z.pow_add_r by lia.
    unfold a. nia. }
  pose proof (Zdigits2_lt _ _ (conj Hq0 Hqk)) as Dq.
  set (e1 := fexp (Zdigits2 (a / Z.pos m2) + e')) in *.
  assert (He1 : e1 <= fexp K) by (unfold e1, SpecFloat.fexp; lia).
  destruct (binary_round_aux_spec prec emax Hprec (xorb s1 s2) a (Z.pos m2) e'
              ltac:(lia) Hab Hn) as [[Z0 _]|(m & e & Hm & Hee & C & R)].
  - exfalso. fold e1 in Z0.
    assert (PB : 0 < 2 ^ (e1 - e')) by (apply Z.pow_pos_nonneg; lia).
    destruct (round_ratio_spec a (Z.pos m2 * 2 ^ (e1 - e')) ltac:(lia) ltac:(nia))
      as ([Hl _] & _).
    rewrite Z0 in Hl. rewrite <- Z.div_div in Hl by lia.
    destruct (a / Z.pos m2) as [|q|q] eqn:Eq; try lia.
    destruct (digits_shr_z q (e1 - e') ltac:(lia)) as [[_ D]|[Pq _]]; [|lia].
    cbn [Zdigits2] in e1, Dq, Hd.
    unfold e1, SpecFloat.fexp in D. lia.
  - exists m, e. rewrite R. fold e1 in Hee. split; [|lia].
    destruct (Z.leb_spec e (emax - prec)); [reflexivity | lia].
Qed.

End Division.

(** ** From [double] to [float] *)

Section PrintAndRead.

Local Abbreviation canonical32 := (canonical_mantissa prec32 emax32).
Local Abbreviation canonical64 := (canonical_mantissa prec64 emax64).

Lemma fexp32_eq (k : Z) : SpecFloat.fexp prec32 emax32 k = Z.max (k - 24) (-149).
Proof. reflexivity. Qed.

Lemma fexp64_eq (k : Z) : SpecFloat.fexp prec64 emax64 k = Z.max (k - 53) (-1074).
Proof. reflexivity. Qed.

Lemma canonical32_eq (m : positive) (e : Z) :
  canonical32 m e = true -> e = Z.max (Z.pos (digits2_pos m) + e - 24) (-149).
Proof. unfold canonical_mantissa. rewrite fexp32_eq. intros H. apply Z.eqb_eq in H. lia. Qed.

Lemma canonical64_eq (m : positive) (e : Z) :
  canonical64 m e = true -> e = Z.max (Z.pos (digits2_pos m) + e - 53) (-1074).
Proof. unfold canonical_mantissa. rewrite fexp64_eq. intros H. apply Z.eqb_eq in H. lia. Qed.

(** Rounding a [double] to [float]: the result is within half a unit of
    its last place. *)
Lemma to_float_error (s s' : bool) (mz my : positive) (ez ey : Z) :
  canonical64 mz ez = true ->
  to_float (S754_finite s mz ez) = S754_finite s' my ey ->
  s' = s /\ canonical32 my ey = true /\ ey <= 104 /\ ez + 2 <= ey /\
  2 * Z.abs (Z.pos my * 2 ^ (ey - ez) - Z.pos mz) <= 2 ^ (ey - ez).
Proof.
  intros Cz Hy. cbn [to_float] in Hy.
  apply (binary_round_error prec32 emax32 ltac:(reflexivity)) in Hy.
  apply canonical64_eq in Cz. rewrite fexp32_eq in Hy.
  destruct Hy as (-> & C & Le & He & Hb).
  assert (El : Z.min ez (Z.max (Z.pos (digits2_pos mz) + ez - 24) (-149)) = ez) by lia.
  rewrite El in Hb. rewrite Z.sub_diag, Z.pow_0_r, Z.mul_1_r in Hb.
  change (emax32 - prec32) with 104 in Le.
  repeat split; try assumption; lia.
Qed.

Lemma to_float_hit (s : bool) (mz my : positive) (ez ey : Z) :
  canonical32 my ey = true -> ey <= 104 -> ez <= ey ->
  2 ^ (Z.pos (digits2_pos my) - 1) * 2 ^ (ey - ez) <= Z.pos mz
    < 2 ^ Z.pos (digits2_pos my) * 2 ^ (ey - ez) ->
  2 * Z.abs (Z.pos my * 2 ^ (ey - ez) - Z.pos mz) < 2 ^ (ey - ez) ->
  to_float (S754_finite s mz ez) = S754_finite s my ey.
Proof.
  intros C Le Hez Hbin Hnear. cbn [to_float].
  apply (binary_round_hit prec32 emax32 ltac:(reflexivity)); try assumption.
  - rewrite Z.min_l by lia. rewrite Z.sub_diag, Z.pow_0_r, Z.mul_1_r. exact Hbin.
  - rewrite Z.min_l by lia. rewrite Z.sub_diag, Z.pow_0_r, Z.mul_1_r. exact Hnear.
Qed.

(** A [float] with a full mantissa, seen as a [double]. *)
Lemma to_float_of_double_rep (s : bool) (my : positive) (ey : Z) (mz : positive) :
  canonical32 my ey = true -> ey <= 104 ->
  Z.pos mz = Z.pos my * 2 ^ 29 ->
  to_float (S754_finite s mz (ey - 29)) = S754_finite s my ey.
Proof.
  intros C Le E. apply to_float_hit; try assumption; try lia.
  - replace (ey - (ey - 29)) with 29 by lia. rewrite E.
    pose proof (digits2_bounds my) as [L U].
    assert (0 < 2 ^ 29) by reflexivity. nia.
  - replace (ey - (ey - 29)) with 29 by lia. rewrite E.
    replace (Z.pos my * 2 ^ 29 - Z.pos my * 2 ^ 29) with 0 by lia. reflexivity.
Qed.

Lemma double_rep_canonical (my mz : positive) (ey : Z) :
  canonical32 my ey = true -> -149 < ey ->
  Z.pos mz = Z.pos my * 2 ^ 29 ->
  canonical64 mz (ey - 29) = true /\ Z.pos (digits2_pos mz) = 53.
Proof.
  intros C Hn E. apply canonical32_eq in C.
  pose proof (digits2_mul_pow my mz 29 ltac:(lia) E) as D.
  split; [|lia]. unfold canonical_mantissa. rewrite fexp64_eq. apply Z.eqb_eq. lia.
Qed.

Lemma scaled_round_ratio (m : positive) (e : Z) (p : nat) :
  e < 0 ->
  scaled_round m e p =
    Z.to_N (round_ratio (Z.pos m * 10 ^ Z.of_nat p) (2 ^ (- e))).
Proof.
  intros He. unfold scaled_round.
  destruct (Z.leb_spec 0 e) as [H|_]; [lia|]. f_equal.
  set (num := Z.pos m * 10 ^ Z.of_nat p). set (den := 2 ^ (- e)).
  assert (Hd : 0 < den) by (apply Z.pow_pos_nonneg; lia).
  assert (Hn : 0 <= num).
  { unfold num. assert (0 < 10 ^ Z.of_nat p) by (apply Z.pow_pos_nonneg; lia). lia. }
  pose proof (Z.mod_pos_bound num den Hd) as Hr.
  unfold round_ratio.
  destruct (loc_ratio_cases num den Hn Hd)
    as [[R ->]|[(R1 & R2 & ->)|[(R1 & R2 & ->)|[R ->]]]];
    cbn [round_nearest_even].
  - destruct (Z.ltb_spec den (2 * (num mod den))); [lia|].
    destruct (Z.eqb_spec den (2 * (num mod den))); [lia|]. reflexivity.
  - destruct (Z.ltb_spec den (2 * (num mod den))); [lia|].
    destruct (Z.eqb_spec den (2 * (num mod den))); [lia|]. reflexivity.
  - destruct (Z.ltb_spec den (2 * (num mod den))); [lia|].
    destruct (Z.eqb_spec den (2 * (num mod den))); [|lia].
    cbn [orb andb]. rewrite <- Z.negb_even. now destruct (Z.even (num / den)).
  - destruct (Z.ltb_spec den (2 * (num mod den))); [|lia]. reflexivity.
Qed.

End PrintAndRead.

(** ** Small values are read back from their digits *)

Section SmallAmounts.

Local Abbreviation canonical32 := (canonical_mantissa prec32 emax32).
Local Abbreviation canonical64 := (canonical_mantissa prec64 emax64).
Local Abbreviation div100 s d :=
  (SFdiv prec64 emax64 (S754_finite s d 0) (S754_finite false 100 0)).

Lemma div100_nu (d : positive) :
  SpecFloat.emin prec64 emax64 <=
    Z.pos (digits2_pos d) - Z.pos (digits2_pos 100) - prec64.
Proof.
  change (SpecFloat.emin prec64 emax64) with (-1074).
  change (Z.pos (digits2_pos 100)) with 7. change prec64 with 53. lia.
Qed.

(** A small amount read from two decimals prints as these decimals. *)
Lemma read_cents_small (s s' : bool) (d my : positive) (ey : Z) :
  to_float (div100 s d) = S754_finite s' my ey -> ey <= -7 ->
  s' = s /\ scaled_round my ey 2 = Npos d.
Proof.
  intros Hy Hey.
  destruct (div100 s d) as [sz|sz| |sz mz ez] eqn:Ez; try discriminate.
  apply (SFdiv_int_error prec64 emax64 ltac:(reflexivity)) in Ez; [|apply div100_nu].
  destruct Ez as (Es & Cz & _ & _ & He' & E1).
  apply to_float_error in Hy; [|exact Cz].
  destruct Hy as (-> & Cy & _ & Hez & E2).
  split; [now rewrite Es, xorb_false_r|].
  rewrite scaled_round_ratio by lia. change (10 ^ Z.of_nat 2) with 100.
  set (e' := Z.min (SpecFloat.fexp prec64 emax64
                      (Z.pos (digits2_pos d) - Z.pos (digits2_pos 100))) 0) in *.
  assert (He0 : e' <= 0) by (unfold e'; lia).
  assert (Ep : 2 ^ (- e') = 2 ^ (ez - e') * (2 ^ (ey - ez) * 2 ^ (- ey))).
  { rewrite <- !Z.pow_add_r by lia. f_equal. lia. }
  assert (PH : 0 < 2 ^ (ez - e')) by (apply Z.pow_pos_nonneg; lia).
  assert (PG : 4 <= 2 ^ (ey - ez)).
  { change 4 with (2 ^ 2). apply Z.pow_le_mono_r; lia. }
  assert (PD : 128 <= 2 ^ (- ey)).
  { change 128 with (2 ^ 7). apply Z.pow_le_mono_r; lia. }
  rewrite Ep in E1. revert E1 E2 PH PG PD.
  generalize (2 ^ (ez - e')) (2 ^ (ey - ez)) (2 ^ (- ey)). intros H G D E1 E2 PH PG PD.
  assert (X : 2 * Z.abs (100 * Z.pos mz - Z.pos d * (G * D)) <= 100).
  { replace (Z.pos mz * H * 100 - Z.pos d * (H * (G * D)))
      with (H * (100 * Z.pos mz - Z.pos d * (G * D))) in E1 by ring.
    rewrite Z.abs_mul, (Z.abs_eq H) in E1 by lia. nia. }
  rewrite (round_ratio_near (Z.pos my * 100) D (Z.pos d)); [reflexivity|lia|lia|].
  assert (W : G * (2 * Z.abs (Z.pos d * D - Z.pos my * 100)) <= 100 * G + 100).
  { rewrite <- (Z.abs_eq G) at 1 by lia.
    replace (Z.abs G * (2 * Z.abs (Z.pos d * D - Z.pos my * 100)))
      with (2 * Z.abs (G * (Z.pos d * D - Z.pos my * 100)))
      by (rewrite Z.abs_mul; ring).
    replace (G * (Z.pos d * D - Z.pos my * 100))
      with (- (100 * Z.pos mz - Z.pos d * (G * D))
            - 100 * (Z.pos my * G - Z.pos mz)) by ring.
    lia. }
  nia.
Qed.

(** A small whole number read back prints as itself. *)
Lemma read_whole_small (s s' : bool) (d my : positive) (ey : Z) :
  to_float (binary_round prec64 emax64 s d 0) = S754_finite s' my ey -> ey < 0 ->
  s' = s /\ scaled_round my ey 0 = Npos d.
Proof.
  intros Hy Hey.
  destruct (binary_round prec64 emax64 s d 0) as [sz|sz| |sz mz ez] eqn:Ez;
    try discriminate.
  apply (binary_round_error prec64 emax64 ltac:(reflexivity)) in Ez.
  destruct Ez as (Es & Cz & _ & He1 & E1).
  apply to_float_error in Hy; [|exact Cz].
  destruct Hy as (-> & Cy & _ & Hez & E2).
  split; [exact Es|].
  rewrite scaled_round_ratio by lia. change (10 ^ Z.of_nat 0) with 1.
  rewrite Z.mul_1_r.
  set (e1 := SpecFloat.fexp prec64 emax64 (Z.pos (digits2_pos d) + 0)) in *.
  assert (El : Z.min 0 e1 = e1) by lia. rewrite El in E1.
  assert (Ep : 2 ^ (0 - e1) = 2 ^ (ez - e1) * (2 ^ (ey - ez) * 2 ^ (- ey))).
  { rewrite <- !Z.pow_add_r by lia. f_equal. lia. }
  assert (PH : 0 < 2 ^ (ez - e1)) by (apply Z.pow_pos_nonneg; lia).
  assert (PG : 0 < 2 ^ (ey - ez)) by (apply Z.pow_pos_nonneg; lia).
  assert (PD : 0 < 2 ^ (- ey)) by (apply Z.pow_pos_nonneg; lia).
  rewrite Ep in E1. revert E1 E2 PH PG PD.
  generalize (2 ^ (ez - e1)) (2 ^ (ey - ez)) (2 ^ (- ey)). intros H G D E1 E2 PH PG PD.
  assert (X : Z.pos mz = Z.pos d * (G * D)).
  { replace (Z.pos mz * H - Z.pos d * (H * (G * D)))
      with (H * (Z.pos mz - Z.pos d * (G * D))) in E1 by ring.
    rewrite Z.abs_mul, (Z.abs_eq H) in E1 by lia. nia. }
  assert (Y : Z.pos my = Z.pos d * D).
  { rewrite X in E2.
    replace (Z.pos my * G - Z.pos d * (G * D))
      with (G * (Z.pos my - Z.pos d * D)) in E2 by ring.
    rewrite Z.abs_mul, (Z.abs_eq G) in E2 by lia. nia. }
  rewrite Y, round_ratio_exact by lia. reflexivity.
Qed.

End SmallAmounts.

(** ** [strtod] on decimal constants *)

Section ReadingDecimals.

Lemma length_zeros (k : nat) : String.length (zeros k) = k.
Proof. induction k as [|k IH]; cbn; [reflexivity | now rewrite IH]. Qed.

Lemma digit_char (c : ascii) :
  isdigit c = true ->
  isspace c = false /\
  (forall r, parse_sign (String c r) = (false, String c r)) /\
  (forall r, prefix_ci "inf" (String c r) = false) /\
  (forall r, prefix_ci "nan" (String c r) = false) /\
  Ascii.eqb (tolower c) "x" = false.
Proof.
  destruct c as [[] [] [] [] [] [] [] []]; intros H; try discriminate H;
    repeat split; intros; reflexivity.
Qed.

Lemma span_digits_app (a b : string) :
  all_chars isdigit a = true ->
  match b with
  | EmptyString => True
  | String x _ => isdigit x = false
  end ->
  span isdigit (a ++ b) = (a, b).
Proof.
  intros Ha Hb. induction a as [|c a IH]; cbn [append span all_chars] in *.
  - destruct b as [|x b]; [reflexivity|]. cbn [span]. now rewrite Hb.
  - apply andb_prop in Ha as [Hc Ha]. now rewrite Hc, (IH Ha).
Qed.

Lemma append_nil_r (a : string) : (a ++ "")%string = a.
Proof. induction a as [|c a IH]; cbn [append]; [reflexivity | now rewrite IH]. Qed.

Lemma span_digits_all (a : string) :
  all_chars isdigit a = true -> span isdigit a = (a, EmptyString).
Proof.
  intros Ha. rewrite <- (append_nil_r a) at 1. now apply span_digits_app.
Qed.

Lemma hex_start_decimal (c : ascii) (t : string) :
  match t with
  | EmptyString => True
  | String x _ => Ascii.eqb (tolower x) "x" = false
  end ->
  hex_start (String c t) = false.
Proof.
  destruct t as [|x t]; [reflexivity|]. intros H. cbn [hex_start].
  rewrite H. now destruct (Ascii.eqb c "0").
Qed.

Lemma strtod_decimal (s : bool) (ip fp : string) :
  all_chars isdigit ip = true -> all_chars isdigit fp = true ->
  nonempty ip = true ->
  strtod (sign_text s ++ ip ++ frac fp) =
    decimal_to_double s (digits_val 0 (ip ++ fp))
      (- Z.of_nat (String.length fp)).
Proof.
  intros Hip Hfp Hne. destruct ip as [|c ip]; [discriminate|].
  cbn [all_chars] in Hip. apply andb_prop in Hip as [Hc Hip].
  destruct (digit_char c Hc) as (Hsp & Hsg & Hinf & Hnan & Hx).
  set (t := (ip ++ frac fp)%string).
  assert (Et : (sign_text s ++ String c ip ++ frac fp)%string
               = (sign_text s ++ String c t)%string) by reflexivity.
  rewrite Et.
  assert (Eps : parse_sign (skip_space (sign_text s ++ String c t)) = (s, String c t)).
  { destruct s; cbn [sign_text append skip_space].
    - reflexivity.
    - rewrite Hsp. apply Hsg. }
  assert (Ehex : hex_start (String c t) = false).
  { apply hex_start_decimal. unfold t. destruct ip as [|x ip]; cbn [append].
    - destruct fp; cbn [frac]; [exact I | reflexivity].
    - cbn [all_chars] in Hip. apply andb_prop in Hip as [Hxd _].
      now destruct (digit_char x Hxd) as (_ & _ & _ & _ & ->). }
  assert (Esp : span isdigit (String c t) = (String c ip, frac fp)).
  { change (String c t) with (String c ip ++ frac fp)%string.
    apply span_digits_app.
    - cbn [all_chars]. now rewrite Hc, Hip.
    - destruct fp; cbn [frac]; [exact I | reflexivity]. }
  assert (Efr : fraction_part isdigit (frac fp) = (fp, EmptyString)).
  { destruct fp as [|f fp]; [reflexivity|]. cbn [frac fraction_part].
    now apply span_digits_all. }
  unfold strtod. rewrite Eps, Hinf, Hnan, Ehex, Esp, Efr.
  cbn [append parse_exp]. rewrite Z.sub_0_l. reflexivity.
Qed.

Lemma digits_val_zeros (j : nat) (s : string) :
  digits_val 0 (zeros j ++ s) = digits_val 0 s.
Proof. induction j as [|j IH]; cbn [zeros append]; [reflexivity | exact IH]. Qed.

Lemma take_drop (k : nat) (s : string) : (take k s ++ drop k s)%string = s.
Proof.
  revert s. induction k as [|k IH]; intros [|c s]; cbn [take drop append];
    try reflexivity. now rewrite IH.
Qed.

Lemma length_drop (k : nat) (s : string) :
  String.length (drop k s) = (String.length s - k)%nat.
Proof.
  revert s. induction k as [|k IH]; intros [|c s]; cbn [drop String.length];
    try reflexivity; try lia. apply IH.
Qed.

Lemma fixed_digits_shape (n : N) (p : nat) :
  exists ip fp,
    fixed_digits n p = (ip ++ frac fp)%string /\
    all_chars isdigit ip = true /\ all_chars isdigit fp = true /\
    nonempty ip = true /\ String.length fp = p /\
    digits_val 0 (ip ++ fp) = n.
Proof.
  unfold fixed_digits.
  set (ds := N_to_string n).
  set (ds' := (zeros (S p - String.length ds) ++ ds)%string).
  assert (Hd : all_chars isdigit ds' = true).
  { unfold ds'. rewrite all_chars_app, all_chars_zeros. apply N_to_string_digits. }
  assert (Hl : (S p <= String.length ds')%nat).
  { unfold ds'. rewrite length_append, length_zeros. lia. }
  assert (Hv : digits_val 0 ds' = n).
  { unfold ds'. rewrite digits_val_zeros. apply digits_val_N_to_string. }
  destruct p as [|p].
  - exists ds', EmptyString. cbn [frac]. rewrite !append_nil_r.
    repeat split; try assumption. destruct ds'; [cbn in Hl; lia | reflexivity].
  - set (k := (String.length ds' - S p)%nat).
    exists (take k ds'), (drop k ds').
    assert (Hk : String.length (drop k ds') = S p).
    { rewrite length_drop. unfold k. lia. }
    split.
    { destruct (drop k ds') eqn:E; [cbn in Hk; lia | reflexivity]. }
    split; [now apply all_chars_take|]. split; [now apply all_chars_drop|].
    split.
    { assert (1 <= k)%nat by (unfold k; lia).
      destruct k as [|k']; [lia|]. destruct ds'; [cbn in Hl; lia | reflexivity]. }
    split; [exact Hk|]. now rewrite take_drop.
Qed.

(** Reading what [%.pf] printed for the digits [T]. *)
Lemma strtod_fixed (s : bool) (T : N) (p : nat) :
  strtod (sign_text s ++ fixed_digits T p) =
    decimal_to_double s T (- Z.of_nat p).
Proof.
  destruct (fixed_digits_shape T p) as (ip & fp & E & Hip & Hfp & Hne & Hl & Hv).
  rewrite E, strtod_decimal by assumption. now rewrite Hv, Hl.
Qed.

End ReadingDecimals.

(** ** Values printed without loss *)

Section ExactPrints.

Local Abbreviation canonical32 := (canonical_mantissa prec32 emax32).
Local Abbreviation canonical64 := (canonical_mantissa prec64 emax64).
Local Abbreviation div100 s d :=
  (SFdiv prec64 emax64 (S754_finite s d 0) (S754_finite false 100 0)).

Lemma normal32 (my : positive) (ey : Z) :
  canonical32 my ey = true -> -149 < ey ->
  2 ^ 23 <= Z.pos my < 2 ^ 24.
Proof.
  intros C Hn. apply canonical32_eq in C.
  pose proof (digits2_bounds my) as B.
  replace (Z.pos (digits2_pos my)) with 24 in B by lia. exact B.
Qed.

Lemma div100_exact (s : bool) (td my mz0 : positive) (ey : Z) :
  canonical32 my ey = true -> ey <= 104 -> -149 < ey ->
  Z.pos mz0 = Z.pos my * 2 ^ 29 ->
  (0 <= ey -> Z.pos td = 100 * Z.pos my * 2 ^ ey) ->
  (ey < 0 -> Z.pos td * 2 ^ (- ey) = 100 * Z.pos my) ->
  div100 s td = S754_finite s mz0 (ey - 29).
Proof.
  intros C Le Hn Emz H0 H1.
  destruct (double_rep_canonical my mz0 ey C Hn Emz) as [Cz Dz].
  pose proof (normal32 my ey C Hn) as [Ly Uy].
  change (2 ^ 23) with 8388608 in Ly. change (2 ^ 24) with 16777216 in Uy.
  assert (Hb : 0 <= ey + 31 /\ Z.pos td < 2 ^ (ey + 31)).
  { destruct (Z.le_gt_cases 0 ey) as [G|G].
    - split; [lia|]. rewrite (H0 G), Z.pow_add_r by lia.
      assert (0 < 2 ^ ey) by (apply Z.pow_pos_nonneg; lia).
      change (2 ^ 31) with 2147483648. nia.
    - specialize (H1 G).
      assert (P : 0 < 2 ^ (- ey)) by (apply Z.pow_pos_nonneg; lia).
      assert (2 ^ (- ey) < 2 ^ 31).
      { change (2 ^ 31) with 2147483648. nia. }
      apply Z.pow_lt_mono_r_iff in H; [|lia|lia]. split; [lia|].
      assert (E : 2 ^ (ey + 31) * 2 ^ (- ey) = 2147483648).
      { rewrite <- Z.pow_add_r by lia. replace (ey + 31 + - ey) with 31 by lia.
        reflexivity. }
      nia. }
  destruct Hb as [Hb0 Hb].
  assert (Dt : Z.pos (digits2_pos td) <= ey + 31).
  { apply (Zdigits2_lt (Z.pos td)). lia. }
  set (e' := Z.min (SpecFloat.fexp prec64 emax64
                      (Z.pos (digits2_pos td) - Z.pos (digits2_pos 100))) 0).
  assert (He' : e' <= ey - 29 /\ e' <= 0).
  { unfold e'. rewrite fexp64_eq. change (Z.pos (digits2_pos 100)) with 7. lia. }
  destruct He' as [He' He0].
  assert (PQ : 0 < 2 ^ (ey - 29 - e')) by (apply Z.pow_pos_nonneg; lia).
  assert (EQ : Z.pos mz0 * 2 ^ (ey - 29 - e') * 100 = Z.pos td * 2 ^ (- e')).
  { rewrite Emz.
    replace (Z.pos my * 2 ^ 29 * 2 ^ (ey - 29 - e'))
      with (Z.pos my * 2 ^ (ey - e'))
      by (rewrite <- Z.mul_assoc, <- Z.pow_add_r by lia; f_equal; f_equal; lia).
    destruct (Z.le_gt_cases 0 ey) as [G|G].
    - rewrite (H0 G). replace (ey - e') with (ey + - e') by lia.
      rewrite Z.pow_add_r by lia. ring.
    - replace (- e') with (- ey + (ey - e')) by lia.
      rewrite Z.pow_add_r by lia. rewrite Z.mul_assoc, (H1 G). ring. }
  rewrite <- (xorb_false_r s) at 2.
  apply (SFdiv_int_hit prec64 emax64 ltac:(reflexivity)); try assumption.
  - change (emax64 - prec64) with 971. lia.
  - fold e'. rewrite Dz, <- EQ.
    pose proof (digits2_bounds mz0) as [Lz Uz]. rewrite Dz in Lz, Uz.
    revert PQ. generalize (2 ^ (ey - 29 - e')). intros Q PQ. split; nia.
  - fold e'. rewrite <- EQ, Z.sub_diag. cbn [Z.abs]. lia.
Qed.

Lemma whole_exact (s : bool) (td my mz0 : positive) (ey : Z) :
  canonical32 my ey = true -> ey <= 104 -> -149 < ey ->
  Z.pos mz0 = Z.pos my * 2 ^ 29 ->
  (0 <= ey -> Z.pos td = Z.pos my * 2 ^ ey) ->
  (ey < 0 -> Z.pos td * 2 ^ (- ey) = Z.pos my) ->
  binary_round prec64 emax64 s td 0 = S754_finite s mz0 (ey - 29).
Proof.
  intros C Le Hn Emz H0 H1.
  destruct (double_rep_canonical my mz0 ey C Hn Emz) as [Cz Dz].
  set (el := Z.min 0 (ey - 29)).
  assert (EQ : Z.pos mz0 * 2 ^ (ey - 29 - el) = Z.pos td * 2 ^ (0 - el)).
  { rewrite Emz. unfold el.
    destruct (Z.le_gt_cases (ey - 29) 0) as [G|G].
    - rewrite Z.min_r by lia. rewrite Z.sub_diag, Z.pow_0_r, Z.mul_1_r.
      destruct (Z.le_gt_cases 0 ey) as [G2|G2].
      + rewrite (H0 G2). rewrite <- Z.mul_assoc, <- Z.pow_add_r by lia.
        f_equal. f_equal. lia.
      + replace (0 - (ey - 29)) with (- ey + 29) by lia.
        rewrite Z.pow_add_r, Z.mul_assoc, (H1 G2) by lia. reflexivity.
    - rewrite Z.min_l by lia. rewrite Z.sub_0_r, Z.pow_0_r, Z.mul_1_r.
      rewrite (H0 ltac:(lia)). rewrite <- Z.mul_assoc, <- Z.pow_add_r by lia.
      f_equal. f_equal. lia. }
  assert (PQ : 0 < 2 ^ (ey - 29 - el)) by (apply Z.pow_pos_nonneg; unfold el; lia).
  apply (binary_round_hit prec64 emax64 ltac:(reflexivity)); try assumption.
  - change (emax64 - prec64) with 971. lia.
  - fold el. rewrite Dz, <- EQ.
    pose proof (digits2_bounds mz0) as [Lz Uz]. rewrite Dz in Lz, Uz.
    revert PQ. generalize (2 ^ (ey - 29 - el)). intros Q PQ. split; nia.
  - fold el. rewrite <- EQ, Z.sub_diag. cbn [Z.abs]. lia.
Qed.

Lemma reprint_finite (p : nat) (s : bool) (m : positive) (e : Z) :
  reprint p (S754_finite s m e) =
    to_float (decimal_to_double s (scaled_round m e p) (- Z.of_nat p)).
Proof.
  unfold reprint, atof. cbn [fmt_f]. f_equal. apply (strtod_fixed s).
Qed.

Lemma reprint_zero (p : nat) (s : bool) : reprint p (S754_zero s) = S754_zero s.
Proof.
  unfold reprint, atof. cbn [fmt_f]. fold (sign_text s).
  now rewrite (strtod_fixed s 0 p).
Qed.

Lemma reprint_special (p : nat) (x : spec_float) :
  match x with S754_finite _ _ _ => False | _ => True end ->
  reprint p x = x.
Proof.
  destruct x as [s|s| |s m e]; intros H; try contradiction.
  - apply reprint_zero.
  - now destruct s.
  - reflexivity.
Qed.

Lemma d2d_cents (s : bool) (d : positive) :
  decimal_to_double s (Npos d) (- Z.of_nat 2) = div100 s d.
Proof. reflexivity. Qed.

Lemma d2d_whole (s : bool) (d : positive) :
  decimal_to_double s (Npos d) (- Z.of_nat 0) = binary_round prec64 emax64 s d 0.
Proof. cbn. now rewrite Pos.mul_1_r. Qed.

Lemma pos_mul_pow (m : positive) (k : Z) :
  0 <= k -> exists t, Z.pos t = Z.pos m * 2 ^ k.
Proof.
  intros Hk. assert (0 < 2 ^ k) by (apply Z.pow_pos_nonneg; lia).
  exists (Z.to_pos (Z.pos m * 2 ^ k)). rewrite Z2Pos.id; nia.
Qed.

(** The digits printed for a value that has an exact rendering. *)
Lemma scaled_round_exact (my : positive) (ey : Z) (p : nat) :
  (ey < 0 -> (Z.pos my * 10 ^ Z.of_nat p) mod 2 ^ (- ey) = 0) ->
  exists td,
    scaled_round my ey p = Npos td /\
    (0 <= ey -> Z.pos td = 10 ^ Z.of_nat p * Z.pos my * 2 ^ ey) /\
    (ey < 0 -> Z.pos td * 2 ^ (- ey) = 10 ^ Z.of_nat p * Z.pos my).
Proof.
  intros Hex. assert (PT : 0 < 10 ^ Z.of_nat p) by (apply Z.pow_pos_nonneg; lia).
  destruct (Z.le_gt_cases 0 ey) as [G|G].
  - assert (P : 0 < 2 ^ ey) by (apply Z.pow_pos_nonneg; lia).
    exists (Z.to_pos (Z.pos my * 10 ^ Z.of_nat p * 2 ^ ey)).
    assert (0 < Z.pos my * 10 ^ Z.of_nat p * 2 ^ ey) by nia.
    split; [|split; [|lia]].
    + unfold scaled_round. destruct (Z.leb_spec 0 ey); [|lia].
      destruct (Z.pos my * 10 ^ Z.of_nat p * 2 ^ ey) eqn:E; try lia; reflexivity.
    + intros _. rewrite Z2Pos.id by lia. ring.
  - specialize (Hex G).
    assert (P : 0 < 2 ^ (- ey)) by (apply Z.pow_pos_nonneg; lia).
    apply Z.div_exact in Hex; [|lia].
    set (t := Z.pos my * 10 ^ Z.of_nat p / 2 ^ (- ey)) in *.
    assert (Ht : 0 < t) by nia.
    exists (Z.to_pos t). split; [|split; [lia|]].
    + rewrite scaled_round_ratio by lia. rewrite Hex, Z.mul_comm.
      rewrite round_ratio_exact by lia.
      destruct t; try lia; reflexivity.
    + intros _. rewrite Z2Pos.id by lia. lia.
Qed.

Lemma reprint2_exact (s : bool) (my : positive) (ey : Z) :
  canonical32 my ey = true -> ey <= 104 -> -149 < ey ->
  (ey < 0 -> (Z.pos my * 100) mod 2 ^ (- ey) = 0) ->
  reprint 2 (S754_finite s my ey) = S754_finite s my ey.
Proof.
  intros C Le Hn Hex.
  destruct (scaled_round_exact my ey 2 Hex) as (td & Et & H0 & H1).
  change (10 ^ Z.of_nat 2) with 100 in H0, H1.
  destruct (pos_mul_pow my 29 ltac:(lia)) as (mz0 & Emz).
  rewrite reprint_finite, Et, d2d_cents.
  rewrite (div100_exact s td my mz0 ey C Le Hn Emz H0 H1).
  now apply to_float_of_double_rep.
Qed.

Lemma reprint0_exact (s : bool) (my : positive) (ey : Z) :
  canonical32 my ey = true -> ey <= 104 -> -149 < ey ->
  (ey < 0 -> Z.pos my mod 2 ^ (- ey) = 0) ->
  reprint 0 (S754_finite s my ey) = S754_finite s my ey.
Proof.
  intros C Le Hn Hex.
  destruct (scaled_round_exact my ey 0) as (td & Et & H0 & H1).
  { intros G. change (10 ^ Z.of_nat 0) with 1. rewrite Z.mul_1_r. now apply Hex. }
  change (10 ^ Z.of_nat 0) with 1 in H0, H1. rewrite Z.mul_1_l in H0, H1.
  destruct (pos_mul_pow my 29 ltac:(lia)) as (mz0 & Emz).
  rewrite reprint_finite, Et, d2d_whole.
  rewrite (whole_exact s td my mz0 ey C Le Hn Emz H0 H1).
  now apply to_float_of_double_rep.
Qed.

End ExactPrints.

(** ** Printing and reading twice *)

Section PrintTwice.

Local Abbreviation canonical32 := (canonical_mantissa prec32 emax32).
Local Abbreviation canonical64 := (canonical_mantissa prec64 emax64).
Local Abbreviation div100 s d :=
  (SFdiv prec64 emax64 (S754_finite s d 0) (S754_finite false 100 0)).

(** An amount of at least 131072 is separated from its neighbours by more
    than a cent: printing it with two decimals and reading it back gives
    the same [float]. *)
Lemma reprint2_large (s : bool) (my : positive) (ey : Z) :
  canonical32 my ey = true -> ey <= 104 -> -6 <= ey < 0 ->
  Z.pos my <> 2 ^ 23 ->
  reprint 2 (S754_finite s my ey) = S754_finite s my ey.
Proof.
  intros C Le [Hl Hu] Hne.
  pose proof (normal32 my ey C ltac:(lia)) as [Ly Uy].
  change (2 ^ 23) with 8388608 in Ly, Hne. change (2 ^ 24) with 16777216 in Uy.
  assert (PD : 2 <= 2 ^ (- ey) <= 64).
  { split.
    - change 2 with (2 ^ 1) at 1. apply Z.pow_le_mono_r; lia.
    - change 64 with (2 ^ 6). apply Z.pow_le_mono_r; lia. }
  rewrite reprint_finite, scaled_round_ratio by lia.
  change (10 ^ Z.of_nat 2) with 100.
  destruct (round_ratio_spec (Z.pos my * 100) (2 ^ (- ey)) ltac:(lia) ltac:(lia))
    as (_ & Ht & _).
  set (t := round_ratio (Z.pos my * 100) (2 ^ (- ey))) in *.
  assert (Hpos : 0 < t) by nia.
  destruct t as [|td|td] eqn:Et; try lia.
  change (Z.to_N (Z.pos td)) with (Npos td). rewrite d2d_cents.
  set (K := 24 + ey).
  assert (EK : 2 ^ K * 2 ^ (- ey) = 16777216).
  { unfold K. rewrite <- Z.pow_add_r by lia. replace (24 + ey + - ey) with 24 by lia.
    reflexivity. }
  assert (PK : 0 < 2 ^ K) by (apply Z.pow_pos_nonneg; unfold K; lia).
  destruct (SFdiv_int_finite prec64 emax64 ltac:(reflexivity) s false td 100 K
              (div100_nu td) ltac:(unfold K; lia))
    as (mz & ez & Ez & Hez).
  { nia. }
  { rewrite fexp64_eq. change (emax64 - prec64) with 971. unfold K. lia. }
  rewrite fexp64_eq in Hez. unfold K in Hez.
  rewrite Ez. rewrite xorb_false_r in *.
  apply (SFdiv_int_error prec64 emax64 ltac:(reflexivity)) in Ez; [|apply div100_nu].
  destruct Ez as (_ & Cz & _ & _ & He' & E1).
  set (e' := Z.min (SpecFloat.fexp prec64 emax64
                      (Z.pos (digits2_pos td) - Z.pos (digits2_pos 100))) 0) in *.
  assert (He0 : e' <= 0) by (unfold e'; lia).
  assert (Ep : 2 ^ (- e') = 2 ^ (ez - e') * (2 ^ (ey - ez) * 2 ^ (- ey))).
  { rewrite <- !Z.pow_add_r by lia. f_equal. lia. }
  assert (PH : 0 < 2 ^ (ez - e')) by (apply Z.pow_pos_nonneg; lia).
  assert (PG : 2 ^ 28 <= 2 ^ (ey - ez)) by (apply Z.pow_le_mono_r; lia).
  change (2 ^ 28) with 268435456 in PG.
  assert (D24 : Z.pos (digits2_pos my) = 24).
  { apply canonical32_eq in C. lia. }
  rewrite Ep in E1.
  apply to_float_hit; try assumption; try lia; rewrite ?D24;
    change (2 ^ (24 - 1)) with 8388608; change (2 ^ 24) with 16777216;
    revert E1 Ht PH PG PD;
    generalize (2 ^ (ez - e')) (2 ^ (ey - ez)) (2 ^ (- ey));
    intros H G D E1 Ht PH PG PD;
    assert (X : 2 * Z.abs (100 * Z.pos mz - Z.pos td * (G * D)) <= 100)
      by (replace (Z.pos mz * H * 100 - Z.pos td * (H * (G * D)))
            with (H * (100 * Z.pos mz - Z.pos td * (G * D))) in E1 by ring;
          rewrite Z.abs_mul, (Z.abs_eq H) in E1 by lia; nia);
    assert (W : 100 * (2 * Z.abs (Z.pos my * G - Z.pos mz)) <= 64 * G + 100)
      by (replace (100 * (2 * Z.abs (Z.pos my * G - Z.pos mz)))
            with (2 * Z.abs (- G * (Z.pos td * D - Z.pos my * 100)
                             - (100 * Z.pos mz - Z.pos td * (G * D))))
            by (replace (- G * (Z.pos td * D - Z.pos my * 100)
                         - (100 * Z.pos mz - Z.pos td * (G * D)))
                  with (100 * (Z.pos my * G - Z.pos mz)) by ring;
                rewrite Z.abs_mul; cbn [Z.abs]; ring);
          assert (Z.abs (- G * (Z.pos td * D - Z.pos my * 100))
                  = G * Z.abs (Z.pos td * D - Z.pos my * 100))
            by (rewrite Z.abs_mul, Z.abs_opp, (Z.abs_eq G) by lia; reflexivity);
          nia);
    nia.
Qed.

Lemma reprint_read_cents (s : bool) (T : N) :
  let y := to_float (decimal_to_double s T (- Z.of_nat 2)) in
  reprint 2 y = y.
Proof.
  intros y. destruct T as [|d]; [apply (reprint_zero 2 s)|].
  unfold y. rewrite d2d_cents.
  pose proof (to_float_valid (div100 s d)) as V.
  destruct (to_float (div100 s d)) as [s'|s'| |s' my ey] eqn:Ey;
    try (apply reprint_special; exact I).
  cbn [valid_binary] in V. unfold bounded in V.
  apply andb_prop in V as [C Le]. apply Z.leb_le in Le.
  change (emax32 - prec32) with 104 in Le.
  destruct (Z.le_gt_cases ey (-7)) as [G|G].
  - destruct (read_cents_small s s' d my ey Ey G) as [-> Er].
    now rewrite reprint_finite, Er, d2d_cents.
  - destruct (Z.le_gt_cases 0 ey) as [G0|G0].
    + apply reprint2_exact; try assumption; lia.
    + destruct (Z.eq_dec (Z.pos my) (2 ^ 23)) as [E|E].
      * apply reprint2_exact; try assumption; try lia.
        intros _. rewrite E.
        replace (2 ^ 23) with (2 ^ (23 + ey) * 2 ^ (- ey))
          by (rewrite <- Z.pow_add_r by lia; f_equal; lia).
        rewrite (Z.mul_comm (2 ^ (23 + ey))), <- Z.mul_assoc, Z.mul_comm.
        apply Z.mod_mul. apply Z.pow_nonzero; lia.
      * apply reprint2_large; try assumption; lia.
Qed.

Lemma reprint_read_whole (s : bool) (T : N) :
  let y := to_float (decimal_to_double s T (- Z.of_nat 0)) in
  reprint 0 y = y.
Proof.
  intros y. destruct T as [|d]; [apply (reprint_zero 0 s)|].
  unfold y. rewrite d2d_whole.
  pose proof (to_float_valid (binary_round prec64 emax64 s d 0)) as V.
  destruct (to_float (binary_round prec64 emax64 s d 0)) as [s'|s'| |s' my ey] eqn:Ey;
    try (apply reprint_special; exact I).
  cbn [valid_binary] in V. unfold bounded in V.
  apply andb_prop in V as [C Le]. apply Z.leb_le in Le.
  change (emax32 - prec32) with 104 in Le.
  destruct (Z.le_gt_cases 0 ey) as [G|G].
  - apply reprint0_exact; try assumption; lia.
  - destruct (read_whole_small s s' d my ey Ey G) as [-> Er].
    now rewrite reprint_finite, Er, d2d_whole.
Qed.

(** Printing with [%.0f] or [%.2f] and reading back is idempotent. *)
Lemma reprint_idempotent (p : nat) (x : spec_float) :
  p = 0%nat \/ p = 2%nat -> reprint p (reprint p x) = reprint p x.
Proof.
  intros Hp. destruct x as [s|s| |s m e].
  - now rewrite !(reprint_special p (S754_zero s) I).
  - now rewrite !(reprint_special p (S754_infinity s) I).
  - now rewrite !(reprint_special p S754_nan I).
  - rewrite (reprint_finite p s m e).
    destruct Hp as [->| ->]; [apply reprint_read_whole | apply reprint_read_cents].
Qed.

End PrintTwice.

(** ** The quotient depends on the ratio only *)

Section RatioOnly.

Variables prec emax : Z.
Hypothesis Hprec : 0 < prec.

Local Abbreviation fexp := (SpecFloat.fexp prec emax).

Lemma round_ratio_scale (a b c : Z) :
  0 <= a -> 0 < b -> 0 < c -> round_ratio (a * c) (b * c) = round_ratio a b.
Proof.
  intros Ha Hb Hc. unfold round_ratio, loc_ratio.
  rewrite Z.div_mul_cancel_r by lia.
  rewrite Zmult_mod_distr_r.
  assert (E0 : (a mod b * c =? 0) = (a mod b =? 0)).
  { pose proof (Z.mod_pos_bound a b Hb).
    destruct (Z.eqb_spec (a mod b) 0) as [E|E]; [rewrite E; reflexivity|].
    apply Z.eqb_neq. nia. }
  rewrite E0. destruct (a mod b =? 0); [reflexivity|].
  replace (2 * (a mod b * c)) with (2 * (a mod b) * c) by ring.
  rewrite (Z.mul_comm (2 * (a mod b)) c), (Z.mul_comm b c).
  rewrite <- Zmult_compare_compat_l by lia. reflexivity.
Qed.

Lemma round_ratio_pow_le (a b e i j : Z) :
  0 <= a -> 0 < b -> 0 <= i <= j -> 0 <= e + i ->
  round_ratio (a * 2 ^ i) (b * 2 ^ (e + i)) =
  round_ratio (a * 2 ^ j) (b * 2 ^ (e + j)).
Proof.
  intros Ha Hb Hij He.
  assert (E1 : 2 ^ j = 2 ^ i * 2 ^ (j - i))
    by (rewrite <- Z.pow_add_r by lia; f_equal; lia).
  assert (E2 : 2 ^ (e + j) = 2 ^ (e + i) * 2 ^ (j - i))
    by (rewrite <- Z.pow_add_r by lia; f_equal; lia).
  rewrite E1, E2, !Z.mul_assoc.
  assert (0 < 2 ^ i) by (apply Z.pow_pos_nonneg; lia).
  assert (0 < 2 ^ (e + i)) by (apply Z.pow_pos_nonneg; lia).
  assert (0 < 2 ^ (j - i)) by (apply Z.pow_pos_nonneg; lia).
  symmetry. apply round_ratio_scale; nia.
Qed.

Lemma round_ratio_pow (a b e i j : Z) :
  0 <= a -> 0 < b -> 0 <= i -> 0 <= j -> 0 <= e + i -> 0 <= e + j ->
  round_ratio (a * 2 ^ i) (b * 2 ^ (e + i)) =
  round_ratio (a * 2 ^ j) (b * 2 ^ (e + j)).
Proof.
  intros Ha Hb Hi Hj Hei Hej. destruct (Z.le_ge_cases i j).
  - apply round_ratio_pow_le; lia.
  - symmetry. apply round_ratio_pow_le; lia.
Qed.

(** The number of bits of a quotient that is at least one grows with the
    scaling of the numerator. *)
Lemma digits_quotient_le (a b i j : Z) :
  0 < b -> 0 <= i <= j -> b <= a * 2 ^ i ->
  Zdigits2 (a * 2 ^ j / b) - j = Zdigits2 (a * 2 ^ i / b) - i.
Proof.
  intros Hb Hij Hq.
  assert (Pi : 0 < 2 ^ i) by (apply Z.pow_pos_nonneg; lia).
  assert (Pd : 0 < 2 ^ (j - i)) by (apply Z.pow_pos_nonneg; lia).
  assert (Ej : 2 ^ j = 2 ^ i * 2 ^ (j - i))
    by (rewrite <- Z.pow_add_r by lia; f_equal; lia).
  assert (Hq0 : 0 < a * 2 ^ i / b) by (apply Z.div_str_pos; lia).
  destruct (a * 2 ^ i / b) as [|q|q] eqn:Eq; try lia.
  pose proof (digits2_bounds q) as [L U]. cbn [Zdigits2].
  set (n := Z.pos (digits2_pos q)) in *.
  assert (Hn : 0 < n) by (unfold n; lia).
  pose proof (Z.div_mod (a * 2 ^ i) b ltac:(lia)) as E.
  pose proof (Z.mod_pos_bound (a * 2 ^ i) b Hb) as Hr.
  rewrite Eq in E.
  assert (P1 : 0 < 2 ^ (n - 1)) by (apply Z.pow_pos_nonneg; lia).
  assert (Hl : 2 ^ (n - 1 + (j - i)) <= a * 2 ^ j / b).
  { apply Z.div_le_lower_bound; [lia|]. rewrite Z.pow_add_r by lia.
    replace (a * 2 ^ j) with (a * 2 ^ i * 2 ^ (j - i)) by (rewrite Ej; ring).
    revert E Hr L Pd. generalize (a * 2 ^ i) (2 ^ (n - 1)) (2 ^ (j - i)) (Z.pos q).
    intros X A D Q E Hr L Pd. assert (b * A <= X) by nia. nia. }
  assert (Hu : a * 2 ^ j / b < 2 ^ (n + (j - i))).
  { apply Z.div_lt_upper_bound; [lia|]. rewrite Z.pow_add_r by lia.
    replace (a * 2 ^ j) with (a * 2 ^ i * 2 ^ (j - i)) by (rewrite Ej; ring).
    revert E Hr U Pd. generalize (a * 2 ^ i) (2 ^ n) (2 ^ (j - i)) (Z.pos q).
    intros X A D Q E Hr U Pd. assert (X < b * A) by nia. nia. }
  assert (P2 : 0 < 2 ^ (n - 1 + (j - i))) by (apply Z.pow_pos_nonneg; lia).
  destruct (a * 2 ^ j / b) as [|q'|q'] eqn:Eq'; try lia. cbn [Zdigits2].
  enough (Z.pos (digits2_pos q') = n + (j - i)) by lia.
  apply digits2_unique. replace (n + (j - i) - 1) with (n - 1 + (j - i)) by lia.
  lia.
Qed.

Lemma digits_quotient (a b i j : Z) :
  0 <= a -> 0 < b -> 0 <= i -> 0 <= j -> b <= a * 2 ^ i -> b <= a * 2 ^ j ->
  Zdigits2 (a * 2 ^ j / b) - j = Zdigits2 (a * 2 ^ i / b) - i.
Proof.
  intros Ha Hb Hi Hj Hqi Hqj. destruct (Z.le_ge_cases i j).
  - apply digits_quotient_le; lia.
  - symmetry. apply digits_quotient_le; lia.
Qed.

(** The quotient of two integers, as the rounding of their ratio at the
    exponent of its magnitude: the scaling [j] is any that leaves both
    sides integers. *)
Lemma SFdiv_int_normal (s1 s2 : bool) (m1 m2 : positive) (j : Z) :
  SpecFloat.emin prec emax <=
    Z.pos (digits2_pos m1) - Z.pos (digits2_pos m2) - prec ->
  0 <= j -> Z.pos m2 <= Z.pos m1 * 2 ^ j ->
  let e1 := fexp (Zdigits2 (Z.pos m1 * 2 ^ j / Z.pos m2) - j) in
  0 <= e1 + j ->
  SFdiv prec emax (S754_finite s1 m1 0) (S754_finite s2 m2 0) =
  normalize_rounded prec emax (xorb s1 s2)
    (round_ratio (Z.pos m1 * 2 ^ j) (Z.pos m2 * 2 ^ (e1 + j))) e1.
Proof.
  intros Hnu Hj Hq e1 He1. rewrite SFdiv_int.
  destruct (SFdiv_int_pre prec emax Hprec m1 m2 Hnu) as (Hab & Hn & _).
  set (e' := Z.min (fexp (Z.pos (digits2_pos m1) - Z.pos (digits2_pos m2))) 0) in *.
  assert (He : 0 <= - e') by (unfold e'; lia).
  assert (P : 0 < 2 ^ (- e')) by (apply Z.pow_pos_nonneg; lia).
  rewrite binary_round_aux_ratio by (try assumption; lia).
  assert (Em : Zdigits2 (Z.pos m1 * 2 ^ (- e') / Z.pos m2) + e' =
               Zdigits2 (Z.pos m1 * 2 ^ j / Z.pos m2) - j).
  { pose proof (digits_quotient (Z.pos m1) (Z.pos m2) j (- e')
                  ltac:(lia) ltac:(lia) Hj He Hq Hab). lia. }
  rewrite Em in *. fold e1 in Hn |- *. f_equal.
  replace (e1 - e') with (e1 + - e') by lia.
  apply round_ratio_pow; lia.
Qed.

(** The same for an integer converted by [binary_round]. *)
Lemma binary_round_normal (s : bool) (m : positive) (j : Z) :
  0 <= j ->
  let e1 := fexp (Z.pos (digits2_pos m)) in
  0 <= e1 + j ->
  binary_round prec emax s m 0 =
  normalize_rounded prec emax s
    (round_ratio (Z.pos m * 2 ^ j) (1 * 2 ^ (e1 + j))) e1.
Proof.
  intros Hj e1 He1. unfold binary_round. rewrite Z.add_0_r. fold e1.
  destruct (shl_align_spec m 0 e1) as (mz & Es & Ez & Dz). rewrite Es.
  set (el := Z.min 0 e1) in *.
  rewrite <- (Z.div_1_r (Z.pos mz)), <- (loc_ratio_1 (Z.pos mz)).
  assert (Hn : fexp (Zdigits2 (Z.pos mz / 1) + el) = e1).
  { rewrite Z.div_1_r. cbn [Zdigits2]. rewrite Dz, Z.add_0_r. reflexivity. }
  rewrite binary_round_aux_ratio by (try lia; rewrite Hn; unfold el; lia).
  rewrite Hn. f_equal. rewrite Ez.
  replace (0 - el) with (- el) by lia. replace (e1 - el) with (e1 + - el) by lia.
  apply round_ratio_pow; unfold el; lia.
Qed.

(** The quotient depends only on the ratio. *)
Lemma SFdiv_int_scale (s1 s2 : bool) (m1 m2 c : positive) :
  SpecFloat.emin prec emax <=
    Z.pos (digits2_pos m1) - Z.pos (digits2_pos m2) - prec ->
  SpecFloat.emin prec emax <=
    Z.pos (digits2_pos (m1 * c)) - Z.pos (digits2_pos (m2 * c)) - prec ->
  SFdiv prec emax (S754_finite s1 (m1 * c) 0) (S754_finite s2 (m2 * c) 0) =
  SFdiv prec emax (S754_finite s1 m1 0) (S754_finite s2 m2 0).
Proof.
  intros Hnu Hnu'.
  destruct (SFdiv_int_pre prec emax Hprec m1 m2 Hnu) as (Hab & Hn & _).
  set (e' := Z.min (fexp (Z.pos (digits2_pos m1) - Z.pos (digits2_pos m2))) 0) in *.
  assert (He : 0 <= - e') by (unfold e'; lia).
  assert (P : 0 < 2 ^ (- e')) by (apply Z.pow_pos_nonneg; lia).
  assert (Eq : Z.pos (m1 * c) * 2 ^ (- e') / Z.pos (m2 * c) =
               Z.pos m1 * 2 ^ (- e') / Z.pos m2).
  { rewrite !Pos2Z.inj_mul.
    replace (Z.pos m1 * Z.pos c * 2 ^ (- e')) with (Z.pos m1 * 2 ^ (- e') * Z.pos c) by ring.
    apply Z.div_mul_cancel_r; lia. }
  set (e1 := fexp (Zdigits2 (Z.pos m1 * 2 ^ (- e') / Z.pos m2) - - e')).
  assert (He1 : 0 <= e1 + - e').
  { unfold e1.
    replace (Zdigits2 (Z.pos m1 * 2 ^ (- e') / Z.pos m2) - - e')
      with (Zdigits2 (Z.pos m1 * 2 ^ (- e') / Z.pos m2) + e') by lia.
    lia. }
  rewrite (SFdiv_int_normal s1 s2 m1 m2 (- e') Hnu He Hab He1).
  assert (Hab' : Z.pos (m2 * c) <= Z.pos (m1 * c) * 2 ^ (- e')).
  { rewrite !Pos2Z.inj_mul. nia. }
  rewrite (SFdiv_int_normal s1 s2 (m1 * c) (m2 * c) (- e') Hnu' He Hab')
    by (rewrite Eq; exact He1).
  rewrite Eq. fold e1. f_equal.
  assert (P1 : 0 < 2 ^ (e1 + - e')) by (apply Z.pow_pos_nonneg; lia).
  rewrite !Pos2Z.inj_mul.
  replace (Z.pos m1 * Z.pos c * 2 ^ (- e')) with (Z.pos m1 * 2 ^ (- e') * Z.pos c) by ring.
  replace (Z.pos m2 * Z.pos c * 2 ^ (e1 + - e'))
    with (Z.pos m2 * 2 ^ (e1 + - e') * Z.pos c) by ring.
  apply round_ratio_scale; nia.
Qed.

(** An integer converted directly, or as a quotient. *)
Lemma binary_round_as_SFdiv (s : bool) (m c : positive) :
  SpecFloat.emin prec emax <=
    Z.pos (digits2_pos (m * c)) - Z.pos (digits2_pos c) - prec ->
  SFdiv prec emax (S754_finite s (m * c) 0) (S754_finite false c 0) =
  binary_round prec emax s m 0.
Proof.
  intros Hnu.
  set (j := Z.max 0 (- fexp (Z.pos (digits2_pos m)))).
  assert (Hj : 0 <= j) by (unfold j; lia).
  assert (P : 0 < 2 ^ j) by (apply Z.pow_pos_nonneg; lia).
  assert (Eq : Z.pos (m * c) * 2 ^ j / Z.pos c = Z.pos m * 2 ^ j).
  { rewrite Pos2Z.inj_mul.
    replace (Z.pos m * Z.pos c * 2 ^ j) with (Z.pos m * 2 ^ j * Z.pos c) by ring.
    apply Z.div_mul; lia. }
  assert (Ed : Zdigits2 (Z.pos m * 2 ^ j) - j = Z.pos (digits2_pos m)).
  { destruct (pos_mul_pow m j Hj) as (t & Et). rewrite <- Et. cbn [Zdigits2].
    rewrite (digits2_mul_pow m t j Hj Et). lia. }
  rewrite (binary_round_normal s m j Hj) by (unfold j; lia).
  assert (Hq : Z.pos c <= Z.pos (m * c) * 2 ^ j).
  { rewrite Pos2Z.inj_mul. assert (1 <= Z.pos m * 2 ^ j) by nia. nia. }
  rewrite (SFdiv_int_normal s false (m * c) c j Hnu Hj Hq)
    by (rewrite Eq, Ed; unfold j; lia).
  rewrite Eq, Ed, xorb_false_r. f_equal.
  set (e1 := fexp (Z.pos (digits2_pos m))).
  assert (P1 : 0 < 2 ^ (e1 + j)) by (apply Z.pow_pos_nonneg; unfold e1, j; lia).
  rewrite Pos2Z.inj_mul.
  replace (Z.pos m * Z.pos c * 2 ^ j) with (Z.pos m * 2 ^ j * Z.pos c) by ring.
  replace (Z.pos c * 2 ^ (e1 + j)) with (1 * 2 ^ (e1 + j) * Z.pos c) by ring.
  apply round_ratio_scale; nia.
Qed.

End RatioOnly.

(** ** Decimal constants in a line *)

Section DecimalTexts.

Local Abbreviation div100 s d :=
  (SFdiv prec64 emax64 (S754_finite s d 0) (S754_finite false 100 0)).

Lemma span_spec (p : ascii -> bool) (s l r : string) :
  span p s = (l, r) -> s = (l ++ r)%string /\ all_chars p l = true.
Proof.
  revert l r. induction s as [|c s IH]; cbn [span]; intros l r H.
  - injection H as <- <-. split; reflexivity.
  - destruct (p c) eqn:Pc.
    + destruct (span p s) as [l' r'] eqn:E. injection H as <- <-.
      destruct (IH l' r' eq_refl) as [-> Hl]. split; [reflexivity|].
      cbn [all_chars]. now rewrite Pc, Hl.
    + injection H as <- <-. split; reflexivity.
Qed.

Lemma minus_sign_spec (t : string) :
  t = (sign_text (fst (minus_sign t)) ++ snd (minus_sign t))%string.
Proof.
  destruct t as [|c r]; [reflexivity|].
  destruct c as [[] [] [] [] [] [] [] []]; reflexivity.
Qed.

Lemma decimal_text_inv (k : nat) (t : string) :
  decimal_text k t = true ->
  exists s ip fp,
    t = (sign_text s ++ ip ++ frac fp)%string /\
    all_chars isdigit ip = true /\ all_chars isdigit fp = true /\
    nonempty ip = true /\ String.length fp = k.
Proof.
  unfold decimal_text. intros H. pose proof (minus_sign_spec t) as Et.
  destruct (minus_sign t) as [s u]. cbn [fst snd] in *.
  destruct (span isdigit u) as [ip r] eqn:Es.
  apply span_spec in Es as [Eu Hip].
  apply andb_prop in H as [Hne H]. exists s, ip.
  destruct r as [|c fp].
  - exists EmptyString. apply Nat.eqb_eq in H. subst k.
    rewrite Et, Eu. repeat split; assumption.
  - apply andb_prop in H as [H Hl]. apply andb_prop in H as [H Hfp].
    apply andb_prop in H as [Hc Hnf]. apply Ascii.eqb_eq in Hc. subst c.
    apply Nat.eqb_eq in Hl. exists fp. rewrite Et, Eu.
    destruct fp as [|d fp]; [discriminate|]. repeat split; assumption.
Qed.

Lemma atof_decimal_text (k : nat) (t : string) :
  decimal_text k t = true ->
  exists s T, to_float (atof t) = decimal_value s T k.
Proof.
  intros H. destruct (decimal_text_inv k t H) as (s & ip & fp & -> & Hip & Hfp & Hne & <-).
  exists s, (digits_val 0 (ip ++ fp)). unfold atof, decimal_value.
  now rewrite strtod_decimal.
Qed.

(** A whole number is the same number of hundredths, and a number of
    tenths also. *)
Lemma decimal_value_whole (s : bool) (T : N) :
  decimal_value s T 0 = decimal_value s (T * 100) 2.
Proof.
  unfold decimal_value. destruct T as [|d]; [reflexivity|].
  change (Npos d * 100)%N with (Npos (d * 100)).
  rewrite d2d_whole, d2d_cents. f_equal. symmetry.
  apply (binary_round_as_SFdiv prec64 emax64 ltac:(reflexivity)).
  change (SpecFloat.emin prec64 emax64) with (-1074).
  change (Z.pos (digits2_pos 100)) with 7. change prec64 with 53. lia.
Qed.

Lemma decimal_value_tenths (s : bool) (T : N) :
  decimal_value s T 1 = decimal_value s (T * 10) 2.
Proof.
  unfold decimal_value. destruct T as [|d]; [reflexivity|].
  change (Npos d * 10)%N with (Npos (d * 10)).
  rewrite d2d_cents. f_equal. symmetry.
  change (decimal_to_double s (N.pos d) (- Z.of_nat 1))
    with (SFdiv prec64 emax64 (S754_finite s d 0) (S754_finite false 10 0)).
  apply (SFdiv_int_scale prec64 emax64 ltac:(reflexivity) s false d 10 10).
  - change (SpecFloat.emin prec64 emax64) with (-1074).
    change (Z.pos (digits2_pos 10)) with 4. change prec64 with 53. lia.
  - change (SpecFloat.emin prec64 emax64) with (-1074).
    change (Z.pos (digits2_pos (10 * 10))) with 7. change prec64 with 53. lia.
Qed.

Lemma has_decimals_value (s : bool) (T : N) (p : nat) :
  has_decimals p (decimal_value s T p).
Proof.
  unfold has_decimals. destruct (decimal_value s T p) eqn:E; try exact I;
    exists s, T; now rewrite E.
Qed.

(** The values [%.0f] and [%.2f] print without loss are those of the
    decimal constants with as many decimals. *)
Lemma reprint_fixed_iff (p : nat) (x : float) :
  p = 0%nat \/ p = 2%nat -> (reprint p x = x <-> has_decimals p x).
Proof.
  intros Hp. split.
  - intros H. destruct x as [s|s| |s m e]; try exact I.
    + exists s, 0%N. reflexivity.
    + rewrite reprint_finite in H. cbn [has_decimals].
      exists s, (scaled_round m e p). now rewrite <- H.
  - intros H. destruct x as [s|s| |s m e];
      try (apply reprint_special; exact I);
      destruct H as (s' & T & ->); unfold decimal_value;
      destruct Hp as [->| ->];
      (apply reprint_read_whole || apply reprint_read_cents).
Qed.

Lemma reread_fixed_iff (b : Boat) :
  reread b = b <-> has_decimals 0 (length b) /\ has_decimals 2 (amountOwed b).
Proof.
  rewrite <- !reprint_fixed_iff by auto. destruct b as [nm len info owed].
  unfold reread. cbn [name length locationInfo amountOwed]. split.
  - intros H. injection H as H1 H2. now split.
  - intros [-> ->]. reflexivity.
Qed.

Lemma reread_idempotent (b : Boat) : reread (reread b) = reread b.
Proof.
  unfold reread. cbn [name length locationInfo amountOwed].
  now rewrite !reprint_idempotent by auto.
Qed.

End DecimalTexts.

(** ** Sums of balances *)

Section ExactSums.

Local Abbreviation canonical32 := (canonical_mantissa prec32 emax32).
Local Abbreviation valid32 := (valid_binary prec32 emax32).















End ExactSums.

(** * The claims *)

(** ** The location keyword (C1) *)

(** C1.  The keyword is compared with [strcasecmp] in [addBoat] but with
    [strcmp] in [loadBoatData]: a line with an upper-case keyword is
    accepted when typed and skipped when read from the file. *)
Theorem load_keyword_case_sensitive :
  addBoat [] "Alice,20,SLIP,5,100.00" = ([alice], []) /\
  loadBoatData (Some (line "Alice,20,SLIP,5,100.00")) [] = ([], []) /\
  loadBoatData (Some (line "Alice,20,slip,5,100.00")) [] = ([alice], []) /\
  addBoat [] "Alice,20,dock,5,100.00" = ([], [ErrLocationType]).
Proof. vm_compute. repeat split. Qed.

(** ** Decoding what was encoded (C2) *)

(** Decoding, encoding and decoding again changes a length with a
    fractional part, and changes an amount with more than two decimals
    even when the length is whole. *)
Lemma reencoding_changes_record :
  (exists b b',
     parseBoat strcmp "Alice,20.5,slip,5,100.00" = inr b /\
     (forall sg, parseBoat strcmp (encodeBoat sg b) = inr b') /\
     length b' <> length b) /\
  (exists b b',
     parseBoat strcmp "Alice,20,slip,5,100.999" = inr b /\
     (forall sg, parseBoat strcmp (encodeBoat sg b) = inr b') /\
     length b' = length b /\ amountOwed b' <> amountOwed b).
Proof.
  split; eexists; eexists; (split; [vm_compute; reflexivity|]);
    (split; [intros sg; vm_compute; reflexivity|]); try split; vm_compute;
    try reflexivity; discriminate.
Qed.

(** C2, amended.  For every line [loadBoatData] decodes into a record [b]:
    - decoding the line [saveBoatData] writes for [b] gives [reread b]:
      the same name and location, the length read back from its rendering
      without decimals and the amount from its rendering with two;
    - this is lossy once only: encoding and decoding [reread b] gives
      [reread b] again;
    - nothing is lost at all, [reread b = b], exactly when the length is
      the value of a whole number and the amount that of a number with two
      decimals (or one of them is an infinity or a NaN);
    - in particular nothing is lost when, on the line, the length is
      written as a whole number and the amount with at most two
      decimals. *)
Theorem decode_encode_decode
  (buffer : string) (b : Boat)
  (Hdec : parseBoat strcmp (chomp buffer) = inr b) :
  (forall sg, parseBoat strcmp (encodeBoat sg b) = inr (reread b)) /\
  (name (reread b) = name b /\ locationInfo (reread b) = locationInfo b /\
   length (reread b) = to_float (atof (fmt_f false 0 (length b))) /\
   amountOwed (reread b) = to_float (atof (fmt_f false 2 (amountOwed b)))) /\
  (forall sg, parseBoat strcmp (encodeBoat sg (reread b)) = inr (reread b)) /\
  (reread b = b <->
   has_decimals 0 (length b) /\ has_decimals 2 (amountOwed b)) /\
  (forall t1 t2 t3 t4 t5 more,
     tokens (chomp buffer) = t1 :: t2 :: t3 :: t4 :: t5 :: more ->
     decimal_text 0 t2 = true ->
     decimal_text 0 t5 || decimal_text 1 t5 || decimal_text 2 t5 = true ->
     reread b = b).
Proof.
  pose proof (parseBoat_wf strcmp (chomp buffer) b (chomp_nonul buffer) Hdec) as Wf.
  split; [intros sg; now apply parseBoat_encodeBoat|].
  split; [repeat split|].
  split.
  { intros sg. rewrite (parseBoat_encodeBoat sg (reread b) Wf).
    now rewrite reread_idempotent. }
  split; [apply reread_fixed_iff|].
  intros t1 t2 t3 t4 t5 more Ht H2 H5.
  apply parseBoat_inv in Hdec
    as (u1 & u2 & u3 & u4 & u5 & more' & Hu & _ & _ & Hl & _ & Ha).
  rewrite Ht in Hu. injection Hu as <- <- <- <- <- <-.
  apply reread_fixed_iff. rewrite Hl, Ha. split.
  - destruct (atof_decimal_text 0 t2 H2) as (s & T & ->).
    apply has_decimals_value.
  - apply orb_prop in H5 as [H5|H5]; [apply orb_prop in H5 as [H5|H5]|].
    + destruct (atof_decimal_text 0 t5 H5) as (s & T & ->).
      rewrite decimal_value_whole. apply has_decimals_value.
    + destruct (atof_decimal_text 1 t5 H5) as (s & T & ->).
      rewrite decimal_value_tenths. apply has_decimals_value.
    + destruct (atof_decimal_text 2 t5 H5) as (s & T & ->).
      apply has_decimals_value.
Qed.

Lemma decode_encode_decode_witness :
  parseBoat strcmp (chomp (line "Horizon,14.7,trailor,TX1234ABCDEF,0.129")) =
    inr {| name := "Horizon"; length := to_float (atof "14.7");
           locationInfo := trailorTag "TX1234ABC";
           amountOwed := to_float (atof "0.129") |} /\
  (forall sg, parseBoat strcmp (encodeBoat sg
     {| name := "Horizon"; length := to_float (atof "14.7");
        locationInfo := trailorTag "TX1234ABC";
        amountOwed := to_float (atof "0.129") |}) =
    inr {| name := "Horizon"; length := float_of_Z 15;
           locationInfo := trailorTag "TX1234ABC";
           amountOwed := to_float (atof "0.13") |}) /\
  (forall sg, parseBoat strcmp (encodeBoat sg
     {| name := "Horizon"; length := float_of_Z 15;
        locationInfo := trailorTag "TX1234ABC";
        amountOwed := to_float (atof "0.13") |}) =
    inr {| name := "Horizon"; length := float_of_Z 15;
           locationInfo := trailorTag "TX1234ABC";
           amountOwed := to_float (atof "0.13") |}).
Proof.
  assert (H : parseBoat strcmp (chomp (line "Horizon,14.7,trailor,TX1234ABCDEF,0.129")) =
    inr {| name := "Horizon"; length := to_float (atof "14.7");
           locationInfo := trailorTag "TX1234ABC";
           amountOwed := to_float (atof "0.129") |}) by (vm_compute; reflexivity).
  split; [exact H|].
  destruct (decode_encode_decode _ _ H) as (E1 & _ & E2 & _).
  split; intros sg.
  - eapply eq_trans; [exact (E1 sg)|]. vm_compute. reflexivity.
  - pose proof (E2 sg) as E.
    assert (R : reread {| name := "Horizon"; length := to_float (atof "14.7");
                          locationInfo := trailorTag "TX1234ABC";
                          amountOwed := to_float (atof "0.129") |} =
                {| name := "Horizon"; length := float_of_Z 15;
                   locationInfo := trailorTag "TX1234ABC";
                   amountOwed := to_float (atof "0.13") |})
      by (vm_compute; reflexivity).
    rewrite R in E. exact E.
Defined.

(** A record read from a line with a whole length and an amount with one
    decimal is written and read back unchanged. *)
Example one_decimal_is_kept :
  exists b, parseBoat strcmp "Alice,20,slip,5,100.5" = inr b /\
            forall sg, parseBoat strcmp (encodeBoat sg b) = inr b.
Proof.
  eexists. split; [vm_compute; reflexivity|]. intros sg. vm_compute. reflexivity.
Qed.

(** ** Monthly charges (C3) *)




(** With nothing owed before, the four boats of the claim owe exactly
    375, 140, 400 and 224 after one month. *)
Example monthly_charge_from_zero :
  map (fun b => amountOwed (chargeBoat b))
    [ {| name := "S"; length := float_of_Z 30; locationInfo := slipNumber 1;
         amountOwed := S754_zero false |};
      {| name := "L"; length := float_of_Z 10; locationInfo := bayLetter "A";
         amountOwed := S754_zero false |};
      {| name := "T"; length := float_of_Z 16; locationInfo := trailorTag "TX1";
         amountOwed := S754_zero false |};
      {| name := "G"; length := float_of_Z 20; locationInfo := storageSpace 2;
         amountOwed := S754_zero false |} ] =
  map float_of_Z [375; 140; 400; 224].
Proof. vm_compute. reflexivity. Qed.

(** ** Payments against the balance (C4) *)

(** A balance of 1e39 is infinite as a [float]; paying the same amount is
    accepted and leaves NaN, not 0. *)
Lemma infinite_balance_paid_in_full :
  loadBoatData (Some (line "Alice,20,slip,5,1e39")) [] = ([rich], []) /\
  SFeqb (to_float (atof (cstring (line "1e39")))) (amountOwed rich) = true /\
  acceptPayment [rich] (line "alice" ++ line "1e39")%string =
    ([setAmountOwed S754_nan rich], EmptyString, [PromptName; PromptAmount]) /\
  is_zero S754_nan = false.
Proof. vm_compute. repeat split. Qed.

(** C4, amended.  For the first boat whose name matches the typed name
    case-insensitively: a payment greater than [amountOwed] is rejected,
    the message carries the current balance and no record changes;
    otherwise the payment is subtracted from that boat's [amountOwed] and
    nothing else changes; a payment equal to a finite [amountOwed] is
    accepted and leaves a balance of zero. *)
Theorem acceptPayment_checks_balance
  (before after : list Boat) (b : Boat) (input nameBuffer s1 buffer s2 : string)
  (Hname : fgets MAX_NAME_LENGTH input = Some (nameBuffer, s1))
  (Hfirst : no_match (chomp nameBuffer) before)
  (Hmatch : strcasecmp (name b) (chomp nameBuffer) = 0)
  (Hamount : fgets 50 s1 = Some (buffer, s2)) :
  let payment := to_float (atof (cstring buffer)) in
  (fgt payment (amountOwed b) = true ->
   acceptPayment (before ++ b :: after) input =
     (before ++ b :: after, s2,
      [PromptName; PromptAmount; MoreThanOwed (amountOwed b)])) /\
  (fgt payment (amountOwed b) = false ->
   acceptPayment (before ++ b :: after) input =
     (before ++ setAmountOwed (fsub (amountOwed b) payment) b :: after, s2,
      [PromptName; PromptAmount])) /\
  (SFeqb payment (amountOwed b) = true -> is_finite (amountOwed b) = true ->
   exists balance,
     is_zero balance = true /\
     acceptPayment (before ++ b :: after) input =
       (before ++ setAmountOwed balance b :: after, s2, [PromptName; PromptAmount])).
Proof.
  intros payment.
  pose proof (acceptPayment_found before after b input nameBuffer s1 buffer s2
                Hname Hfirst Hmatch Hamount) as E.
  fold payment in E. repeat split.
  - intros H. now rewrite H in E.
  - intros H. now rewrite H in E.
  - intros He Hf. destruct (equal_payment payment (amountOwed b) He Hf) as [Hg Hz].
    rewrite Hg in E. exists (fsub (amountOwed b) payment). now split.
Qed.

Lemma acceptPayment_checks_balance_witness :
  fgets MAX_NAME_LENGTH (line "BOB" ++ line "50.00")%string =
    Some (line "BOB", line "50.00") /\
  no_match (chomp (line "BOB")) [alice] /\
  strcasecmp (name bob) (chomp (line "BOB")) = 0 /\
  fgets 50 (line "50.00") = Some (line "50.00", EmptyString) /\
  SFeqb (to_float (atof (cstring (line "50.00")))) (amountOwed bob) = true /\
  is_finite (amountOwed bob) = true /\
  exists balance,
    is_zero balance = true /\
    acceptPayment ([alice] ++ bob :: []) (line "BOB" ++ line "50.00")%string =
      ([alice] ++ setAmountOwed balance bob :: [], EmptyString,
       [PromptName; PromptAmount]).
Proof.
  assert (H1 : fgets MAX_NAME_LENGTH (line "BOB" ++ line "50.00")%string =
               Some (line "BOB", line "50.00")) by reflexivity.
  assert (H2 : no_match (chomp (line "BOB")) [alice])
    by (repeat constructor; vm_compute; discriminate).
  assert (H3 : strcasecmp (name bob) (chomp (line "BOB")) = 0) by reflexivity.
  assert (H4 : fgets 50 (line "50.00") = Some (line "50.00", EmptyString))
    by reflexivity.
  assert (H5 : SFeqb (to_float (atof (cstring (line "50.00")))) (amountOwed bob) = true)
    by (vm_compute; reflexivity).
  assert (H6 : is_finite (amountOwed bob) = true) by reflexivity.
  repeat (split; [assumption|]).
  exact (proj2 (proj2 (acceptPayment_checks_balance [alice] [] bob _ _ _ _ _
                         H1 H2 H3 H4)) H5 H6).
Defined.

(** ** The store stays sorted (C5) *)

(** C5.  The collection is sorted by case-insensitive name after every
    load of a file and after every successful add, whatever the array held
    before; every turn of the interactive loop keeps it sorted, so it is
    sorted in every state the program reaches. *)
Theorem sorted_invariant
  (content data : string) (bs bs' : list Boat) (st : State) :
  sorted_by_name (fst (loadBoatData (Some content) bs)) /\
  (addBoat bs data = (bs', []) -> sorted_by_name bs') /\
  (sorted_by_name (boats st) -> sorted_by_name (boats (menu_step st))) /\
  (reachable st -> sorted_by_name (boats st)).
Proof.
  repeat split.
  - apply loadBoatData_sorted.
  - intros E. destruct (addBoat_cases bs data) as [(o & Ho & E')|(b & _ & _ & E')];
      rewrite E' in E.
    + injection E as _ E2. now destruct Ho.
    + injection E as <-. apply qsort_sorted.
  - intros Hs. unfold menu_step.
    destruct (fgets 256 (stdin st)) as [[inputBuffer stdin1]|]; [|exact Hs].
    set (c := toupper (first_char inputBuffer)).
    destruct (Ascii.eqb c "I"); [exact Hs|].
    destruct (Ascii.eqb c "A").
    { destruct (fgets 256 stdin1) as [[b2 stdin2]|]; [|exact Hs].
      pose proof (addBoat_sorted (boats st) (chomp b2) Hs) as H.
      destruct (addBoat (boats st) (chomp b2)) as [l o]. exact H. }
    destruct (Ascii.eqb c "R").
    { pose proof (removeBoat_cases (boats st) stdin1) as H.
      destruct (removeBoat (boats st) stdin1) as [[l s2] o]. simpl in *.
      destruct H as [->|[i ->]]; [exact Hs | now apply remove_at_sorted]. }
    destruct (Ascii.eqb c "P").
    { pose proof (acceptPayment_cases (boats st) stdin1) as H.
      destruct (acceptPayment (boats st) stdin1) as [[l s2] o]. simpl in *.
      destruct H as [->|(i & v & ->)]; [exact Hs|].
      eapply sorted_by_name_names; [|exact Hs]. now apply update_at_names. }
    destruct (Ascii.eqb c "M").
    { simpl. eapply sorted_by_name_names; [|exact Hs]. rewrite map_map. reflexivity. }
    destruct (Ascii.eqb c "X"); exact Hs.
  - intros H. now apply reachable_ok.
Qed.

Lemma sorted_invariant_witness :
  reachable (menu_loop 2 (initial (Some sample_file)
                (line "a" ++ line "Carol,30,trailor,TX1,0" ++ line "m")%string NUL)) /\
  sorted_by_name
    (boats (menu_loop 2 (initial (Some sample_file)
                (line "a" ++ line "Carol,30,trailor,TX1,0" ++ line "m")%string NUL))).
Proof.
  assert (R : reachable (menu_loop 2 (initial (Some sample_file)
                (line "a" ++ line "Carol,30,trailor,TX1,0" ++ line "m")%string NUL))).
  { exists (Some sample_file),
      (line "a" ++ line "Carol,30,trailor,TX1,0" ++ line "m")%string, NUL, 2%nat.
    reflexivity. }
  split; [exact R|].
  exact (proj2 (proj2 (proj2 (sorted_invariant EmptyString EmptyString [] [] _))) R).
Defined.

(** ** Missing and empty fields (C6) *)

(** The line of this example has an empty second field, and both
    [loadBoatData] and [addBoat] accept it: [strtok_r] steps over
    consecutive commas. *)
Lemma empty_field_accepted :
  In EmptyString (csv_fields "Alice,,20,slip,5,100.00") /\
  loadBoatData (Some (line "Alice,,20,slip,5,100.00")) [] = ([alice], []) /\
  addBoat [] "Alice,,20,slip,5,100.00" = ([alice], []).
Proof. vm_compute. split; [right; left; reflexivity | split; reflexivity]. Qed.

(** C6, amended.  A line with fewer than five non-empty fields is
    rejected: [loadBoatData] skips it without a trace, wherever it stands
    among the lines of the file, and [addBoat] (below capacity) reports a
    format or location-type error and changes nothing.  In particular a
    file with one well-formed line and one line missing a field loads as
    the one well-formed record. *)
Theorem few_fields_rejected
  (pre : list string) (bad rest data : string) (bs : list Boat)
  (Hpre : Forall (fun l => line_ok l = true) pre)
  (Hbad : line_ok bad = true)
  (Hfew : (List.length (tokens bad) < 5)%nat)
  (Hdata : (List.length (tokens (strncpy 255 data)) < 5)%nat)
  (Hroom : (List.length bs < MAX_BOATS)%nat) :
  loadBoatData (Some (unlines pre ++ line bad ++ rest)%string) bs =
    loadBoatData (Some (unlines pre ++ rest)%string) bs /\
  (addBoat bs data = (bs, [ErrFormat]) \/ addBoat bs data = (bs, [ErrLocationType])) /\
  loadBoatData
    (Some (line "Alice,20,slip,5,100.00" ++ line "Bob,15,land,B")%string) [] =
    ([alice], []).
Proof.
  split; [|split].
  - unfold loadBoatData. f_equal. f_equal.
    apply load_loop_skip; [exact Hpre | exact Hbad |].
    now apply parseBoat_few_tokens.
  - unfold addBoat.
    destruct (Nat.leb_spec MAX_BOATS (List.length bs)); [lia|].
    destruct (parseBoat_few_tokens strcasecmp _ Hdata) as [e ->].
    destruct e; [left | right]; reflexivity.
  - vm_compute. reflexivity.
Qed.

Lemma few_fields_rejected_witness :
  Forall (fun l => line_ok l = true) ["Alice,20,slip,5,100.00"] /\
  line_ok "Bob,15,land,B" = true /\
  (List.length (tokens "Bob,15,land,B") < 5)%nat /\
  (List.length (tokens (strncpy 255 "Carol,slip,7,0.00")) < 5)%nat /\
  (List.length [alice] < MAX_BOATS)%nat /\
  loadBoatData
    (Some (unlines ["Alice,20,slip,5,100.00"] ++ line "Bob,15,land,B" ++
           line "Dave,9,storage,3,1.50")%string) [alice] =
    loadBoatData
      (Some (unlines ["Alice,20,slip,5,100.00"] ++
             line "Dave,9,storage,3,1.50")%string)
      [alice] /\
  (addBoat [alice] "Carol,slip,7,0.00" = ([alice], [ErrFormat]) \/
   addBoat [alice] "Carol,slip,7,0.00" = ([alice], [ErrLocationType])).
Proof.
  assert (H1 : Forall (fun l => line_ok l = true) ["Alice,20,slip,5,100.00"])
    by (repeat constructor).
  assert (H2 : line_ok "Bob,15,land,B" = true) by reflexivity.
  assert (H3 : (List.length (tokens "Bob,15,land,B") < 5)%nat)
    by (vm_compute; repeat constructor).
  assert (H4 : (List.length (tokens (strncpy 255 "Carol,slip,7,0.00")) < 5)%nat)
    by (vm_compute; repeat constructor).
  assert (H5 : (List.length [alice] < MAX_BOATS)%nat)
    by (vm_compute; repeat constructor).
  repeat (split; [assumption|]).
  pose proof (few_fields_rejected ["Alice,20,slip,5,100.00"] "Bob,15,land,B"
                (line "Dave,9,storage,3,1.50") "Carol,slip,7,0.00" [alice]
                H1 H2 H3 H4 H5) as [Hload [Hadd _]].
  split; [exact Hload | exact Hadd].
Defined.

(** ** Removal (C7) *)

(** C7.  [removeBoat] looks the typed name up case-insensitively and takes
    the first match: with no match it prints "No boat with that name" and
    the collection is unchanged; otherwise exactly the first matching
    record is deleted and the others keep their order.  Every collection
    is in one of the two cases. *)
Theorem removeBoat_first_match
  (bs : list Boat) (input buffer rest : string)
  (Hread : fgets MAX_NAME_LENGTH input = Some (buffer, rest)) :
  (no_match (chomp buffer) bs ->
   removeBoat bs input = (bs, rest, [PromptName; NoBoat])) /\
  (forall before b after,
     bs = before ++ b :: after ->
     no_match (chomp buffer) before ->
     strcasecmp (name b) (chomp buffer) = 0 ->
     removeBoat bs input = (before ++ after, rest, [PromptName])) /\
  (no_match (chomp buffer) bs \/
   exists before b after,
     bs = before ++ b :: after /\ no_match (chomp buffer) before /\
     strcasecmp (name b) (chomp buffer) = 0).
Proof.
  unfold removeBoat. rewrite Hread. split; [|split].
  - intros Hno. now rewrite (findBoatByName_none _ _ Hno).
  - intros before b after -> Hno Hb.
    rewrite (findBoatByName_first _ _ _ _ Hno Hb). now rewrite remove_at_middle.
  - apply first_match_split.
Qed.

Lemma removeBoat_first_match_witness :
  fgets MAX_NAME_LENGTH (line "BOB") = Some (line "BOB", EmptyString) /\
  removeBoat [alice; bob; alice] (line "BOB") =
    ([alice; alice], EmptyString, [PromptName]).
Proof.
  split; [reflexivity|].
  apply (proj1 (proj2 (removeBoat_first_match [alice; bob; alice] (line "BOB")
                         (line "BOB") EmptyString eq_refl)) [alice] bob [alice]).
  - reflexivity.
  - repeat constructor. vm_compute. discriminate.
  - reflexivity.
Defined.

(** ** Capacity (C8) *)

(** C8.  [addBoat] on a full array prints the maximum-reached error and
    changes nothing; [loadBoatData] keeps at most [MAX_BOATS] records; no
    turn of the loop takes the size above [MAX_BOATS], so the size is
    bounded in every reachable state. *)
Theorem capacity_bound
  (content data : string) (bs : list Boat) (st : State) :
  ((MAX_BOATS <= List.length bs)%nat -> addBoat bs data = (bs, [ErrMaximum])) /\
  (List.length (fst (loadBoatData (Some content) bs)) <= MAX_BOATS)%nat /\
  ((List.length (boats st) <= MAX_BOATS)%nat ->
   (List.length (boats (menu_step st)) <= MAX_BOATS)%nat) /\
  (reachable st -> (List.length (boats st) <= MAX_BOATS)%nat).
Proof.
  repeat split.
  - intros H. unfold addBoat.
    destruct (Nat.leb_spec MAX_BOATS (List.length bs)); [reflexivity | lia].
  - simpl. rewrite qsort_length. apply load_loop_length. unfold MAX_BOATS. simpl. lia.
  - intros Hl. unfold menu_step.
    destruct (fgets 256 (stdin st)) as [[inputBuffer stdin1]|]; [|exact Hl].
    set (c := toupper (first_char inputBuffer)).
    destruct (Ascii.eqb c "I"); [exact Hl|].
    destruct (Ascii.eqb c "A").
    { destruct (fgets 256 stdin1) as [[b2 stdin2]|]; [|exact Hl].
      pose proof (addBoat_length (boats st) (chomp b2) Hl) as H.
      destruct (addBoat (boats st) (chomp b2)) as [l o]. exact H. }
    destruct (Ascii.eqb c "R").
    { pose proof (removeBoat_cases (boats st) stdin1) as H.
      destruct (removeBoat (boats st) stdin1) as [[l s2] o]. simpl in *.
      destruct H as [->|[i ->]]; [exact Hl|].
      pose proof (remove_at_length i (boats st)). lia. }
    destruct (Ascii.eqb c "P").
    { pose proof (acceptPayment_cases (boats st) stdin1) as H.
      destruct (acceptPayment (boats st) stdin1) as [[l s2] o]. simpl in *.
      destruct H as [->|(i & v & ->)]; [exact Hl|]. now rewrite update_at_length. }
    destruct (Ascii.eqb c "M"); [simpl; now rewrite length_map|].
    destruct (Ascii.eqb c "X"); exact Hl.
  - intros H. now apply reachable_ok.
Qed.

Lemma capacity_bound_witness :
  (MAX_BOATS <= List.length (repeat alice 120))%nat /\
  addBoat (repeat alice 120) "Zed,10,slip,1,0" = (repeat alice 120, [ErrMaximum]).
Proof.
  split; [vm_compute; repeat constructor|].
  apply (proj1 (capacity_bound EmptyString "Zed,10,slip,1,0" (repeat alice 120)
                  (mkState [] EmptyString NUL []))).
  vm_compute. repeat constructor.
Defined.

(** ** Permissive numbers (C9) *)




(** ** Negative payments (C10) *)

(** A payment of -1 on a balance of 100000000.00 is accepted and leaves
    the balance where it was: the next [float] above is 100000008. *)
Lemma negative_payment_absorbed :
  SFleb (S754_zero false) (amountOwed tanker) = true /\
  SFltb (to_float (atof (cstring (line "-1")))) (S754_zero false) = true /\
  acceptPayment [tanker] (line "tanker" ++ line "-1")%string =
    ([tanker], EmptyString, [PromptName; PromptAmount]).
Proof. vm_compute. repeat split. Qed.

(** C10, amended.  For a boat whose [amountOwed] is not negative, a
    negative payment is never rejected: the balance becomes
    [amountOwed - amount] as [float] subtraction computes it, which is
    never less than the balance before (and equal to it when rounding
    absorbs the amount), and nothing else changes. *)
Theorem negative_payment_accepted
  (before after : list Boat) (b : Boat) (input nameBuffer s1 buffer s2 : string)
  (Hname : fgets MAX_NAME_LENGTH input = Some (nameBuffer, s1))
  (Hfirst : no_match (chomp nameBuffer) before)
  (Hmatch : strcasecmp (name b) (chomp nameBuffer) = 0)
  (Hamount : fgets 50 s1 = Some (buffer, s2))
  (Hvalid : valid_binary prec32 emax32 (amountOwed b) = true)
  (Howed : SFleb (S754_zero false) (amountOwed b) = true)
  (Hneg : SFltb (to_float (atof (cstring buffer))) (S754_zero false) = true) :
  acceptPayment (before ++ b :: after) input =
    (before ++
       setAmountOwed (fsub (amountOwed b) (to_float (atof (cstring buffer)))) b
       :: after,
     s2, [PromptName; PromptAmount]) /\
  SFleb (amountOwed b)
        (fsub (amountOwed b) (to_float (atof (cstring buffer)))) = true.
Proof.
  split.
  - rewrite (acceptPayment_found before after b input nameBuffer s1 buffer s2
               Hname Hfirst Hmatch Hamount).
    now rewrite (negative_not_more _ _ Howed Hneg).
  - apply SFsub_nonneg_negative; [exact Hvalid | apply to_float_valid | exact Howed
                                 | exact Hneg].
Qed.

Lemma negative_payment_accepted_witness :
  fgets MAX_NAME_LENGTH (line "alice" ++ line "-50")%string =
    Some (line "alice", line "-50") /\
  no_match (chomp (line "alice")) [] /\
  strcasecmp (name alice) (chomp (line "alice")) = 0 /\
  fgets 50 (line "-50") = Some (line "-50", EmptyString) /\
  valid_binary prec32 emax32 (amountOwed alice) = true /\
  SFleb (S754_zero false) (amountOwed alice) = true /\
  SFltb (to_float (atof (cstring (line "-50")))) (S754_zero false) = true /\
  acceptPayment [alice; bob] (line "alice" ++ line "-50")%string =
    ([setAmountOwed (float_of_Z 150) alice; bob], EmptyString,
     [PromptName; PromptAmount]) /\
  SFleb (amountOwed alice) (float_of_Z 150) = true.
Proof.
  assert (H1 : fgets MAX_NAME_LENGTH (line "alice" ++ line "-50")%string =
               Some (line "alice", line "-50")) by reflexivity.
  assert (H2 : no_match (chomp (line "alice")) []) by constructor.
  assert (H3 : strcasecmp (name alice) (chomp (line "alice")) = 0) by reflexivity.
  assert (H4 : fgets 50 (line "-50") = Some (line "-50", EmptyString)) by reflexivity.
  assert (Hv : valid_binary prec32 emax32 (amountOwed alice) = true) by reflexivity.
  assert (H5 : SFleb (S754_zero false) (amountOwed alice) = true) by reflexivity.
  assert (H6 : SFltb (to_float (atof (cstring (line "-50")))) (S754_zero false) = true)
    by (vm_compute; reflexivity).
  repeat (split; [assumption|]).
  destruct (negative_payment_accepted [] [bob] alice _ _ _ _ _ H1 H2 H3 H4 Hv H5 H6)
    as [E L].
  split.
  - eapply eq_trans; [exact E|]. vm_compute. reflexivity.
  - eapply eq_trans; [|exact L]. vm_compute. reflexivity.
Defined.

(** * Further properties of the code *)

(** ** The comparison of names *)

Section Comparison.

Lemma code_tolower_zero (c : ascii) :
  (code (tolower c) =? 0) = Ascii.eqb c NUL.
Proof. destruct c as [[] [] [] [] [] [] [] []]; vm_compute; reflexivity. Qed.

Lemma code_inj (x y : ascii) : code x = code y -> x = y.
Proof.
  unfold code. intros E. apply N2Z.inj in E.
  rewrite <- (ascii_N_embedding x), <- (ascii_N_embedding y). now rewrite E.
Qed.

(** [strcasecmp] is 0 exactly between strings that agree up to letter
    case. *)
Lemma strcasecmp_zero (a b : string) :
  strcasecmp a b = 0 <-> lowercase (cstring a) = lowercase (cstring b).
Proof.
  revert b. induction a as [|x a IH]; destruct b as [|y b]; cbn [strcasecmp cstring];
    rewrite <- ?(code_tolower_zero x), <- ?(code_tolower_zero y).
  - split; reflexivity.
  - destruct (Z.eqb_spec (code (tolower y)) 0); cbn [lowercase];
      split; try reflexivity; try lia; discriminate.
  - destruct (Z.eqb_spec (code (tolower x)) 0); cbn [lowercase];
      split; try reflexivity; try lia; discriminate.
  - destruct (Z.eqb_spec (code (tolower x)) (code (tolower y))) as [E|E].
    + rewrite <- E.
      destruct (Z.eqb_spec (code (tolower x)) 0); cbn [lowercase];
        [split; reflexivity|].
      apply code_inj in E. rewrite E, IH.
      split; [intros ->; reflexivity | now intros [= ->]].
    + destruct (Z.eqb_spec (code (tolower x)) 0), (Z.eqb_spec (code (tolower y)) 0);
        cbn [lowercase]; split; try lia; try discriminate.
      intros [= H _]. rewrite H in E. now destruct E.
Qed.

End Comparison.

(** X1.  [compareBoats] is a comparison [qsort] can work with: a boat
    compares equal to itself, swapping the arguments changes the sign,
    "not after" is transitive, and the result is 0 exactly when the two
    names agree up to letter case. *)
Theorem compareBoats_order (a b c : Boat) :
  compareBoats a a = 0 /\
  compareBoats b a = - compareBoats a b /\
  (compareBoats a b <= 0 -> compareBoats b c <= 0 -> compareBoats a c <= 0) /\
  (compareBoats a b = 0 <->
   lowercase (cstring (name a)) = lowercase (cstring (name b))).
Proof.
  unfold compareBoats. split; [apply strcasecmp_refl|].
  split; [apply strcasecmp_antisym|].
  split; [apply strcasecmp_le_trans | apply strcasecmp_zero].
Qed.

Lemma compareBoats_order_witness :
  compareBoats alice bob <= 0 /\ compareBoats bob tanker <= 0 /\
  compareBoats alice tanker <= 0.
Proof.
  assert (H1 : compareBoats alice bob <= 0) by (vm_compute; discriminate).
  assert (H2 : compareBoats bob tanker <= 0) by (vm_compute; discriminate).
  repeat (split; [assumption|]).
  exact (proj1 (proj2 (proj2 (compareBoats_order alice bob tanker))) H1 H2).
Defined.

(** ** Lookup *)

(** X2.  [findBoatByName] returns the index of the first boat whose name
    matches the given one up to letter case: the boat at that index
    matches and no boat before it does; it returns -1 ([None]) exactly
    when no boat matches. *)
Theorem findBoatByName_first_index (bs : list Boat) (nm : string) :
  match findBoatByName bs nm with
  | Some i =>
      exists b, nth_error bs i = Some b /\ strcasecmp (name b) nm = 0 /\
                no_match nm (firstn i bs) /\ (i < List.length bs)%nat
  | None => no_match nm bs
  end.
Proof.
  induction bs as [|x bs IH]; cbn [findBoatByName]; [constructor|].
  destruct (Z.eqb_spec (strcasecmp (name x) nm) 0) as [E|E].
  - exists x. cbn. repeat split; [exact E | constructor | lia].
  - destruct (findBoatByName bs nm) as [i|]; cbn [option_map].
    + destruct IH as (b & Hn & Hb & Hno & Hi). exists b. cbn.
      repeat split; [exact Hn | exact Hb | now constructor | lia].
    + now constructor.
Qed.

Section LookupFacts.

Lemma findBoatByName_member (bs : list Boat) (b : Boat) (nm : string) :
  In b bs -> strcasecmp (name b) nm = 0 ->
  exists i b', findBoatByName bs nm = Some i /\ nth_error bs i = Some b' /\
               strcasecmp (name b') nm = 0.
Proof.
  intros Hin Hb. induction bs as [|x bs IH]; [destruct Hin|].
  cbn [findBoatByName].
  destruct (Z.eqb_spec (strcasecmp (name x) nm) 0) as [E|E].
  - exists 0%nat, x. now repeat split.
  - destruct Hin as [->|Hin]; [contradiction|].
    destruct (IH Hin) as (i & b' & Hf & Hn & Hm). rewrite Hf.
    exists (S i), b'. now repeat split.
Qed.

(** What a successful [addBoat] returns. *)
Lemma addBoat_success (bs : list Boat) (data : string) (b : Boat) :
  (List.length bs < MAX_BOATS)%nat ->
  parseBoat strcasecmp (strncpy 255 data) = inr b ->
  addBoat bs data = (qsort compareBoats (bs ++ [b]), []) /\
  Permutation (b :: bs) (qsort compareBoats (bs ++ [b])).
Proof.
  intros Hroom Hparse. split.
  - unfold addBoat. destruct (Nat.leb_spec MAX_BOATS (List.length bs)); [lia|].
    now rewrite Hparse.
  - rewrite <- qsort_perm. apply Permutation_cons_append.
Qed.

End LookupFacts.

(** ** Adding and removing *)

(** X3.  A successful [addBoat] (room left, line accepted) prints nothing
    and inserts exactly the decoded record: the new collection holds the
    old records and the new one, each once, is one longer and sorted, and
    [findBoatByName] with the stored name finds a boat of that name. *)
Theorem addBoat_inserts
  (bs : list Boat) (data : string) (b : Boat)
  (Hroom : (List.length bs < MAX_BOATS)%nat)
  (Hparse : parseBoat strcasecmp (strncpy 255 data) = inr b) :
  exists bs',
    addBoat bs data = (bs', []) /\
    Permutation (b :: bs) bs' /\
    sorted_by_name bs' /\
    List.length bs' = S (List.length bs) /\
    exists i b', findBoatByName bs' (name b) = Some i /\
                 nth_error bs' i = Some b' /\
                 strcasecmp (name b') (name b) = 0.
Proof.
  destruct (addBoat_success bs data b Hroom Hparse) as [E P].
  exists (qsort compareBoats (bs ++ [b])).
  split; [exact E|]. split; [exact P|]. split; [apply qsort_sorted|].
  split; [rewrite qsort_length, length_app; simpl; lia|].
  apply (findBoatByName_member _ b).
  - eapply Permutation_in; [exact P | now left].
  - apply strcasecmp_refl.
Qed.

Lemma addBoat_inserts_witness :
  (List.length [alice; tanker] < MAX_BOATS)%nat /\
  parseBoat strcasecmp (strncpy 255 "Bob,15,LAND,B,50.00") = inr bob /\
  exists bs',
    addBoat [alice; tanker] "Bob,15,LAND,B,50.00" = (bs', []) /\
    Permutation (bob :: [alice; tanker]) bs'.
Proof.
  assert (H1 : (List.length [alice; tanker] < MAX_BOATS)%nat)
    by (vm_compute; repeat constructor).
  assert (H2 : parseBoat strcasecmp (strncpy 255 "Bob,15,LAND,B,50.00") = inr bob)
    by (vm_compute; reflexivity).
  repeat (split; [assumption|]).
  destruct (addBoat_inserts [alice; tanker] "Bob,15,LAND,B,50.00" bob H1 H2)
    as (bs' & E & P & _).
  exists bs'. now split.
Defined.

(** X4.  Adding a boat whose name no boat of the collection has, then
    removing by that name, gives back the records the collection had
    (possibly in another order among equal names), still sorted. *)
Theorem add_then_remove
  (bs : list Boat) (data : string) (b : Boat) (input buffer rest : string)
  (Hroom : (List.length bs < MAX_BOATS)%nat)
  (Hparse : parseBoat strcasecmp (strncpy 255 data) = inr b)
  (Hread : fgets MAX_NAME_LENGTH input = Some (buffer, rest))
  (Hname : strcasecmp (name b) (chomp buffer) = 0)
  (Hnew : no_match (chomp buffer) bs) :
  exists bs'',
    removeBoat (fst (addBoat bs data)) input = (bs'', rest, [PromptName]) /\
    Permutation bs bs'' /\ sorted_by_name bs''.
Proof.
  destruct (addBoat_success bs data b Hroom Hparse) as [E P].
  pose proof (qsort_sorted (bs ++ [b])) as S'.
  rewrite E. cbn [fst]. revert P S'.
  generalize (qsort compareBoats (bs ++ [b])). intros bs' P S'.
  destruct (first_match_split (chomp buffer) bs')
    as [Hno|(before & x & after & -> & Hno & Hx)].
  - exfalso. unfold no_match in Hno. rewrite Forall_forall in Hno.
    apply (Hno b); [|exact Hname]. eapply Permutation_in; [exact P | now left].
  - assert (x = b).
    { assert (Hin : In x (b :: bs)).
      { eapply Permutation_in; [symmetry; exact P|]. apply in_elt. }
      destruct Hin as [->|Hin]; [reflexivity|].
      unfold no_match in Hnew. rewrite Forall_forall in Hnew.
      now destruct (Hnew x Hin). }
    subst x. exists (before ++ after). split; [|split].
    + unfold removeBoat. rewrite Hread.
      rewrite (findBoatByName_first _ _ _ _ Hno Hx). now rewrite remove_at_middle.
    + eapply Permutation_cons_app_inv. exact P.
    + rewrite <- (remove_at_middle before b after). now apply remove_at_sorted.
Qed.

Lemma add_then_remove_witness :
  (List.length [alice; tanker] < MAX_BOATS)%nat /\
  parseBoat strcasecmp (strncpy 255 "Bob,15,LAND,B,50.00") = inr bob /\
  fgets MAX_NAME_LENGTH (line "BOB") = Some (line "BOB", EmptyString) /\
  strcasecmp (name bob) (chomp (line "BOB")) = 0 /\
  no_match (chomp (line "BOB")) [alice; tanker] /\
  exists bs'',
    removeBoat (fst (addBoat [alice; tanker] "Bob,15,LAND,B,50.00")) (line "BOB") =
      (bs'', EmptyString, [PromptName]) /\
    Permutation [alice; tanker] bs''.
Proof.
  assert (H1 : (List.length [alice; tanker] < MAX_BOATS)%nat)
    by (vm_compute; repeat constructor).
  assert (H2 : parseBoat strcasecmp (strncpy 255 "Bob,15,LAND,B,50.00") = inr bob)
    by (vm_compute; reflexivity).
  assert (H3 : fgets MAX_NAME_LENGTH (line "BOB") = Some (line "BOB", EmptyString))
    by reflexivity.
  assert (H4 : strcasecmp (name bob) (chomp (line "BOB")) = 0) by reflexivity.
  assert (H5 : no_match (chomp (line "BOB")) [alice; tanker])
    by (repeat constructor; vm_compute; discriminate).
  repeat (split; [assumption|]).
  destruct (add_then_remove [alice; tanker] "Bob,15,LAND,B,50.00" bob (line "BOB")
              (line "BOB") EmptyString H1 H2 H3 H4 H5) as (bs'' & E & P & _).
  exists bs''. now split.
Defined.

(** ** Payment for an unknown name *)

Section UnknownName.

Lemma acceptPayment_no_match (bs : list Boat) (input buffer rest : string) :
  fgets MAX_NAME_LENGTH input = Some (buffer, rest) ->
  no_match (chomp buffer) bs ->
  acceptPayment bs input = (bs, rest, [PromptName; NoBoat]).
Proof.
  intros Hread Hnone. unfold acceptPayment. rewrite Hread.
  now rewrite (findBoatByName_none _ _ Hnone).
Qed.

End UnknownName.

(** X5.  A payment command ([p] or [P]) followed by a name no boat has:
    the program prints the menu, the name prompt and "No boat with that
    name", changes nothing and is back at the menu without asking for the
    amount; only the command line and the name line are taken from the
    input, so an amount typed next is read as the next menu choice. *)
Theorem payment_unknown_name
  (st : State) (command stdin1 buffer rest : string)
  (Hcommand : fgets 256 (stdin st) = Some (command, stdin1))
  (Hp : toupper (first_char command) = "P"%char)
  (Hread : fgets MAX_NAME_LENGTH stdin1 = Some (buffer, rest))
  (Hnone : no_match (chomp buffer) (boats st)) :
  menu_step st =
    mkState (boats st) rest "P" (stdout st ++ [Menu; PromptName; NoBoat]).
Proof.
  unfold menu_step. rewrite Hcommand, Hp. cbn [Ascii.eqb Bool.eqb].
  rewrite (acceptPayment_no_match _ _ _ _ Hread Hnone).
  now rewrite <- List.app_assoc.
Qed.

Lemma payment_unknown_name_witness :
  fgets 256 (line "p" ++ line "Carol" ++ line "25.00")%string =
    Some (line "p", (line "Carol" ++ line "25.00")%string) /\
  toupper (first_char (line "p")) = "P"%char /\
  fgets MAX_NAME_LENGTH (line "Carol" ++ line "25.00")%string =
    Some (line "Carol", line "25.00") /\
  no_match (chomp (line "Carol")) [alice; bob] /\
  menu_step (mkState [alice; bob] (line "p" ++ line "Carol" ++ line "25.00")%string
               NUL []) =
    mkState [alice; bob] (line "25.00") "P" [Menu; PromptName; NoBoat].
Proof.
  assert (H0 : fgets 256 (line "p" ++ line "Carol" ++ line "25.00")%string =
               Some (line "p", (line "Carol" ++ line "25.00")%string)) by reflexivity.
  assert (Hp : toupper (first_char (line "p")) = "P"%char) by reflexivity.
  assert (H1 : fgets MAX_NAME_LENGTH (line "Carol" ++ line "25.00")%string =
               Some (line "Carol", line "25.00")) by reflexivity.
  assert (H2 : no_match (chomp (line "Carol")) [alice; bob])
    by (repeat constructor; vm_compute; discriminate).
  repeat (split; [assumption|]).
  exact (payment_unknown_name
           (mkState [alice; bob] (line "p" ++ line "Carol" ++ line "25.00")%string NUL [])
           _ _ _ _ H0 Hp H1 H2).
Defined.

(** ** The loop and its input *)

Section LoopInput.

Lemma fgets_shorter (n : nat) (s buffer rest : string) :
  fgets (S (S n)) s = Some (buffer, rest) ->
  (String.length rest < String.length s)%nat.
Proof.
  unfold fgets. destruct s as [|c s]; [discriminate|].
  replace (S (S n) - 1)%nat with (S n) by lia.
  pose proof (fgets_chars_consumes n c s) as Hc.
  destruct (fgets_chars (S n) (String c s)) as [b r].
  intros [= <- <-]. cbn [snd String.length] in *. lia.
Qed.

Lemma removeBoat_input (bs : list Boat) (input : string) :
  (String.length (snd (fst (removeBoat bs input))) <= String.length input)%nat.
Proof.
  unfold removeBoat.
  destruct (fgets MAX_NAME_LENGTH input) as [[buffer rest]|] eqn:E;
    [|cbn; lia].
  apply (fgets_shorter 126) in E.
  destruct (findBoatByName bs (chomp buffer)); cbn; lia.
Qed.

Lemma acceptPayment_input (bs : list Boat) (input : string) :
  (String.length (snd (fst (acceptPayment bs input))) <= String.length input)%nat.
Proof.
  unfold acceptPayment.
  destruct (fgets MAX_NAME_LENGTH input) as [[nb s1]|] eqn:E1; [|cbn; lia].
  apply (fgets_shorter 126) in E1.
  destruct (findBoatByName bs (chomp nb)); [|cbn; lia].
  destruct (fgets 50 s1) as [[buffer s2]|] eqn:E2; [|cbn; lia].
  apply (fgets_shorter 48) in E2.
  destruct (nth_error bs n); [|cbn; lia].
  destruct (fgt _ _); cbn; lia.
Qed.

Lemma menu_step_input (st : State) :
  (String.length (stdin (menu_step st)) <= String.length (stdin st))%nat /\
  (stdin st <> EmptyString ->
   (String.length (stdin (menu_step st)) < String.length (stdin st))%nat).
Proof.
  unfold menu_step.
  destruct (fgets 256 (stdin st)) as [[inputBuffer stdin1]|] eqn:E.
  - apply (fgets_shorter 254) in E.
    match goal with
    | |- (?A <= _)%nat /\ _ => assert (H : (A <= String.length stdin1)%nat)
    end.
    { set (c := toupper (first_char inputBuffer)).
      destruct (Ascii.eqb c "I"); [cbn; lia|].
      destruct (Ascii.eqb c "A").
      { destruct (fgets 256 stdin1) as [[b2 stdin2]|] eqn:E2; [|cbn; lia].
        apply (fgets_shorter 254) in E2.
        destruct (addBoat (boats st) (chomp b2)). cbn. lia. }
      destruct (Ascii.eqb c "R").
      { pose proof (removeBoat_input (boats st) stdin1) as H.
        destruct (removeBoat (boats st) stdin1) as [[bs s2] o]. exact H. }
      destruct (Ascii.eqb c "P").
      { pose proof (acceptPayment_input (boats st) stdin1) as H.
        destruct (acceptPayment (boats st) stdin1) as [[bs s2] o]. exact H. }
      destruct (Ascii.eqb c "M"); [cbn; lia|].
      destruct (Ascii.eqb c "X"); cbn; lia. }
    split; [|intros _]; lia.
  - cbn [stdin]. split; [lia|]. intros Hne.
    unfold fgets in E. destruct (stdin st); [now destruct Hne | discriminate].
Qed.

Lemma menu_step_eof (st : State) :
  stdin st = EmptyString ->
  menu_step st = mkState (boats st) EmptyString (choice st) (stdout st ++ [Menu]).
Proof. intros E. unfold menu_step. rewrite E. reflexivity. Qed.

End LoopInput.

(** X6.  At end of input the loop does not end: if the input is exhausted
    and the last choice was not [X], every further turn only prints the
    menu again; the store, the choice and the (empty) input stay as they
    are, so the program never reaches [saveBoatData]. *)
Theorem loop_spins_at_end_of_input
  (st : State) (n : nat)
  (Heof : stdin st = EmptyString)
  (Hchoice : choice st <> "X"%char) :
  menu_loop n st =
    mkState (boats st) EmptyString (choice st) (stdout st ++ repeat Menu n).
Proof.
  revert st Heof Hchoice. induction n as [|n IH]; intros st Heof Hchoice.
  - cbn [menu_loop repeat]. rewrite List.app_nil_r, <- Heof. now destruct st.
  - cbn [menu_loop]. rewrite (menu_step_eof st Heof). cbn [choice].
    destruct (Ascii.eqb_spec (choice st) "X") as [E|_]; [contradiction|].
    rewrite IH by (cbn; auto). cbn [boats choice stdout].
    rewrite <- List.app_assoc. reflexivity.
Qed.

Lemma loop_spins_at_end_of_input_witness :
  stdin (mkState [alice] EmptyString "M" []) = EmptyString /\
  choice (mkState [alice] EmptyString "M" []) <> "X"%char /\
  menu_loop 3 (mkState [alice] EmptyString "M" []) =
    mkState [alice] EmptyString "M" [Menu; Menu; Menu].
Proof.
  assert (H1 : stdin (mkState [alice] EmptyString "M" []) = EmptyString)
    by reflexivity.
  assert (H2 : choice (mkState [alice] EmptyString "M" []) <> "X"%char)
    by discriminate.
  repeat (split; [assumption|]).
  exact (loop_spins_at_end_of_input (mkState [alice] EmptyString "M" []) 3 H1 H2).
Defined.

(** X7.  Every turn of the loop that finds input takes at least one
    character of it and none is ever put back: while the loop has not
    ended, after [n] turns at least [n] characters of the input are gone
    or the input is exhausted. *)
Theorem loop_consumes_input
  (st : State) (n : nat)
  (Hrunning : choice (menu_loop n st) <> "X"%char) :
  (String.length (stdin (menu_loop n st)) <= String.length (stdin st) - n)%nat.
Proof.
  revert st Hrunning. induction n as [|n IH]; intros st Hrunning.
  - cbn. lia.
  - cbn [menu_loop] in *.
    destruct (menu_step_input st) as [Hle Hlt].
    destruct (Ascii.eqb_spec (choice (menu_step st)) "X") as [E|E];
      [contradiction|].
    specialize (IH (menu_step st) Hrunning).
    destruct (stdin st) as [|c s] eqn:Es.
    + cbn [String.length] in *. lia.
    + assert (String.length (stdin (menu_step st)) < String.length (String c s))%nat
        by (apply Hlt; discriminate).
      cbn [String.length] in *. lia.
Qed.

Lemma loop_consumes_input_witness :
  choice (menu_loop 2 (mkState [alice] (line "i" ++ line "m" ++ line "x")%string
                         NUL [])) <> "X"%char /\
  (String.length
     (stdin (menu_loop 2 (mkState [alice] (line "i" ++ line "m" ++ line "x")%string
                            NUL []))) <= 6 - 2)%nat.
Proof.
  assert (H : choice (menu_loop 2 (mkState [alice]
                (line "i" ++ line "m" ++ line "x")%string NUL [])) <> "X"%char)
    by (vm_compute; discriminate).
  split; [exact H|].
  exact (loop_consumes_input
           (mkState [alice] (line "i" ++ line "m" ++ line "x")%string NUL []) 2 H).
Defined.

(** ** What the parser looks at *)

Section ParserTokens.

Variable cmp : string -> string -> Z.

(** [parseBoat] reads its result off the tokens of the line. *)
Lemma parseBoat_tokens (s : string) :
  parseBoat cmp s = parse_tokens cmp (tokens s).
Proof.
  unfold parseBoat, next_token, parse_tokens, location_of.
  pose proof (strtok_r_tokens s) as T1.
  destruct (strtok_r s) as [[t1 r1]|]; cbn [bind]; rewrite T1; [|reflexivity].
  pose proof (strtok_r_tokens r1) as T2.
  destruct (strtok_r r1) as [[t2 r2]|]; cbn [bind]; rewrite T2; [|reflexivity].
  pose proof (strtok_r_tokens r2) as T3.
  destruct (strtok_r r2) as [[t3 r3]|]; cbn [bind]; rewrite T3; [|reflexivity].
  pose proof (strtok_r_tokens r3) as T4.
  destruct (cmp t3 "slip" =? 0);
    [|destruct (cmp t3 "land" =? 0);
      [|destruct (cmp t3 "trailor" =? 0);
        [|destruct (cmp t3 "storage" =? 0); [|reflexivity]]]];
    cbn [orb];
    (destruct (strtok_r r3) as [[t4 r4]|]; cbn [bind]; rewrite T4; [|reflexivity]);
    pose proof (strtok_r_tokens r4) as T5;
    try (destruct t4 as [|c t4]; cbn [bind];
         [destruct (strtok_r r4) as [[t5 r5]|]; rewrite T5; reflexivity|]);
    (destruct (strtok_r r4) as [[t5 r5]|]; cbn [bind]; rewrite T5; reflexivity).
Qed.

Lemma parse_tokens_firstn (ts : list string) :
  parse_tokens cmp ts = parse_tokens cmp (firstn 5 ts).
Proof.
  destruct ts as [|t1 [|t2 [|t3 [|t4 [|t5 more]]]]]; reflexivity.
Qed.

End ParserTokens.

(** X8.  The line parser of [loadBoatData] and of [addBoat] looks only at
    the first five non-empty fields of a line: two lines that agree on
    them are decoded alike, so empty fields, repeated commas and anything
    after the fifth non-empty field are ignored. *)
Theorem parseBoat_first_five_tokens
  (cmp : string -> string -> Z) (s s' : string)
  (Hsame : firstn 5 (tokens s) = firstn 5 (tokens s')) :
  parseBoat cmp s = parseBoat cmp s'.
Proof.
  rewrite !parseBoat_tokens.
  rewrite (parse_tokens_firstn cmp (tokens s)), (parse_tokens_firstn cmp (tokens s')).
  now rewrite Hsame.
Qed.

Lemma parseBoat_first_five_tokens_witness :
  firstn 5 (tokens ",Alice,,20,slip,5,100.00,paid,,in full") =
    firstn 5 (tokens "Alice,20,slip,5,100.00") /\
  parseBoat strcmp ",Alice,,20,slip,5,100.00,paid,,in full" = inr alice.
Proof.
  assert (H : firstn 5 (tokens ",Alice,,20,slip,5,100.00,paid,,in full") =
              firstn 5 (tokens "Alice,20,slip,5,100.00")) by reflexivity.
  split; [exact H|].
  rewrite (parseBoat_first_five_tokens strcmp _ _ H). vm_compute. reflexivity.
Defined.

(** ** What [loadBoatData] keeps *)

Section Loading.


Lemma load_loop_accepted (ls : list string) (bs : list Boat) :
  Forall (fun l => line_ok l = true) ls ->
  load_loop (String.length (unlines ls)) (unlines ls) bs =
  bs ++ firstn (MAX_BOATS - List.length bs) (accepted ls).
Proof.
  intros Hls. revert bs. induction Hls as [|l ls Hl _ IH]; intros bs.
  - cbn [unlines accepted String.length load_loop].
    now rewrite firstn_nil, List.app_nil_r.
  - cbn [unlines accepted]. rewrite (load_loop_line l (unlines ls) bs Hl).
    destruct (Nat.ltb_spec (List.length bs) MAX_BOATS) as [Hlt|Hge].
    + destruct (parseBoat strcmp l) as [e|b]; rewrite IH; [reflexivity|].
      rewrite length_app. cbn [List.length].
      replace (MAX_BOATS - List.length bs)%nat
        with (S (MAX_BOATS - (List.length bs + 1))) by lia.
      cbn [firstn]. now rewrite <- List.app_assoc.
    + replace (MAX_BOATS - List.length bs)%nat with O by lia.
      cbn [firstn]. now rewrite List.app_nil_r.
Qed.

End Loading.

(** X9.  From a file whose lines all end with a newline and are at most
    254 characters long, [loadBoatData] keeps the records of the first
    [MAX_BOATS] lines its parser accepts, in sorted order, whatever the
    array held before; accepted lines beyond these are dropped without a
    message. *)
Theorem loadBoatData_keeps_first_accepted
  (ls : list string) (bs : list Boat)
  (Hlines : Forall (fun l => line_ok l = true) ls) :
  loadBoatData (Some (unlines ls)) bs =
    (qsort compareBoats (firstn MAX_BOATS (accepted ls)), []).
Proof.
  unfold loadBoatData. rewrite (load_loop_accepted ls [] Hlines).
  cbn [app List.length]. now rewrite Nat.sub_0_r.
Qed.

Lemma loadBoatData_keeps_first_accepted_witness :
  Forall (fun l => line_ok l = true)
    ["Bob,15,land,B,50.00"; "broken line"; "Alice,20,slip,5,100.00"] /\
  loadBoatData
    (Some (unlines ["Bob,15,land,B,50.00"; "broken line"; "Alice,20,slip,5,100.00"]))
    [tanker] = ([alice; bob], []).
Proof.
  assert (H : Forall (fun l => line_ok l = true)
                ["Bob,15,land,B,50.00"; "broken line"; "Alice,20,slip,5,100.00"])
    by (repeat constructor).
  split; [exact H|].
  rewrite (loadBoatData_keeps_first_accepted _ [tanker] H). vm_compute. reflexivity.
Defined.

(** ** Lines longer than the buffer *)

Section LongLines.




End LongLines.



(** ** The records the program holds *)

Section StoredRecords.

Lemma okchar_linechar (c : ascii) :
  okchar c = linechar c && negb (Ascii.eqb c COMMA).
Proof. reflexivity. Qed.

Lemma csv_fields_chars (s : string) :
  all_chars linechar s = true ->
  Forall (fun f => all_chars okchar f = true) (csv_fields s).
Proof.
  induction s as [|c s IH]; cbn [csv_fields all_chars]; intros H.
  - constructor; [reflexivity | constructor].
  - apply andb_prop in H as [Hc Hs]. specialize (IH Hs).
    destruct (Ascii.eqb c COMMA) eqn:E.
    + constructor; [reflexivity | exact IH].
    + assert (Ho : okchar c = true) by (now rewrite okchar_linechar, Hc, E).
      destruct (csv_fields s) as [|f fs].
      * constructor; [|constructor]. cbn [all_chars]. now rewrite Ho.
      * inversion IH as [|? ? Hf Hfs]; subst.
        constructor; [|exact Hfs]. cbn [all_chars]. now rewrite Ho.
Qed.

Lemma tokens_chars (s t : string) :
  all_chars linechar s = true -> In t (tokens s) ->
  nonempty t = true /\ all_chars okchar t = true.
Proof.
  intros Hs Hin. unfold tokens in Hin. apply filter_In in Hin as [Hin Hne].
  split; [exact Hne|].
  pose proof (csv_fields_chars s Hs) as F. rewrite Forall_forall in F. now apply F.
Qed.

Lemma okchar_plain (s : string) : all_chars okchar s = true -> plain s = true.
Proof.
  intros H. rewrite <- all_chars_plain. eapply all_chars_impl; [|exact H].
  intros c. destruct c as [[] [] [] [] [] [] [] []]; vm_compute; congruence.
Qed.

Lemma length_take (n : nat) (s : string) : (String.length (take n s) <= n)%nat.
Proof.
  revert s. induction n as [|n IH]; intros [|c s]; cbn [take String.length]; try lia.
  specialize (IH s). lia.
Qed.

Lemma take_all (n : nat) (s : string) :
  (String.length s <= n)%nat -> take n s = s.
Proof.
  revert s. induction n as [|n IH]; intros [|c s]; cbn [take String.length];
    intros H; try reflexivity; try lia.
  now rewrite IH by lia.
Qed.

Lemma text_ok_strncpy (n : nat) (t : string) :
  nonempty t = true -> all_chars okchar t = true ->
  text_ok (S n) (strncpy (S n) t).
Proof.
  intros Hne Hc. unfold strncpy. rewrite (plain_cstring t (okchar_plain t Hc)).
  split; [|split].
  - destruct t; [discriminate | reflexivity].
  - now apply all_chars_take.
  - apply length_take.
Qed.

Lemma parseBoat_stored (cmp : string -> string -> Z) (s : string) (b : Boat) :
  all_chars linechar s = true -> parseBoat cmp s = inr b -> stored_ok b.
Proof.
  intros Hs Hp. pose proof (parseBoat_valid _ _ _ Hp) as Hv.
  apply parseBoat_inv in Hp
    as (t1 & t2 & t3 & t4 & t5 & more & T & _ & Hn & _ & Hl & _).
  assert (H1 : In t1 (tokens s)) by (rewrite T; cbn [In]; auto).
  assert (H4 : In t4 (tokens s)) by (rewrite T; cbn [In]; auto 6).
  destruct (tokens_chars s t1 Hs H1) as [N1 C1].
  destruct (tokens_chars s t4 Hs H4) as [N4 C4].
  split; [rewrite Hn; now apply (text_ok_strncpy 126)|].
  split; [|exact Hv].
  unfold location_of in Hl.
  destruct (cmp t3 "slip" =? 0).
  { injection Hl as <-. apply atoi_range. }
  destruct (cmp t3 "land" =? 0).
  { destruct t4 as [|c t4]; [discriminate|]. injection Hl as <-.
    cbn [all_chars] in C4. now apply andb_prop in C4. }
  destruct (cmp t3 "trailor" =? 0).
  { injection Hl as <-. now apply (text_ok_strncpy 8). }
  destruct (cmp t3 "storage" =? 0); [|discriminate].
  injection Hl as <-. apply atoi_range.
Qed.

Lemma chomp_chars (buffer : string) : all_chars linechar (chomp buffer) = true.
Proof.
  induction buffer as [|c s IH]; cbn [chomp all_chars]; [reflexivity|].
  destruct (Ascii.eqb c NUL) eqn:E0; [reflexivity|].
  destruct (Ascii.eqb c NL) eqn:E1; [reflexivity|].
  cbn [orb all_chars]. unfold linechar at 1. now rewrite E0, E1.
Qed.

Lemma cstring_chars (p : ascii -> bool) (s : string) :
  all_chars p s = true -> all_chars p (cstring s) = true.
Proof.
  induction s as [|c s IH]; cbn [cstring all_chars]; [reflexivity|].
  intros H. apply andb_prop in H as [Hc Hs].
  destruct (Ascii.eqb c NUL); [reflexivity|].
  cbn [all_chars]. now rewrite Hc, IH.
Qed.

Lemma load_loop_stored (fuel : nat) (file : string) (bs : list Boat) :
  Forall stored_ok bs -> Forall stored_ok (load_loop fuel file bs).
Proof.
  revert file bs. induction fuel as [|fuel IH]; intros file bs Hb;
    cbn [load_loop]; [exact Hb|].
  destruct (fgets 256 file) as [[buffer file']|]; [|exact Hb].
  destruct (List.length bs <? MAX_BOATS)%nat; [|exact Hb].
  destruct (parseBoat strcmp (chomp buffer)) as [e|b] eqn:E; apply IH; [exact Hb|].
  apply Forall_app. split; [exact Hb|]. constructor; [|constructor].
  exact (parseBoat_stored _ _ _ (chomp_chars buffer) E).
Qed.

Lemma addBoat_stored (bs : list Boat) (data : string) :
  all_chars linechar data = true ->
  Forall stored_ok bs -> Forall stored_ok (fst (addBoat bs data)).
Proof.
  intros Hd Hb.
  destruct (addBoat_cases bs data) as [(o & _ & E)|(b & _ & Hp & E)];
    rewrite E; cbn [fst]; [exact Hb|].
  eapply Permutation_Forall; [apply qsort_perm|].
  apply Forall_app. split; [exact Hb|]. constructor; [|constructor].
  refine (parseBoat_stored _ _ _ _ Hp).
  unfold strncpy. now apply all_chars_take, cstring_chars.
Qed.

Lemma Forall_remove_at {A} (P : A -> Prop) (i : nat) (l : list A) :
  Forall P l -> Forall P (remove_at i l).
Proof.
  intros H. revert i. induction H as [|x l Hx Hl IH]; intros [|i];
    cbn [remove_at]; try constructor; auto.
Qed.

Lemma Forall_update_at {A} (P : A -> Prop) (i : nat) (f : A -> A) (l : list A) :
  (forall x, P x -> P (f x)) -> Forall P l -> Forall P (update_at i f l).
Proof.
  intros Hf H. revert i. induction H as [|x l Hx Hl IH]; intros [|i];
    cbn [update_at]; constructor; auto.
Qed.

Lemma setAmountOwed_stored (v : float) (b : Boat) :
  valid_binary prec32 emax32 v = true -> stored_ok b ->
  stored_ok (setAmountOwed v b).
Proof.
  intros Hv (Hn & Hi & Hl & _). split; [exact Hn|]. split; [exact Hi|].
  split; [exact Hl | exact Hv].
Qed.

Lemma acceptPayment_stored (bs : list Boat) (input : string) :
  Forall stored_ok bs -> Forall stored_ok (fst (fst (acceptPayment bs input))).
Proof.
  intros Hb. unfold acceptPayment.
  destruct (fgets MAX_NAME_LENGTH input) as [[nb s1]|]; [|exact Hb].
  destruct (findBoatByName bs (chomp nb)) as [i|]; [|exact Hb].
  destruct (fgets 50 s1) as [[buffer s2]|]; [|exact Hb].
  destruct (nth_error bs i) as [boat|]; [|exact Hb].
  destruct (fgt _ _); [exact Hb|]. cbn [fst].
  apply Forall_update_at; [|exact Hb].
  intros b Hs. apply setAmountOwed_stored; [|exact Hs].
  destruct Hs as (_ & _ & _ & Ha). apply fsub_valid; [exact Ha | apply to_float_valid].
Qed.

Lemma updateMonthlyCharges_stored (bs : list Boat) :
  Forall stored_ok bs -> Forall stored_ok (fst (updateMonthlyCharges bs)).
Proof.
  intros Hb. cbn [fst updateMonthlyCharges]. apply Forall_map.
  eapply Forall_impl; [|exact Hb]. intros b Hs.
  apply setAmountOwed_stored; [|exact Hs].
  destruct Hs as (_ & _ & _ & Ha). apply fadd_valid; [exact Ha | apply to_float_valid].
Qed.

Lemma menu_step_stored (st : State) :
  Forall stored_ok (boats st) -> Forall stored_ok (boats (menu_step st)).
Proof.
  intros Hok. unfold menu_step.
  destruct (fgets 256 (stdin st)) as [[inputBuffer stdin1]|]; [|exact Hok].
  set (c := toupper (first_char inputBuffer)).
  destruct (Ascii.eqb c "I"); [exact Hok|].
  destruct (Ascii.eqb c "A").
  { destruct (fgets 256 stdin1) as [[b2 stdin2]|]; [|exact Hok].
    pose proof (addBoat_stored (boats st) (chomp b2) (chomp_chars b2) Hok) as H.
    destruct (addBoat (boats st) (chomp b2)) as [bs o]. exact H. }
  destruct (Ascii.eqb c "R").
  { pose proof (removeBoat_cases (boats st) stdin1) as H.
    destruct (removeBoat (boats st) stdin1) as [[bs s2] o]. cbn [fst boats] in *.
    destruct H as [->|[i ->]]; [exact Hok | now apply Forall_remove_at]. }
  destruct (Ascii.eqb c "P").
  { pose proof (acceptPayment_stored (boats st) stdin1 Hok) as H.
    destruct (acceptPayment (boats st) stdin1) as [[bs s2] o]. exact H. }
  destruct (Ascii.eqb c "M").
  { exact (updateMonthlyCharges_stored (boats st) Hok). }
  destruct (Ascii.eqb c "X"); exact Hok.
Qed.

End StoredRecords.

(** X11.  In every state the program reaches, every stored record has a
    non-empty name of at most 127 characters; the name, the bay letter
    and the trailer tag (non-empty, at most 9 characters) contain no
    comma, newline or NUL; slip and storage numbers are values of [int];
    length and balance are well-formed [float] values.  So every record
    fits the fields of the C struct. *)
Theorem stored_records_invariant (st : State) (Hreach : reachable st) :
  Forall stored_ok (boats st).
Proof.
  destruct Hreach as (file & input & c0 & n & ->).
  assert (H0 : Forall stored_ok (boats (initial file input c0))).
  { unfold initial. destruct file as [content|]; cbn [loadBoatData boats];
      [|constructor].
    eapply Permutation_Forall; [apply qsort_perm|].
    apply load_loop_stored. constructor. }
  revert H0. generalize (initial file input c0).
  induction n as [|n IH]; intros st H0; cbn [menu_loop]; [exact H0|].
  pose proof (menu_step_stored st H0) as H1.
  destruct (Ascii.eqb (choice (menu_step st)) "X"); [exact H1 | now apply IH].
Qed.

Lemma stored_records_invariant_witness :
  reachable (menu_loop 3 (initial (Some sample_file)
                (line "a" ++ line "Carol,30,trailor,TX1,0" ++ line "m" ++
                 line "p" ++ line "bob" ++ line "12.5")%string NUL)) /\
  Forall stored_ok
    (boats (menu_loop 3 (initial (Some sample_file)
                (line "a" ++ line "Carol,30,trailor,TX1,0" ++ line "m" ++
                 line "p" ++ line "bob" ++ line "12.5")%string NUL))).
Proof.
  assert (R : reachable (menu_loop 3 (initial (Some sample_file)
                (line "a" ++ line "Carol,30,trailor,TX1,0" ++ line "m" ++
                 line "p" ++ line "bob" ++ line "12.5")%string NUL))).
  { exists (Some sample_file),
      (line "a" ++ line "Carol,30,trailor,TX1,0" ++ line "m" ++
       line "p" ++ line "bob" ++ line "12.5")%string, NUL, 3%nat.
    reflexivity. }
  split; [exact R|]. exact (stored_records_invariant _ R).
Defined.

(** ** The width of printed numbers *)

Section Widths.

Lemma digits_val_ge (s : string) (acc : N) :
  all_chars isdigit s = true ->
  (acc * 10 ^ N.of_nat (String.length s) <= digits_val acc s)%N.
Proof.
  revert acc. induction s as [|c s IH]; intros acc H;
    cbn [digits_val String.length all_chars] in *.
  - change (N.of_nat 0) with 0%N. rewrite N.pow_0_r. lia.
  - apply andb_prop in H as [Hc Hs]. rewrite Hc.
    rewrite Nat2N.inj_succ, N.pow_succ_r'.
    specialize (IH (10 * acc + digit_val c)%N Hs). revert IH.
    generalize (10 ^ N.of_nat (String.length s))%N. intros T IH. nia.
Qed.

Lemma nzhead_no_D0 (d d' : uint) : nzhead d <> D0 d'.
Proof. induction d; cbn [nzhead]; try discriminate; exact IHd. Qed.

Lemma N_to_string_head (p : positive) :
  exists c s, N_to_string (Npos p) = String c s /\ (1 <= digit_val c)%N.
Proof.
  unfold N_to_string. cbn [N.to_uint].
  pose proof (DecimalPos.Unsigned.to_uint_nonzero p) as Hz.
  pose proof (DecimalN.Unsigned.to_of (N.to_uint (Npos p))) as Hn.
  rewrite DecimalN.Unsigned.of_to in Hn. cbn [N.to_uint] in Hn.
  pose proof (nzhead_no_D0 (Pos.to_uint p)) as Hh.
  unfold unorm in Hn. revert Hz Hn Hh.
  generalize (Pos.to_uint p). intros d Hz Hn Hh.
  destruct (nzhead d) as [|u|u|u|u|u|u|u|u|u|u] eqn:E; subst d;
    try (now elim Hz); try (now elim (Hh u));
    cbn [NilZero.string_of_uint NilEmpty.string_of_uint];
    eexists; eexists; (split; [reflexivity | vm_compute; discriminate]).
Qed.

Lemma N_to_string_length (n : N) (k : nat) :
  (n < 10 ^ N.of_nat (S k))%N -> (String.length (N_to_string n) <= S k)%nat.
Proof.
  intros Hn. destruct n as [|p]; [cbn; lia|].
  destruct (N_to_string_head p) as (c & s & E & Hc).
  pose proof (digits_val_N_to_string (Npos p)) as Hv.
  pose proof (N_to_string_digits (Npos p)) as Hd.
  rewrite E in Hv, Hd |- *. cbn [digits_val all_chars String.length] in *.
  apply andb_prop in Hd as [Hd Hs]. rewrite Hd in Hv.
  pose proof (digits_val_ge s (10 * 0 + digit_val c)%N Hs) as Hge.
  rewrite Hv in Hge.
  assert (Hlt : (10 ^ N.of_nat (String.length s) < 10 ^ N.of_nat (S k))%N).
  { eapply N.le_lt_trans; [|exact Hn]. eapply N.le_trans; [|exact Hge].
    generalize (10 ^ N.of_nat (String.length s))%N. intros T. nia. }
  apply N.pow_lt_mono_r_iff in Hlt; lia.
Qed.

Lemma length_take_drop (k : nat) (s : string) :
  (String.length (take k s) + String.length (drop k s))%nat = String.length s.
Proof.
  revert s. induction k as [|k IH]; intros [|c s]; cbn [take drop String.length Nat.add];
    try reflexivity.
  now rewrite IH.
Qed.

Lemma fixed_digits_length (n : N) (p k : nat) :
  (n < 10 ^ N.of_nat (S k))%N -> (p <= k)%nat ->
  (String.length (fixed_digits n p) <= S (S k))%nat.
Proof.
  intros Hn Hp. pose proof (N_to_string_length n k Hn) as Hl.
  unfold fixed_digits. revert Hl. generalize (N_to_string n). intros ds Hl.
  assert (Hz : (String.length (zeros (S p - String.length ds) ++ ds) <= S k)%nat).
  { rewrite length_append, length_zeros. lia. }
  revert Hz. generalize (zeros (S p - String.length ds) ++ ds)%string.
  intros ds' Hz. destruct p as [|p]; [lia|].
  rewrite length_append. cbn [String.length].
  pose proof (length_take_drop (String.length ds' - S p) ds'). lia.
Qed.

Lemma valid_finite_bounds (s : bool) (m : positive) (e : Z) :
  valid_binary prec32 emax32 (S754_finite s m e) = true ->
  Z.pos m < 2 ^ 24 /\ e <= 104.
Proof.
  cbn [valid_binary]. unfold bounded, canonical_mantissa. intros H.
  apply andb_prop in H as [Hc He]. apply Z.leb_le in He.
  apply Z.eqb_eq in Hc. unfold fexp, emin, prec32, emax32 in *.
  split; [|lia].
  pose proof (digits2_bounds m) as [_ Hm].
  assert (Hb : Z.pos (digits2_pos m) <= 24) by lia.
  eapply Z.lt_le_trans; [exact Hm|]. apply Z.pow_le_mono_r; lia.
Qed.

Lemma scaled_round_bound (s : bool) (m : positive) (e : Z) (p : nat) :
  valid_binary prec32 emax32 (S754_finite s m e) = true ->
  (scaled_round m e p < 10 ^ N.of_nat (S (38 + p)))%N.
Proof.
  intros Hv. destruct (valid_finite_bounds s m e Hv) as [Hm He].
  assert (Hlt : Z.of_N (scaled_round m e p) < 10 ^ 39 * 10 ^ Z.of_nat p).
  { unfold scaled_round.
    assert (HT : 0 < 10 ^ Z.of_nat p) by (apply Z.pow_pos_nonneg; lia).
    revert HT. generalize (10 ^ Z.of_nat p). intros T HT.
    destruct (Z.leb_spec 0 e) as [H0|H0].
    - rewrite Z2N.id by (apply Z.mul_nonneg_nonneg; [lia | apply Z.pow_nonneg; lia]).
      assert (H2 : 2 ^ e <= 2 ^ 104) by (apply Z.pow_le_mono_r; lia).
      assert (H2' : 0 < 2 ^ e) by (apply Z.pow_pos_nonneg; lia).
      change (2 ^ 104) with 20282409603651670423947251286016 in H2.
      change (2 ^ 24) with 16777216 in Hm.
      change (10 ^ 39) with 1000000000000000000000000000000000000000.
      revert H2 H2'. generalize (2 ^ e). intros E H2 H2'.
      assert (Z.pos m * E < 16777216 * 20282409603651670423947251286016) by nia.
      nia.
    - assert (Hd : 0 < 2 ^ (- e)) by (apply Z.pow_pos_nonneg; lia).
      revert Hd. generalize (2 ^ (- e)). intros den Hd.
      assert (Hq : 0 <= Z.pos m * T / den <= Z.pos m * T).
      { split; [apply Z.div_pos; nia|]. apply Z.div_le_upper_bound; nia. }
      change (2 ^ 24) with 16777216 in Hm.
      change (10 ^ 39) with 1000000000000000000000000000000000000000.
      destruct (_ || _); rewrite Z2N.id by lia; nia. }
  apply N2Z.inj_lt. rewrite N2Z.inj_pow.
  replace (Z.of_N (N.of_nat (S (38 + p)))) with (39 + Z.of_nat p) by lia.
  rewrite Z.pow_add_r by lia. exact Hlt.
Qed.

Lemma fmt_f_length (sg : bool) (p : nat) (x : float) :
  valid_binary prec32 emax32 x = true ->
  (String.length (fmt_f sg p x) <= 41 + p)%nat.
Proof.
  intros Hv.
  assert (H0 : (String.length (fixed_digits 0 p) <= 40 + p)%nat).
  { apply (fixed_digits_length 0 p (38 + p)); [|lia].
    apply N.neq_0_lt_0, N.pow_nonzero. discriminate. }
  destruct x as [s|s| |s m e]; cbn [fmt_f].
  - destruct s; cbn [append String.length]; lia.
  - destruct s; cbn [String.length]; lia.
  - destruct sg; cbn [String.length]; lia.
  - pose proof (fixed_digits_length _ p (38 + p) (scaled_round_bound s m e p Hv)).
    destruct s; cbn [append String.length]; lia.
Qed.

Lemma fmt_d_length (n : Z) : int_range n -> (String.length (fmt_d n) <= 11)%nat.
Proof.
  unfold int_range, fmt_d. intros Hn.
  change (2 ^ 31) with 2147483648 in Hn.
  destruct (Z.ltb_spec n 0); cbn [String.length];
    match goal with
    | |- context [N_to_string ?v] =>
        assert (Hl : (String.length (N_to_string v) <= 10)%nat)
          by (apply (N_to_string_length v 9);
              change (10 ^ N.of_nat 10)%N with 10000000000%N; lia)
    end; lia.
Qed.

End Widths.

(** ** Saving and loading again *)

Section SaveLoad.

Lemma digit_or_point_linechar (c : ascii) :
  digit_or_point c = true -> linechar c = true.
Proof. destruct c as [[] [] [] [] [] [] [] []]; vm_compute; congruence. Qed.

Lemma fixed_digits_line (n : N) (p : nat) :
  all_chars linechar (fixed_digits n p) = true.
Proof.
  unfold fixed_digits.
  set (ds := N_to_string n).
  set (ds' := (zeros (S p - String.length ds) ++ ds)%string).
  assert (Hd : all_chars linechar ds' = true).
  { unfold ds'. rewrite all_chars_app. apply andb_true_intro. split;
      (eapply all_chars_impl;
       [intros c Hc; apply digit_or_point_linechar, isdigit_digit_or_point, Hc|]);
      [apply all_chars_zeros | apply N_to_string_digits]. }
  destruct p as [|p]; [exact Hd|].
  rewrite all_chars_app. apply andb_true_intro. split.
  - now apply all_chars_take.
  - cbn [all_chars]. change (linechar ".") with true. now apply all_chars_drop.
Qed.

Lemma fmt_f_line (sg : bool) (p : nat) (x : spec_float) :
  all_chars linechar (fmt_f sg p x) = true.
Proof.
  destruct x as [s|s| |s m e]; cbn [fmt_f]; try (now destruct sg);
    destruct s; try reflexivity; cbn [append all_chars];
    try change (linechar "-") with true; apply fixed_digits_line.
Qed.

Lemma fmt_d_line (n : Z) : all_chars linechar (fmt_d n) = true.
Proof.
  assert (H : forall v, all_chars linechar (N_to_string v) = true).
  { intros v. eapply all_chars_impl; [|apply N_to_string_digits].
    intros c Hc. now apply digit_or_point_linechar, isdigit_digit_or_point. }
  unfold fmt_d. destruct (n <? 0); [cbn [all_chars]|]; apply H.
Qed.

Lemma okchar_line (s : string) :
  all_chars okchar s = true -> all_chars linechar s = true.
Proof.
  apply all_chars_impl. intros c. rewrite okchar_linechar. intros H.
  now apply andb_prop in H.
Qed.

Lemma keyword_length (t : LocationType) :
  (String.length (locationTypeToString t) <= 7)%nat.
Proof. destruct t; cbn; lia. Qed.

Lemma encodeBoat_line_ok (sg : NanSigns) (b : Boat) :
  stored_ok b -> line_ok (encodeBoat sg b) = true.
Proof.
  intros ((_ & Hc & Hl) & Hi & Hvl & Hva).
  rewrite encodeBoat_fields. unfold line_ok. fold linechar.
  set (info := match locationInfo b with
               | slipNumber n => fmt_d n
               | bayLetter c => String c EmptyString
               | trailorTag t => t
               | storageSpace n => fmt_d n
               end).
  assert (Hinfo : all_chars linechar info = true /\ (String.length info <= 11)%nat).
  { unfold info. destruct (locationInfo b) as [n|c|t|n].
    - split; [apply fmt_d_line | now apply fmt_d_length].
    - split; [|cbn; lia]. cbn [all_chars]. rewrite okchar_linechar in Hi.
      apply andb_prop in Hi as [-> _]. reflexivity.
    - destruct Hi as (_ & Ht & Htl). split; [now apply okchar_line | lia].
    - split; [apply fmt_d_line | now apply fmt_d_length]. }
  destruct Hinfo as [Hic Hil].
  apply andb_true_intro. split.
  - rewrite !all_chars_app. cbn [all_chars]. rewrite !all_chars_app.
    cbn [all_chars]. rewrite !all_chars_app. cbn [all_chars].
    rewrite !all_chars_app. cbn [all_chars].
    change (linechar COMMA) with true.
    rewrite (okchar_line _ Hc), !fmt_f_line, Hic.
    now destruct (locationType b).
  - apply Nat.ltb_lt.
    pose proof (fmt_f_length (lengthSign sg) 0 _ Hvl).
    pose proof (fmt_f_length (owedSign sg) 2 _ Hva).
    pose proof (keyword_length (locationType b)).
    rewrite length_append. cbn [String.length]. rewrite length_append.
    cbn [String.length]. rewrite length_append. cbn [String.length].
    rewrite length_append. cbn [String.length]. lia.
Qed.

Lemma stored_wf (b : Boat) : stored_ok b -> wf_boat b.
Proof.
  intros ((Hn & Hc & Hl) & Hi & _). split; [|split].
  - unfold field_ok. now rewrite Hn, (okchar_plain _ Hc).
  - now apply take_all.
  - destruct (locationInfo b) as [n|c|t|n]; cbn [info_ok]; try exact Hi.
    + unfold field_ok. cbn [nonempty andb]. apply okchar_plain.
      cbn [all_chars]. now rewrite Hi.
    + destruct Hi as (Ht & Htc & Htl). split; [|now apply take_all].
      unfold field_ok. now rewrite Ht, (okchar_plain _ Htc).
Qed.

(** The lines of the saved file. *)
Lemma saveBoatData_unlines (sg : nat -> NanSigns) (bs : list Boat) :
  exists ls,
    saveBoatData sg bs = unlines ls /\
    Forall2 (fun l b => exists s, l = encodeBoat s b) ls bs.
Proof.
  revert sg. induction bs as [|b bs IH]; intros sg; cbn [saveBoatData].
  - exists []. split; [reflexivity | constructor].
  - destruct (IH (fun i => sg (S i))) as (ls & E & F).
    exists (encodeBoat (sg O) b :: ls). split.
    + cbn [unlines]. unfold line. now rewrite append_assoc, E.
    + constructor; [now exists (sg O) | exact F].
Qed.

Lemma accepted_encodeBoat (ls : list string) (bs : list Boat) :
  Forall2 (fun l b => exists s, l = encodeBoat s b) ls bs ->
  Forall stored_ok bs ->
  accepted ls = map reread bs /\ Forall (fun l => line_ok l = true) ls.
Proof.
  induction 1 as [|l b ls bs [s ->] _ IH]; intros Hs; cbn [map accepted].
  - split; [reflexivity | constructor].
  - inversion Hs as [|? ? Hb Hbs]; subst. destruct (IH Hbs) as [E F].
    rewrite (parseBoat_encodeBoat s b (stored_wf b Hb)), E.
    split; [reflexivity|]. constructor; [now apply encodeBoat_line_ok | exact F].
Qed.

End SaveLoad.

(** X12.  What [saveBoatData] writes, [loadBoatData] reads back in full:
    for at most [MAX_BOATS] records of the shape the program stores, no
    line of the saved file is rejected, split or dropped, and every
    record comes back with its name and location unchanged and its
    length and balance as printed ([%.0f] and [%.2f]), in sorted order,
    whichever way the NaN among them are printed ([sg]). *)
Theorem save_then_load_round_trip
  (sg : nat -> NanSigns) (bs bs0 : list Boat)
  (Hstored : Forall stored_ok bs)
  (Hroom : (List.length bs <= MAX_BOATS)%nat) :
  loadBoatData (Some (saveBoatData sg bs)) bs0 =
    (qsort compareBoats (map reread bs), []).
Proof.
  destruct (saveBoatData_unlines sg bs) as (ls & E & F).
  destruct (accepted_encodeBoat ls bs F Hstored) as [A L].
  unfold loadBoatData. rewrite E, (load_loop_accepted ls [] L).
  cbn [app List.length]. rewrite Nat.sub_0_r, A.
  rewrite firstn_all2; [reflexivity|]. now rewrite length_map.
Qed.

Lemma save_then_load_round_trip_witness :
  Forall stored_ok [bob; alice] /\
  (List.length [bob; alice] <= MAX_BOATS)%nat /\
  loadBoatData (Some (saveBoatData (fun _ => mkNanSigns false true) [bob; alice]))
    [tanker] = ([alice; bob], []).
Proof.
  assert (Hs : Forall stored_ok [bob; alice]).
  { repeat constructor; cbn; try reflexivity; try lia. }
  assert (Hl : (List.length [bob; alice] <= MAX_BOATS)%nat)
    by (unfold MAX_BOATS; cbn; lia).
  split; [exact Hs|]. split; [exact Hl|].
  eapply eq_trans;
    [exact (save_then_load_round_trip (fun _ => mkNanSigns false true) _ [tanker]
              Hs Hl)|].
  vm_compute. reflexivity.
Defined.

(** ** The columns of the listing *)

Section Listing.

Lemma length_spaces (k : nat) : String.length (spaces k) = k.
Proof. induction k as [|k IH]; cbn [spaces String.length]; [reflexivity | now rewrite IH]. Qed.

Lemma length_pad_left (w : nat) (s : string) :
  String.length (pad_left w s) = Nat.max w (String.length s).
Proof. unfold pad_left. rewrite length_append, length_spaces. lia. Qed.

Lemma length_pad_right (w : nat) (s : string) :
  String.length (pad_right w s) = Nat.max w (String.length s).
Proof. unfold pad_right. rewrite length_append, length_spaces. lia. Qed.

Lemma inventoryLine_length (sg : NanSigns) (b : Boat) :
  String.length (inventoryLine sg b) =
  (Nat.max 20 (String.length (name b)) +
   Nat.max 3 (String.length (fmt_f (lengthSign sg) 0 (length b))) +
   match locationInfo b with
   | slipNumber n => 13 + Nat.max 2 (String.length (fmt_d n))
   | bayLetter _ => 15
   | trailorTag t => 9 + Nat.max 6 (String.length t)
   | storageSpace n => 13 + Nat.max 2 (String.length (fmt_d n))
   end +
   Nat.max 7 (String.length (fmt_f (owedSign sg) 2 (amountOwed b))) + 13)%nat.
Proof.
  unfold inventoryLine.
  rewrite length_append, length_pad_right. cbn [append String.length].
  rewrite length_append, length_pad_left. cbn [append String.length].
  rewrite length_append.
  destruct (locationInfo b) as [n|c|t|n];
    cbn [String.length]; rewrite !length_append, !length_pad_left;
    cbn [String.length]; rewrite ?length_pad_left; lia.
Qed.

End Listing.

(** A NaN length is printed as "nan" or, when its sign bit is set, as
    "-nan", which is one character more than the column. *)
Example inventoryLine_nan :
  let b := {| name := "Alice"; length := S754_nan; locationInfo := slipNumber 5;
              amountOwed := float_of_Z 100 |} in
  inventoryLine (mkNanSigns false false) b =
    line "Alice                nan'     slip   #  5   Owes $ 100.00" /\
  inventoryLine (mkNanSigns true false) b =
    line "Alice                -nan'     slip   #  5   Owes $ 100.00" /\
  String.length (inventoryLine (mkNanSigns false false) b) = 58%nat /\
  String.length (inventoryLine (mkNanSigns true false) b) = 59%nat.
Proof. vm_compute. repeat split. Qed.

(** X13.  A line of the listing printed by [displayInventory] is never
    shorter than 58 characters (newline included), and it is exactly 58
    characters long, so that its columns stand under those of the other
    lines, exactly when every field fits its column: the name 20
    characters, the length 3, the slip or storage number 2, the trailer
    tag 6, the balance 7.  A wider field is printed in full and shifts
    the rest of its line.  This holds whichever way a NaN is printed
    ([sg] gives the sign bits of the two numbers of the record). *)
Theorem inventoryLine_columns (sg : NanSigns) (b : Boat) :
  (58 <= String.length (inventoryLine sg b))%nat /\
  (String.length (inventoryLine sg b) = 58%nat <-> fits_columns sg b).
Proof.
  rewrite inventoryLine_length. unfold fits_columns.
  destruct (locationInfo b) as [n|c|t|n]; lia.
Qed.
